(** * spawk: the interceptor (lib/interceptor.js)

    A shallow embedding of [lib/interceptor.js] and the properties of its
    matching engine ([compareOptions], [Interceptor.match]) and of its
    completion protocol ([Interceptor.run]).

    JavaScript values are represented by two types.  [jsdata] is plain data
    (what a canonical call triple carries); [value] adds what a registered
    spec or a mock may also be: a function, a regular expression, a promise.

    What the representation covers, and what it leaves out:
    - numbers are integers: no [NaN], no infinity, no fraction.  The text
      given for a number is the one JavaScript gives when a double holds
      the integer exactly and it is below 10^21; [exact_data] marks the
      data for which the representation is faithful in this respect;
    - strings are byte strings;
    - an object is the list of its own enumerable properties, each key
      once, in the order in which [Object.keys] and [JSON.stringify] go
      through them; it inherits from [Object.prototype], an array from
      [Array.prototype], and so on ([get]).  Data holds no function, so no
      object has a [toString], a [valueOf] or a [toJSON] method of its
      own, and the objects found among the args of a spec or of a call are
      taken to have no property of these names at all ([ToString]);
    - the arrays and objects of a spec and those of a call are separate
      objects ([strict_equals]);
    - a stream takes strings; there is no [Buffer] among the values.

    The methods are computations in a monad of state and exceptions over a
    [World]: the interceptor, the objects it allocates ([ChildProcess],
    streams), and the queue of the event loop.  The functions a test
    registers are those of a table [fn]; such a function is given the
    facade as [this] and its arguments, calls setters of the facade, and
    returns or throws: it has no state of its own, and acts on the
    interceptor through the facade only.  Nothing listens to the events of
    a handle or of its streams: [emit] records the event, a stream the
    calls it has taken.  [API.description] takes [util.inspect] and the
    source text of the functions as parameters.  That a setter of the
    facade returns the facade is not represented. *)

From Stdlib Require Import ZArith String Ascii List Bool Lia.
From stdpp Require Import base list strings pretty.
Import ListNotations.

Local Open Scope string_scope.
Local Open Scope list_scope.
Local Open Scope nat_scope.
Local Set Warnings "-register-all".

(** ** Values *)

Inductive jsdata : Type :=
| JUndefined
| JNull
| JBool (b : bool)
| JNum (n : Z)
| JStr (s : string)
| JArr (elems : list jsdata)
| JObj (props : list (string * jsdata)).

(** Induction on data, through the elements of arrays and the values of
    objects. *)
Section jsdata_induction.
Variable P : jsdata -> Prop.
Hypothesis Hundefined : P JUndefined.
Hypothesis Hnull : P JNull.
Hypothesis Hbool : forall b, P (JBool b).
Hypothesis Hnum : forall n, P (JNum n).
Hypothesis Hstr : forall s, P (JStr s).
Hypothesis Harr : forall elems, Forall P elems -> P (JArr elems).
Hypothesis Hobj : forall props, Forall (fun kv => P (snd kv)) props -> P (JObj props).

Fixpoint jsdata_nested_ind (d : jsdata) : P d :=
  match d with
  | JUndefined => Hundefined
  | JNull => Hnull
  | JBool b => Hbool b
  | JNum n => Hnum n
  | JStr s => Hstr s
  | JArr elems =>
      Harr elems
        ((fix go (l : list jsdata) : Forall P l :=
            match l with
            | [] => @List.Forall_nil _ P
            | e :: more => @List.Forall_cons _ P e more (jsdata_nested_ind e) (go more)
            end) elems)
  | JObj props =>
      Hobj props
        ((fix go (l : list (string * jsdata)) : Forall (fun kv => P (snd kv)) l :=
            match l with
            | [] => @List.Forall_nil _ _
            | kv :: more =>
                @List.Forall_cons _ _ kv more (jsdata_nested_ind (snd kv)) (go more)
            end) props)
  end.
End jsdata_induction.

(** A [RegExp] object.  The pattern is abstract: [re_search s i] is the end
    index of the match the pattern finds in [s] when matching starts at
    index [i] (for a sticky pattern: exactly at [i]).  [flags] and
    [lastIndex] are the properties of the same name. *)
Record RegExp : Type := mkRegExp {
  source : string;
  flags : string;
  re_search : string -> nat -> option nat;
  lastIndex : nat
}.

(** What a promise will do once the event loop has run long enough. *)
Inductive settlement : Type :=
| Fulfils (d : jsdata)
| Rejects (reason : jsdata)
| Pends.

(** Functions are objects of the program under test; a value refers to one
    by its index in the table of functions (see [fn] below). *)
Inductive value : Type :=
| VData (d : jsdata)
| VFun (f : nat)
| VRegExp (r : RegExp)
| VPromise (p : settlement).

Coercion VData : jsdata >-> value.

(** The outcome of evaluating an expression or calling a function. *)
Inductive completion (A : Type) : Type :=
| Normal (a : A)
| Throw (error : jsdata).

Arguments Normal {A} a.
Arguments Throw {A} error.

Definition TypeError : jsdata := JObj [("name", JStr "TypeError")].

(** ** Built-in operations used by the interceptor *)

(** [typeof v === 'function'] *)
Definition is_function (v : value) : bool :=
  match v with VFun _ => true | _ => false end.

(** ToBoolean *)
Definition truthy_data (d : jsdata) : bool :=
  match d with
  | JUndefined | JNull => false
  | JBool b => b
  | JNum n => negb (n =? 0)%Z
  | JStr s => negb (String.eqb s "")
  | JArr _ | JObj _ => true
  end.

Definition truthy (v : value) : bool :=
  match v with
  | VData d => truthy_data d
  | VFun _ | VRegExp _ | VPromise _ => true
  end.

(** [x === y] on plain data.  Two arrays or two objects are equal only when
    they are the same object; the data of a registered spec and the data of
    a call are taken to be separate objects. *)
Definition strict_equals (x y : jsdata) : bool :=
  match x, y with
  | JUndefined, JUndefined => true
  | JNull, JNull => true
  | JBool a, JBool b => Bool.eqb a b
  | JNum a, JNum b => (a =? b)%Z
  | JStr a, JStr b => String.eqb a b
  | _, _ => false
  end.

(** ToString; on an array it is [Array.prototype.join] with a comma, on an
    object [Object.prototype.toString] (the object having no [toString]
    of its own). *)
Fixpoint ToString (d : jsdata) : string :=
  match d with
  | JUndefined => "undefined"
  | JNull => "null"
  | JBool b => if b then "true" else "false"
  | JNum n => pretty n
  | JStr s => s
  | JArr elems =>
      String.concat ","
        (List.map (fun e => match e with
                            | JUndefined | JNull => ""
                            | _ => ToString e
                            end) elems)
  | JObj _ => "[object Object]"
  end.

(** The method call [x.toString()]: there is no such method on
    [undefined] and [null]. *)
Definition toString (d : jsdata) : completion string :=
  match d with
  | JUndefined | JNull => Throw TypeError
  | _ => Normal (ToString d)
  end.

Definition toString_value (v : value) : completion string :=
  match v with
  | VData d => toString d
  | VFun f => Normal ("function#" +:+ pretty f)
  | VRegExp r => Normal ("/" +:+ source r +:+ "/" +:+ flags r)
  | VPromise _ => Normal "[object Promise]"
  end.

Definition dquote : ascii := ascii_of_nat 34.
Definition backslash : ascii := ascii_of_nat 92.

Definition hex_digit (n : nat) : ascii :=
  if n <? 10 then ascii_of_nat (48 + n) else ascii_of_nat (87 + n).

(** One character of QuoteJSONString. *)
Definition escape_char (c : ascii) : string :=
  let n := nat_of_ascii c in
  if n =? 8 then String backslash "b"
  else if n =? 9 then String backslash "t"
  else if n =? 10 then String backslash "n"
  else if n =? 12 then String backslash "f"
  else if n =? 13 then String backslash "r"
  else if n =? 34 then String backslash (String dquote "")
  else if n =? 92 then String backslash (String backslash "")
  else if n <? 32 then
    String backslash
      (String "u" (String "0" (String "0"
         (String (hex_digit (n / 16)) (String (hex_digit (n mod 16)) "")))))
  else String c "".

Fixpoint escape_string (s : string) : string :=
  match s with
  | EmptyString => ""
  | String c rest => escape_char c +:+ escape_string rest
  end.

Definition QuoteJSONString (s : string) : string :=
  String dquote (escape_string s +:+ String dquote "").

(** [JSON.stringify]; [None] is the result [undefined]. *)
Fixpoint JSON_stringify (d : jsdata) : option string :=
  match d with
  | JUndefined => None
  | JNull => Some "null"
  | JBool b => Some (if b then "true" else "false")
  | JNum n => Some (pretty n)
  | JStr s => Some (QuoteJSONString s)
  | JArr elems =>
      Some ("[" +:+
            String.concat ","
              (List.map (fun e => match JSON_stringify e with
                                  | Some s => s
                                  | None => "null"
                                  end) elems)
            +:+ "]")
  | JObj props =>
      Some ("{" +:+
            String.concat ","
              (List.flat_map (fun kv => match JSON_stringify (snd kv) with
                                   | Some s => [QuoteJSONString (fst kv) +:+ ":" +:+ s]
                                   | None => []
                                   end) props)
            +:+ "}")
  end.

Definition option_string_eqb (x y : option string) : bool :=
  match x, y with
  | None, None => true
  | Some a, Some b => String.eqb a b
  | _, _ => false
  end.

(** Own-property lookup in an object's property list. *)
Fixpoint lookup_prop (k : string) (props : list (string * jsdata)) : option jsdata :=
  match props with
  | [] => None
  | (k', v) :: rest => if String.eqb k k' then Some v else lookup_prop k rest
  end.

(** The index named by a property key, among the first [n] indices. *)
Fixpoint index_of_key (k : string) (n : nat) : option nat :=
  match n with
  | O => None
  | S m => if String.eqb k (pretty m) then Some m else index_of_key k m
  end.

Fixpoint string_get (s : string) (i : nat) : option ascii :=
  match s, i with
  | EmptyString, _ => None
  | String c _, O => Some c
  | String _ rest, S j => string_get rest j
  end.

(** [Object.prototype.hasOwnProperty.call(o, k)] *)
Definition hasOwnProperty (o : jsdata) (k : string) : completion bool :=
  match o with
  | JUndefined | JNull => Throw TypeError
  | JBool _ | JNum _ => Normal false
  | JStr s =>
      Normal (String.eqb k "length" || bool_decide (is_Some (index_of_key k (String.length s))))
  | JArr elems =>
      Normal (String.eqb k "length" || bool_decide (is_Some (index_of_key k (List.length elems))))
  | JObj props => Normal (bool_decide (is_Some (lookup_prop k props)))
  end.

(** The objects data inherits from. *)
Inductive prototype : Type :=
| Object_prototype
| Array_prototype
| String_prototype
| Number_prototype
| Boolean_prototype.

#[global] Instance prototype_eq_dec : EqDecision prototype.
Proof. solve_decision. Defined.

(** The functions of a prototype, by the property that holds each
    (ECMAScript 2023, as in Node 20). *)
Definition functions_of (p : prototype) : list string :=
  match p with
  | Object_prototype =>
      ["constructor"; "__defineGetter__"; "__defineSetter__"; "hasOwnProperty";
       "__lookupGetter__"; "__lookupSetter__"; "isPrototypeOf";
       "propertyIsEnumerable"; "toString"; "valueOf"; "toLocaleString"]
  | Array_prototype =>
      ["constructor"; "at"; "concat"; "copyWithin"; "fill"; "find"; "findIndex";
       "findLast"; "findLastIndex"; "lastIndexOf"; "pop"; "push"; "reverse";
       "shift"; "unshift"; "slice"; "sort"; "splice"; "includes"; "indexOf";
       "join"; "keys"; "entries"; "values"; "forEach"; "filter"; "flat";
       "flatMap"; "map"; "every"; "some"; "reduce"; "reduceRight";
       "toLocaleString"; "toString"; "toReversed"; "toSorted"; "toSpliced";
       "with"]
  | String_prototype =>
      ["constructor"; "anchor"; "at"; "big"; "blink"; "bold"; "charAt";
       "charCodeAt"; "codePointAt"; "concat"; "endsWith"; "fontcolor";
       "fontsize"; "fixed"; "includes"; "indexOf"; "isWellFormed"; "italics";
       "lastIndexOf"; "link"; "localeCompare"; "match"; "matchAll"; "normalize";
       "padEnd"; "padStart"; "repeat"; "replace"; "replaceAll"; "search";
       "slice"; "small"; "split"; "strike"; "sub"; "substr"; "substring"; "sup";
       "startsWith"; "toString"; "toWellFormed"; "trim"; "trimStart";
       "trimLeft"; "trimEnd"; "trimRight"; "toLocaleLowerCase";
       "toLocaleUpperCase"; "toLowerCase"; "toUpperCase"; "valueOf"]
  | Number_prototype =>
      ["constructor"; "toExponential"; "toFixed"; "toPrecision"; "toString";
       "valueOf"; "toLocaleString"]
  | Boolean_prototype => ["constructor"; "toString"; "valueOf"]
  end.

(** Two properties of [String.prototype] hold the function of another. *)
Definition function_name (p : prototype) (k : string) : string :=
  match p with
  | String_prototype =>
      if String.eqb k "trimLeft" then "trimStart"
      else if String.eqb k "trimRight" then "trimEnd"
      else k
  | _ => k
  end.

(** What a property read yields: data, the function [name] of a
    prototype, or a prototype itself. *)
Inductive property : Type :=
| Data (d : jsdata)
| Builtin (p : prototype) (name : string)
| Proto (p : prototype).

(** The prototype chain of a value that is not [undefined] or [null]. *)
Definition chain (o : jsdata) : list prototype :=
  match o with
  | JUndefined | JNull => []
  | JBool _ => [Boolean_prototype; Object_prototype]
  | JNum _ => [Number_prototype; Object_prototype]
  | JStr _ => [String_prototype; Object_prototype]
  | JArr _ => [Array_prototype; Object_prototype]
  | JObj _ => [Object_prototype]
  end.

(** The own property [k] of a value. *)
Definition own_property (o : jsdata) (k : string) : option jsdata :=
  match o with
  | JUndefined | JNull | JBool _ | JNum _ => None
  | JStr s =>
      if String.eqb k "length" then Some (JNum (Z.of_nat (String.length s)))
      else match index_of_key k (String.length s) with
           | Some i => (fun c => JStr (String c "")) <$> string_get s i
           | None => None
           end
  | JArr elems =>
      if String.eqb k "length" then Some (JNum (Z.of_nat (List.length elems)))
      else match index_of_key k (List.length elems) with
           | Some i => Some (List.nth i elems JUndefined)
           | None => None
           end
  | JObj props => lookup_prop k props
  end.

(** The property [k] found along the chain [ps]: the accessor [__proto__]
    of [Object.prototype] yields the first prototype, any other name the
    function of the first prototype that has it, if any. *)
Definition inherited (ps : list prototype) (k : string) : property :=
  if String.eqb k "__proto__" then
    match ps with
    | p :: _ => Proto p
    | [] => Data JUndefined
    end
  else
    match List.find (fun p => existsb (String.eqb k) (functions_of p)) ps with
    | Some p => Builtin p (function_name p k)
    | None => Data JUndefined
    end.

(** The property read [o[k]]: an own property, or else what the
    prototype chain gives. *)
Definition get (o : jsdata) (k : string) : completion property :=
  match o with
  | JUndefined | JNull => Throw TypeError
  | _ =>
      Normal (match own_property o k with
              | Some v => Data v
              | None => inherited (chain o) k
              end)
  end.

(** The property read [o[k]] where [o] is what a read has yielded.  The
    interceptor does so with [o.env] only, which no prototype has: the
    receiver is data (lemma [get_env_data]), and the other cases are never
    reached. *)
Definition get_of (o : property) (k : string) : completion property :=
  match o with
  | Data d => get d k
  | Builtin _ _ | Proto _ => Normal (Data JUndefined)
  end.

(** [x !== y] is [negb (identical x y)].  A function or a prototype is
    identical to itself only. *)
Definition identical (x y : property) : bool :=
  match x, y with
  | Data a, Data b => strict_equals a b
  | Builtin p k, Builtin q j => bool_decide (p = q) && String.eqb k j
  | Proto p, Proto q => bool_decide (p = q)
  | _, _ => false
  end.

(** [JSON.stringify] of what a read has yielded: a function gives
    [undefined], a prototype the text of an empty value of its kind. *)
Definition JSON_stringify_property (x : property) : option string :=
  match x with
  | Data d => JSON_stringify d
  | Builtin _ _ => None
  | Proto Object_prototype => Some "{}"
  | Proto Array_prototype => Some "[]"
  | Proto String_prototype => Some (QuoteJSONString "")
  | Proto Number_prototype => Some "0"
  | Proto Boolean_prototype => Some "false"
  end.

(** [Object.keys(o)] *)
Definition Object_keys (o : jsdata) : completion (list string) :=
  match o with
  | JUndefined | JNull => Throw TypeError
  | JBool _ | JNum _ => Normal []
  | JStr s => Normal (List.map (fun i : nat => pretty i) (List.seq 0 (String.length s)))
  | JArr elems => Normal (List.map (fun i : nat => pretty i) (List.seq 0 (List.length elems)))
  | JObj props => Normal (List.map fst props)
  end.

(** [Object.keys] of what a read has yielded; the functions and the
    prototypes have no enumerable property of their own. *)
Definition Object_keys_of (o : property) : completion (list string) :=
  match o with
  | Data d => Object_keys d
  | Builtin _ _ | Proto _ => Normal []
  end.

Definition has_flag (c : ascii) (r : RegExp) : bool :=
  bool_decide (is_Some (String.index 0 (String c "") (flags r))).

(** A global or sticky regular expression keeps its position. *)
Definition uses_lastIndex (r : RegExp) : bool :=
  has_flag "g" r || has_flag "y" r.

Definition set_lastIndex (i : nat) (r : RegExp) : RegExp :=
  mkRegExp (source r) (flags r) (re_search r) i.

(** [r.test(s)]: with the [g] or [y] flag the search starts at [lastIndex],
    which is then moved to the end of the match, or back to 0 when there is
    none; without them [lastIndex] is neither read nor written. *)
Definition RegExp_test (r : RegExp) (s : string) : bool * RegExp :=
  if uses_lastIndex r then
    if String.length s <? lastIndex r then (false, set_lastIndex 0 r)
    else match re_search r s (lastIndex r) with
         | Some e => (true, set_lastIndex e r)
         | None => (false, set_lastIndex 0 r)
         end
  else (bool_decide (is_Some (re_search r s 0)), r).

(** ** The objects of the module *)

(** The object [{ command, args, options }] stored by [run]. *)
Record CalledWith : Type := mkCalledWith {
  cw_command : jsdata;
  cw_args : jsdata;
  cw_options : jsdata
}.

(** [this.mocks]; [mock_stdout] and [mock_stderr] are absent (read as
    [undefined]) until they are set.  [mock_child] refers to the
    [ChildProcess] the constructor allocates. *)
Record Mocks : Type := mkMocks {
  mock_exitCode : value;
  mock_signal : value;
  mock_stdout : value;
  mock_stderr : value;
  mock_child : nat
}.

(** The fields of an [Interceptor]; [this_calledWith] and [this_child] are
    absent until [run] assigns them. *)
Record Interceptor : Type := mkInterceptor {
  this_mocks : Mocks;
  this_command : value;
  this_args : value;
  this_options : value;
  this_called : bool;
  this_calledWith : option CalledWith;
  this_child : option nat
}.

(** Library objects are represented by the calls they receive.  A stream
    records its [write] and [end] calls, an emitter its [emit] calls, each
    with the turn of the event loop in which it was made. *)
Inductive stream_call : Type :=
| StreamWrite (chunk : value)
| StreamEnd.

Inductive event : Type :=
| Spawn
| Exit (code signal : value)
| Close (code signal : value).

Record ChildProcess : Type := mkChildProcess {
  child_stdin : option nat;
  child_stdout : option nat;
  child_stderr : option nat;
  child_stdio : list nat;
  child_spawnargs : option jsdata;
  child_exitCode : value;
  child_signalCode : value;
  child_connected : bool;
  child_emitted : list (nat * event)
}.

(** Assignments to one field of a [ChildProcess]. *)
Definition child_with_stdin (x : option nat) (c : ChildProcess) : ChildProcess :=
  mkChildProcess x (child_stdout c) (child_stderr c) (child_stdio c)
    (child_spawnargs c) (child_exitCode c) (child_signalCode c)
    (child_connected c) (child_emitted c).

Definition child_with_stdout (x : option nat) (c : ChildProcess) : ChildProcess :=
  mkChildProcess (child_stdin c) x (child_stderr c) (child_stdio c)
    (child_spawnargs c) (child_exitCode c) (child_signalCode c)
    (child_connected c) (child_emitted c).

Definition child_with_stderr (x : option nat) (c : ChildProcess) : ChildProcess :=
  mkChildProcess (child_stdin c) (child_stdout c) x (child_stdio c)
    (child_spawnargs c) (child_exitCode c) (child_signalCode c)
    (child_connected c) (child_emitted c).

Definition child_with_stdio (x : list nat) (c : ChildProcess) : ChildProcess :=
  mkChildProcess (child_stdin c) (child_stdout c) (child_stderr c) x
    (child_spawnargs c) (child_exitCode c) (child_signalCode c)
    (child_connected c) (child_emitted c).

Definition child_with_spawnargs (x : option jsdata) (c : ChildProcess) : ChildProcess :=
  mkChildProcess (child_stdin c) (child_stdout c) (child_stderr c)
    (child_stdio c) x (child_exitCode c) (child_signalCode c)
    (child_connected c) (child_emitted c).

Definition child_with_exitCode (x : value) (c : ChildProcess) : ChildProcess :=
  mkChildProcess (child_stdin c) (child_stdout c) (child_stderr c)
    (child_stdio c) (child_spawnargs c) x (child_signalCode c)
    (child_connected c) (child_emitted c).

Definition child_with_signalCode (x : value) (c : ChildProcess) : ChildProcess :=
  mkChildProcess (child_stdin c) (child_stdout c) (child_stderr c)
    (child_stdio c) (child_spawnargs c) (child_exitCode c) x
    (child_connected c) (child_emitted c).

Definition child_with_connected (x : bool) (c : ChildProcess) : ChildProcess :=
  mkChildProcess (child_stdin c) (child_stdout c) (child_stderr c)
    (child_stdio c) (child_spawnargs c) (child_exitCode c)
    (child_signalCode c) x (child_emitted c).

Definition child_with_emitted (x : list (nat * event)) (c : ChildProcess) : ChildProcess :=
  mkChildProcess (child_stdin c) (child_stdout c) (child_stderr c)
    (child_stdio c) (child_spawnargs c) (child_exitCode c)
    (child_signalCode c) (child_connected c) x.

Inductive object : Type :=
| OChild (c : ChildProcess)
| OStream (calls : list stream_call).

(** What a function sees through [this] when the interceptor calls it:
    the getters of the [API] object. *)
Record API : Type := mkAPI {
  api_command : value;
  api_args : value;
  api_options : value;
  api_called : bool;
  api_calledWith : option CalledWith
}.

(** The setters of the [API] object, as calls. *)
Inductive facade_call : Type :=
| call_exit (code : value)
| call_signal (signal : value)
| call_stdout (stdout : value)
| call_stderr (stderr : value).

(** A function of the program under test, called with the [API] object as
    [this]: the calls it makes on [this], in order, and how it completes.
    (The getters of [this] do not change while the function runs, since its
    setters touch the mocks only.) *)
Definition callback : Type :=
  API -> list jsdata -> list facade_call * completion value.

(** A call made by the interceptor to a function of the program under test. *)
Record invocation : Type := mkInvocation {
  inv_turn : nat;
  inv_fun : nat;
  inv_this : API;
  inv_args : list jsdata
}.

(** What the event loop holds for this interceptor: the callback handed to
    [process.nextTick], and the rest of that async function once the
    awaited promise is fulfilled. *)
Inductive task : Type :=
| Resolve
| Resume (exitCode signal stdout stderr : value).

(** The interceptor, the objects it has allocated ([heap], addressed by
    position), the number of the current turn of the event loop, the
    callbacks queued, the calls made to user functions and, in
    [unhandled], what the callbacks the interceptor has queued have
    thrown or been rejected with, which nothing handles (one reason for
    each callback that fails; the promises made by a mock are not the
    interceptor's to report). *)
Record World : Type := mkWorld {
  heap : list object;
  self : Interceptor;
  now : nat;
  pending : list task;
  invoked : list invocation;
  unhandled : list jsdata
}.

Definition with_heap (f : list object -> list object) (w : World) : World :=
  mkWorld (f (heap w)) (self w) (now w) (pending w) (invoked w) (unhandled w).

Definition with_self (f : Interceptor -> Interceptor) (w : World) : World :=
  mkWorld (heap w) (f (self w)) (now w) (pending w) (invoked w) (unhandled w).

Definition with_now (f : nat -> nat) (w : World) : World :=
  mkWorld (heap w) (self w) (f (now w)) (pending w) (invoked w) (unhandled w).

Definition with_pending (f : list task -> list task) (w : World) : World :=
  mkWorld (heap w) (self w) (now w) (f (pending w)) (invoked w) (unhandled w).

Definition with_invoked (f : list invocation -> list invocation) (w : World) : World :=
  mkWorld (heap w) (self w) (now w) (pending w) (f (invoked w)) (unhandled w).

Definition with_unhandled (f : list jsdata -> list jsdata) (w : World) : World :=
  mkWorld (heap w) (self w) (now w) (pending w) (invoked w) (f (unhandled w)).

Definition with_mocks (f : Mocks -> Mocks) (i : Interceptor) : Interceptor :=
  mkInterceptor (f (this_mocks i)) (this_command i) (this_args i) (this_options i)
    (this_called i) (this_calledWith i) (this_child i).

Definition with_command (c : value) (i : Interceptor) : Interceptor :=
  mkInterceptor (this_mocks i) c (this_args i) (this_options i)
    (this_called i) (this_calledWith i) (this_child i).

Definition with_called (b : bool) (i : Interceptor) : Interceptor :=
  mkInterceptor (this_mocks i) (this_command i) (this_args i) (this_options i)
    b (this_calledWith i) (this_child i).

Definition with_calledWith (c : CalledWith) (i : Interceptor) : Interceptor :=
  mkInterceptor (this_mocks i) (this_command i) (this_args i) (this_options i)
    (this_called i) (Some c) (this_child i).

Definition with_child (r : nat) (i : Interceptor) : Interceptor :=
  mkInterceptor (this_mocks i) (this_command i) (this_args i) (this_options i)
    (this_called i) (this_calledWith i) (Some r).

(** ** Computations: a state over [World] that may throw *)

Definition M (A : Type) : Type := World -> completion A * World.

#[global] Instance completion_ret : MRet completion := fun A a => Normal a.
#[global] Instance completion_bind : MBind completion := fun A B f c =>
  match c with
  | Normal a => f a
  | Throw e => Throw e
  end.

#[global] Instance M_ret : MRet M := fun A a w => (Normal a, w).
#[global] Instance M_bind : MBind M := fun A B f c w =>
  match c w with
  | (Normal a, w') => f a w'
  | (Throw e, w') => (Throw e, w')
  end.

Definition gets {A : Type} (f : World -> A) : M A := fun w => (Normal (f w), w).
Definition modify (f : World -> World) : M unit := fun w => (Normal tt, f w).
Definition lift {A : Type} (c : completion A) : M A := fun w => (c, w).
Definition throw {A : Type} (e : jsdata) : M A := fun w => (Throw e, w).

(** The result and the final state of a computation. *)
Definition result {A : Type} (r : completion A * World) : completion A := fst r.
Definition after {A : Type} (r : completion A * World) : World := snd r.

(** ** [compareOptions] *)

Definition serializable : list string :=
  ["cwd"; "argv0"; "detached"; "uid"; "gid"; "serialization";
   "shell"; "windowsVerbatimArguments"; "windowsHide"; "stdio"].

(** The first loop; [true] when it ends without [return false]. *)
Fixpoint compare_serializable (attrs : list string) (defined called : jsdata)
  : completion bool :=
  match attrs with
  | [] => mret true
  | attr :: rest =>
      own ← hasOwnProperty defined attr;
      differs ← (if (own : bool) then
                   d ← get defined attr;
                   c ← get called attr;
                   mret (negb (option_string_eqb (JSON_stringify_property d)
                                                 (JSON_stringify_property c)))
                 else mret false);
      if (differs : bool) then mret false
      else compare_serializable rest defined called
  end.

(** The loop over [envKeys]; [true] when it ends without [return false]. *)
Fixpoint compare_env (envKeys : list string) (defined called : jsdata)
  : completion bool :=
  match envKeys with
  | [] => mret true
  | envKey :: rest =>
      defined_env ← get defined "env";
      d ← get_of defined_env envKey;
      called_env ← get called "env";
      c ← get_of called_env envKey;
      if negb (identical d c) then mret false
      else compare_env rest defined called
  end.

Definition compareOptions (defined called : jsdata) : completion bool :=
  same ← compare_serializable serializable defined called;
  if negb same then mret false else
  own ← hasOwnProperty defined "env";
  if (own : bool) then
    called_own ← hasOwnProperty called "env";
    if negb called_own then mret false else
    defined_env ← get defined "env";
    envKeys ← Object_keys_of defined_env;
    same_env ← compare_env envKeys defined called;
    if negb same_env then mret false else mret true
  else mret true.

(** ** The classes [API] and [Interceptor] *)

Section Classes.

(** The functions of the program under test, by index. *)
Variable fn : nat -> callback.

(** *** Setters of [Interceptor] *)

Definition set_exitCode (code : value) : M unit :=
  modify (with_self (with_mocks (fun m =>
    mkMocks code (mock_signal m) (mock_stdout m) (mock_stderr m) (mock_child m)))).

Definition set_signal (signal : value) : M unit :=
  modify (with_self (with_mocks (fun m =>
    mkMocks (mock_exitCode m) signal (mock_stdout m) (mock_stderr m) (mock_child m)))).

Definition set_stdout (stdout : value) : M unit :=
  modify (with_self (with_mocks (fun m =>
    mkMocks (mock_exitCode m) (mock_signal m) stdout (mock_stderr m) (mock_child m)))).

Definition set_stderr (stderr : value) : M unit :=
  modify (with_self (with_mocks (fun m =>
    mkMocks (mock_exitCode m) (mock_signal m) (mock_stdout m) stderr (mock_child m)))).

(** *** class API

    The getters read the interceptor; [description] and [toString] render
    text with [util.inspect] and are left out. *)

Definition API_command (i : Interceptor) : value := this_command i.
Definition API_args (i : Interceptor) : value := this_args i.
Definition API_options (i : Interceptor) : value := this_options i.
Definition API_called (i : Interceptor) : bool := this_called i.

(** [undefined] is [None]. *)
Definition API_calledWith (i : Interceptor) : option CalledWith :=
  if API_called i then this_calledWith i else None.

Definition API_exit (code : value) : M unit := set_exitCode code.
Definition API_signal (signal : value) : M unit := set_signal signal.
Definition API_stdout (stdout : value) : M unit := set_stdout stdout.
Definition API_stderr (stderr : value) : M unit := set_stderr stderr.

(** [this.api], as a function sees it. *)
Definition api (i : Interceptor) : API :=
  mkAPI (API_command i) (API_args i) (API_options i) (API_called i) (API_calledWith i).

Definition perform (c : facade_call) : M unit :=
  match c with
  | call_exit code => API_exit code
  | call_signal signal => API_signal signal
  | call_stdout stdout => API_stdout stdout
  | call_stderr stderr => API_stderr stderr
  end.

Fixpoint perform_all (cs : list facade_call) : M unit :=
  match cs with
  | [] => mret tt
  | c :: rest => perform c;; perform_all rest
  end.

(** [f.call(this.api, ...args)] *)
Definition call (f : nat) (args : list jsdata) : M value := fun w =>
  let this := api (self w) in
  let w1 := with_invoked (fun l => l ++ [mkInvocation (now w) f this args]) w in
  let (calls, outcome) := fn f this args in
  (outcome, after (perform_all calls w1)).

(** *** Getters of [Interceptor] *)

Definition get_exitCode : M value :=
  exitCode ← gets (fun w => mock_exitCode (this_mocks (self w)));
  match exitCode with
  | VFun f => call f []
  | _ => mret exitCode
  end.

Definition get_signal : M value :=
  signal ← gets (fun w => mock_signal (this_mocks (self w)));
  match signal with
  | VFun f => call f []
  | _ => mret signal
  end.

Definition get_stdout : M value :=
  stdout ← gets (fun w => mock_stdout (this_mocks (self w)));
  match stdout with
  | VFun f => call f []
  | _ => mret stdout
  end.

Definition get_stderr : M value :=
  stderr ← gets (fun w => mock_stderr (this_mocks (self w)));
  match stderr with
  | VFun f => call f []
  | _ => mret stderr
  end.

(** *** [Interceptor.match]

    Each of the three blocks of the method is a computation whose result
    [false] stands for its [return false]. *)

Definition match_command (command args options : jsdata) : M bool :=
  this_command ← gets (fun w => this_command (self w));
  match this_command with
  | VFun f =>
      r ← call f [command; args; options];
      mret (truthy r)
  | VRegExp re =>
      let (found, re') := RegExp_test re (ToString command) in
      modify (with_self (with_command (VRegExp re')));;
      mret found
  | VData d => mret (strict_equals command d)
  | VPromise _ => mret false
  end.

Definition match_args (args : jsdata) : M bool :=
  this_args ← gets (fun w => this_args (self w));
  match this_args with
  | VFun f =>
      r ← call f [args];
      mret (truthy r)
  | _ =>
      if truthy this_args then
        mine ← lift (toString_value this_args);
        theirs ← lift (toString args);
        mret (String.eqb mine theirs)
      else mret true
  end.

(** A [RegExp] or a promise given as the options has none of the keys
    [compareOptions] looks at, which then returns [true]. *)
Definition match_options (options : jsdata) : M bool :=
  this_options ← gets (fun w => this_options (self w));
  match this_options with
  | VFun f =>
      r ← call f [options];
      mret (truthy r)
  | VData d =>
      if truthy_data d then lift (compareOptions d options) else mret true
  | VRegExp _ | VPromise _ => mret true
  end.

(** The default parameters [args = []] and [options = {}]. *)
Definition default_args (args : jsdata) : jsdata :=
  match args with JUndefined => JArr [] | _ => args end.

Definition default_options (options : jsdata) : jsdata :=
  match options with JUndefined => JObj [] | _ => options end.

Definition match_ (command args options : jsdata) : M bool :=
  let args := default_args args in
  let options := default_options options in
  called ← gets (fun w => this_called (self w));
  if (called : bool) then mret false (* For now we can only be called once *)
  else
    command_ok ← match_command command args options;
    if negb command_ok then mret false else
    args_ok ← match_args args;
    if negb args_ok then mret false else
    options_ok ← match_options options;
    if negb options_ok then mret false else
    mret true.

(** *** Library objects *)

(** [new cp.ChildProcess()]: no streams yet, nothing emitted. *)
Definition fresh_ChildProcess : ChildProcess :=
  mkChildProcess None None None [] None JNull JNull false [].

Definition allocate (o : object) : M nat := fun w =>
  (Normal (length (heap w)), with_heap (fun h => h ++ [o]) w).

Definition new_ChildProcess : M nat := allocate (OChild fresh_ChildProcess).

(** [new stream.PassThrough({ autoDestroy: true })] *)
Definition new_PassThrough : M nat := allocate (OStream []).

(** [this.child], an object that must be there to be used. *)
Definition the_child : M (nat * ChildProcess) := fun w =>
  match this_child (self w) with
  | Some r =>
      match heap w !! r with
      | Some (OChild c) => (Normal (r, c), w)
      | _ => (Throw TypeError, w)
      end
  | None => (Throw TypeError, w)
  end.

(** An assignment [this.child.field = ...]. *)
Definition assign_child (f : ChildProcess -> ChildProcess) : M unit :=
  rc ← the_child;
  modify (with_heap (fun h => <[fst rc := OChild (f (snd rc))]> h)).

(** [this.child.emit(e)] *)
Definition emit (e : event) : M unit :=
  t ← gets now;
  assign_child (fun c => child_with_emitted (child_emitted c ++ [(t, e)]) c).

(** The errors of [stream.write], both of them [TypeError]s. *)
Definition ERR_STREAM_NULL_VALUES : jsdata :=
  JObj [("name", JStr "TypeError"); ("code", JStr "ERR_STREAM_NULL_VALUES")].

Definition ERR_INVALID_ARG_TYPE : jsdata :=
  JObj [("name", JStr "TypeError"); ("code", JStr "ERR_INVALID_ARG_TYPE")].

(** What a [PassThrough] stream, which is not in object mode, makes of a
    call: [write(chunk)] takes a string (or a Buffer or Uint8Array, of
    which there is none among the values) and throws for any other chunk;
    [end()] is given no chunk. *)
Definition accept (c : stream_call) : completion unit :=
  match c with
  | StreamWrite (VData (JStr _)) => Normal tt
  | StreamWrite (VData JNull) => Throw ERR_STREAM_NULL_VALUES
  | StreamWrite _ => Throw ERR_INVALID_ARG_TYPE
  | StreamEnd => Normal tt
  end.

(** A method call on the stream [this.child.stdout] or [this.child.stderr]. *)
Definition on_stream (field : ChildProcess -> option nat) (c : stream_call) : M unit :=
  rc ← the_child;
  match field (snd rc) with
  | Some s =>
      h ← gets heap;
      match h !! s with
      | Some (OStream calls) =>
          lift (accept c);;
          modify (with_heap (fun h => <[s := OStream (calls ++ [c])]> h))
      | _ => throw TypeError
      end
  | None => throw TypeError
  end.

(** [process.nextTick(callback)], and the continuation of an [await]. *)
Definition enqueue (t : task) : M unit :=
  modify (with_pending (fun q => q ++ [t])).

(** *** [Interceptor.constructor] *)

Definition new_Interceptor (command args options : value) : World :=
  mkWorld
    [OChild fresh_ChildProcess]
    (mkInterceptor
       (mkMocks (JNum 0) JNull JUndefined JUndefined 0)
       command args options false None None)
    0 [] [] [].

(** *** [Interceptor.run] *)

Definition run (command args options : jsdata) : M nat :=
  modify (with_self (with_called true));;
  modify (with_self (with_calledWith (mkCalledWith command args options)));;

  child ← new_ChildProcess;
  modify (with_self (with_child child));;
  stdin ← new_PassThrough;
  assign_child (child_with_stdin (Some stdin));;
  stdout ← new_PassThrough;
  assign_child (child_with_stdout (Some stdout));;
  stderr ← new_PassThrough;
  assign_child (child_with_stderr (Some stderr));;
  assign_child (fun c =>
    child_with_stdio (omap id [child_stdin c; child_stdout c; child_stderr c]) c);;
  assign_child (child_with_spawnargs (Some args));;
  emit Spawn;;
  enqueue Resolve;;
  rc ← the_child;
  mret (fst rc).

(** What [await] makes of a value. *)
Inductive awaited : Type :=
| Fulfilled (v : value)
| Rejected (reason : jsdata)
| Pending.

Definition await (v : value) : awaited :=
  match v with
  | VPromise (Fulfils d) => Fulfilled (VData d)
  | VPromise (Rejects e) => Rejected e
  | VPromise Pends => Pending
  | _ => Fulfilled v
  end.

(** The callback given to [process.nextTick], up to its [await]: the four
    getters are read in order; when [Promise.all] is fulfilled the rest of
    the function is queued, when it is rejected the async function fails
    (with the leftmost rejection), otherwise it never resumes. *)
Definition resolve : M unit :=
  exitCode ← get_exitCode;
  signal ← get_signal;
  stdout ← get_stdout;
  stderr ← get_stderr;
  match await exitCode, await signal, await stdout, await stderr with
  | Fulfilled e, Fulfilled s, Fulfilled o, Fulfilled r => enqueue (Resume e s o r)
  | Rejected x, _, _, _ => throw x
  | _, Rejected x, _, _ => throw x
  | _, _, Rejected x, _ => throw x
  | _, _, _, Rejected x => throw x
  | _, _, _, _ => mret tt
  end.

(** The rest of that callback, after the [await]. *)
Definition resume (exitCode signal stdout stderr : value) : M unit :=
  assign_child (child_with_exitCode exitCode);;
  assign_child (child_with_signalCode signal);;
  assign_child (child_with_connected false);;
  (if truthy stdout then on_stream child_stdout (StreamWrite stdout) else mret tt);;
  on_stream child_stdout StreamEnd;;
  (if truthy stderr then on_stream child_stderr (StreamWrite stderr) else mret tt);;
  on_stream child_stderr StreamEnd;;
  emit (Exit exitCode signal);;
  emit (Close exitCode signal).

(** ** The event loop *)

Definition run_task (t : task) : M unit :=
  match t with
  | Resolve => resolve
  | Resume exitCode signal stdout stderr => resume exitCode signal stdout stderr
  end.

(** A new turn that runs the oldest queued callback; what it throws is
    caught by nobody. *)
Definition tick (w : World) : World :=
  match pending w with
  | [] => w
  | t :: rest =>
      let w1 := with_now S (with_pending (fun _ => rest) w) in
      match run_task t w1 with
      | (Normal _, w2) => w2
      | (Throw e, w2) => with_unhandled (fun l => l ++ [e]) w2
      end
  end.

(** What can happen to an interceptor. *)
Inductive action : Type :=
| Configure (c : facade_call)
| Probe (command args options : jsdata)
| Invoke (command args options : jsdata)
| Tick
| Turn.

Definition step (a : action) (w : World) : World :=
  match a with
  | Configure c => after (perform c w)
  | Probe command args options => after (match_ command args options w)
  | Invoke command args options => after (run command args options w)
  | Tick => tick w
  | Turn => with_now S w
  end.

Definition steps (acts : list action) (w : World) : World :=
  fold_left (fun w a => step a w) acts w.

(** The worlds an interceptor goes through when [run] is called as its
    contract requires: on an interceptor that has not been called (a
    successful [match] comes first). *)
Inductive reachable : World -> Prop :=
| reach_new command args options :
    reachable (new_Interceptor command args options)
| reach_configure w c :
    reachable w -> reachable (step (Configure c) w)
| reach_probe w command args options :
    reachable w -> reachable (step (Probe command args options) w)
| reach_invoke w command args options :
    reachable w ->
    this_called (self w) = false ->
    reachable (step (Invoke command args options) w)
| reach_tick w :
    reachable w -> reachable (step Tick w)
| reach_turn w :
    reachable w -> reachable (step Turn w).

End Classes.

(** ** Observations and predicates used in the statements *)

(** The action that is a call of [run]. *)
Definition is_invoke (a : action) : bool :=
  match a with
  | Invoke _ _ _ => true
  | _ => false
  end.

Definition child_at (h : nat) (w : World) : option ChildProcess :=
  match heap w !! h with
  | Some (OChild c) => Some c
  | _ => None
  end.

Definition stream_at (s : nat) (w : World) : option (list stream_call) :=
  match heap w !! s with
  | Some (OStream calls) => Some calls
  | _ => None
  end.

(** The events a handle has emitted so far. *)
Definition emitted_by (h : nat) (w : World) : list (nat * event) :=
  match child_at h w with
  | Some c => child_emitted c
  | None => []
  end.

(** The calls received by the output (or error) stream of a handle. *)
Definition stream_of (field : ChildProcess -> option nat) (h : nat) (w : World)
  : option (list stream_call) :=
  match child_at h w with
  | Some c => match field c with
              | Some s => stream_at s w
              | None => None
              end
  | None => None
  end.

(** Everything of a world that neither a setter nor [match] writes: the
    objects allocated, the event loop, and of the interceptor the fields
    [called], [calledWith], [child], [args] and [options]. *)
Definition frame (w w' : World) : Prop :=
  heap w' = heap w /\ now w' = now w /\ pending w' = pending w /\
  unhandled w' = unhandled w /\
  this_called (self w') = this_called (self w) /\
  this_calledWith (self w') = this_calledWith (self w) /\
  this_child (self w') = this_child (self w) /\
  this_args (self w') = this_args (self w) /\
  this_options (self w') = this_options (self w).

(** The same spec, but for the [lastIndex] of a regular expression. *)
Definition same_spec (v v' : value) : Prop :=
  v' = v \/ exists re i, v = VRegExp re /\ v' = VRegExp (set_lastIndex i re).

(** The life of a handle, as the list of what it emitted up to turn [n]. *)
Definition lifecycle (n : nat) (log : list (nat * event)) : Prop :=
  log = [] \/
  (exists t, log = [(t, Spawn)] /\ t <= n) \/
  (exists t t' code signal,
      log = [(t, Spawn); (t', Exit code signal); (t', Close code signal)] /\
      t < t' /\ t' <= n).

(** The exits of a handle spawned in turn [t], up to turn [n]: [exit] and
    [close] come in pairs, one after the other in one turn later than [t],
    with the same code and signal. *)
Inductive exits (t n : nat) : list (nat * event) -> Prop :=
| exits_none : exits t n []
| exits_more log t' code signal :
    exits t n log -> t < t' -> t' <= n ->
    exits t n (log ++ [(t', Exit code signal); (t', Close code signal)]).

(** What a handle may have emitted up to turn [n], whatever was done to
    its interceptor. *)
Definition history (n : nat) (log : list (nat * event)) : Prop :=
  log = [] \/
  exists t rest, log = (t, Spawn) :: rest /\ t <= n /\ exits t n rest.

(** Every handle has a history, and [this.child] has been spawned. *)
Definition tidy (n : nat) (w : World) : Prop :=
  (forall h c, heap w !! h = Some (OChild c) -> history n (child_emitted c)) /\
  (forall h c, this_child (self w) = Some h -> heap w !! h = Some (OChild c) ->
               child_emitted c <> []).

(** The worlds of a turn later than [n] whose handles have emitted nothing
    after [n]. *)
Definition early (n : nat) (w : World) : Prop := tidy n w /\ n < now w.

(** A mock as the getters of [Interceptor] read it: a function is called
    with the facade as [this], anything else is the value itself. *)
Definition mock_outcome (fn : nat -> callback) (m : value) (this : API)
  : completion value :=
  match m with
  | VFun f => snd (fn f this [])
  | _ => Normal m
  end.

Definition mock_calls (fn : nat -> callback) (m : value) (this : API)
  : list facade_call :=
  match m with
  | VFun f => fst (fn f this [])
  | _ => []
  end.

Definition mock_invocation (t : nat) (m : value) (this : API) : list invocation :=
  match m with
  | VFun f => [mkInvocation t f this []]
  | _ => []
  end.

(** The value a call gives to a mock, if it is a call of that mock's
    setter. *)
Definition exit_of (c : facade_call) : option value :=
  match c with call_exit v => Some v | _ => None end.

Definition signal_of (c : facade_call) : option value :=
  match c with call_signal v => Some v | _ => None end.

Definition stdout_of (c : facade_call) : option value :=
  match c with call_stdout v => Some v | _ => None end.

Definition stderr_of (c : facade_call) : option value :=
  match c with call_stderr v => Some v | _ => None end.

(** The value of a mock after the calls [cs]: that of the last call of its
    setter, or the one it had. *)
Definition latest (pick : facade_call -> option value) (cs : list facade_call)
           (v : value) : value :=
  fold_left (fun v c => match pick c with Some x => x | None => v end) cs v.

Definition configured (cs : list facade_call) (m : Mocks) : Mocks :=
  mkMocks (latest exit_of cs (mock_exitCode m)) (latest signal_of cs (mock_signal m))
    (latest stdout_of cs (mock_stdout m)) (latest stderr_of cs (mock_stderr m))
    (mock_child m).

(** The mocks once the resolution has read [field]: a function read there
    may have called setters, with the facade [this]. *)
Definition after_reading (fn : nat -> callback) (field : Mocks -> value) (this : API)
           (m : Mocks) : Mocks :=
  configured (mock_calls fn (field m) this) m.

(** Only the objects of the heap differ. *)
Definition heap_only (w w' : World) : Prop :=
  self w' = self w /\ now w' = now w /\ pending w' = pending w /\
  invoked w' = invoked w /\ unhandled w' = unhandled w.

(** A computation that relates every world to the one it leaves. *)
Definition keeps {A : Type} (P : World -> World -> Prop) (m : M A) : Prop :=
  forall w, P w (after (m w)).

(** [Q] holds after [m] has run from a world where [P] holds, whether [m]
    returns or throws. *)
Definition hoare {A : Type} (P Q : World -> Prop) (m : M A) : Prop :=
  forall w, P w -> Q (after (m w)).

(** Two states of the interceptor that differ in the mocks at most. *)
Definition same_but_mocks (i i' : Interceptor) : Prop :=
  this_command i' = this_command i /\ this_args i' = this_args i /\
  this_options i' = this_options i /\ this_called i' = this_called i /\
  this_calledWith i' = this_calledWith i /\ this_child i' = this_child i.

(** What reading the mocks leaves alone. *)
Definition reads_only (w w' : World) : Prop :=
  same_but_mocks (self w) (self w') /\ heap w' = heap w /\ now w' = now w.

(** ** Programs used in the examples *)

(** A regular expression for the text [p] itself (no special character);
    with the [y] flag it matches at the given index only. *)
Definition text_RegExp (p flags : string) : RegExp :=
  mkRegExp p flags
    (fun s i =>
       if bool_decide (is_Some (String.index 0 "y" flags)) then
         if String.prefix p (String.substring i (String.length s - i) s)
         then Some (i + String.length p) else None
       else (fun k => k + String.length p) <$> String.index i p s) 0.

(** Four functions a test may register:
    - 0 is [() => 1];
    - 1 is [function () { return this.calledWith.args.join(',') }];
    - 2 is [function () { this.exit(7); return true }];
    - 3 is [() => { throw new Error() }]. *)
Definition example_functions : nat -> callback := fun f this args =>
  match f with
  | 0 => ([], Normal (VData (JNum 1)))
  | 1 => match api_calledWith this with
         | Some cw =>
             match cw_args cw with
             | JArr elems => ([], Normal (VData (JStr (ToString (JArr elems)))))
             | _ => ([], Throw TypeError)
             end
         | None => ([], Throw TypeError)
         end
  | 2 => ([call_exit (VData (JNum 7))], Normal (VData (JBool true)))
  | 3 => ([], Throw (JObj [("name", JStr "Error")]))
  | _ => ([], Normal (VData JUndefined))
  end.

(** The property read [o[k]] on the property list of an object. *)
Definition prop (k : string) (o : list (string * jsdata)) : jsdata :=
  match lookup_prop k o with
  | Some v => v
  | None => JUndefined
  end.

(** The [env] of an options object, when there is one, is an object. *)
Definition env_is_mapping (o : list (string * jsdata)) : Prop :=
  forall v, lookup_prop "env" o = Some v -> exists e, v = JObj e.

(** The property read [o[k]] on an object with the property list [o],
    inherited properties included. *)
Definition read (k : string) (o : list (string * jsdata)) : property :=
  match lookup_prop k o with
  | Some v => Data v
  | None => inherited [Object_prototype] k
  end.

(** The names an object inherits a property under. *)
Definition inherits (k : string) : bool :=
  String.eqb k "__proto__" || existsb (String.eqb k) (functions_of Object_prototype).

(** The test the first loop of [compareOptions] makes on one key. *)
Definition agrees_on (d c : list (string * jsdata)) (attr : string) : bool :=
  match lookup_prop attr d with
  | Some v => option_string_eqb (JSON_stringify v) (JSON_stringify (prop attr c))
  | None => true
  end.

(** A string without a comma. *)
Fixpoint comma_free (s : string) : bool :=
  match s with
  | EmptyString => true
  | String c rest => negb (Ascii.eqb c ",") && comma_free rest
  end.

(** An array of strings. *)
Definition strings (l : list string) : jsdata := JArr (List.map JStr l).

(** ** The life of an interceptor

    An interceptor used as its contract requires allocates, besides the
    [ChildProcess] of its constructor (at address 0), one handle (at 1) and
    its three streams (at 2, 3 and 4). *)

Definition handle : nat := 1.

(** The handle [run] builds; the resolution writes the exit code, the
    signal code and the log of events. *)
Definition spawned_child (args : jsdata) (exitCode signalCode : value)
           (log : list (nat * event)) : ChildProcess :=
  mkChildProcess (Some 2) (Some 3) (Some 4) [2; 3; 4] (Some args)
    exitCode signalCode false log.

(** The calls a stream receives in the resolution. *)
Definition written (v : value) : list stream_call :=
  (if truthy v then [StreamWrite v] else []) ++ [StreamEnd].

Definition is_string (v : value) : bool :=
  match v with VData (JStr _) => true | _ => false end.

(** A value the resolution can give to a stream: it is falsy, and not
    written, or it is a string. *)
Definition writable (v : value) : bool := negb (truthy v) || is_string v.

(** What [write] throws when given [v]. *)
Definition write_error (v : value) : jsdata :=
  match accept (StreamWrite v) with
  | Throw e => e
  | Normal _ => JUndefined
  end.

(** The stages of an interceptor: [Stalled] when the turn of the
    resolution has queued nothing, [Failed] when a write has thrown: the
    one to [stdout], or the one to [stderr] after [stdout] was given
    [out]. *)
Inductive stage : Type :=
| Registered
| Spawned (t : nat)
| Awaited (t : nat) (exitCode signal stdout stderr : value)
| Stalled (t : nat)
| Exited (t t' : nat) (exitCode signal stdout stderr : value)
| Failed (t : nat) (exitCode signal : value) (out : option value).

(** The stage the rest of the resolution leads to, in turn [n], with the
    values it was queued with. *)
Definition settled (t n : nat) (e s o r : value) : stage :=
  if writable o then
    if writable r then Exited t n e s o r else Failed t e s (Some o)
  else Failed t e s None.

(** What it throws on the way, which nothing catches. *)
Definition failure (o r : value) : list jsdata :=
  if writable o then
    if writable r then [] else [write_error r]
  else [write_error o].

(** The heap of a called interceptor, stage by stage. *)
Definition heap_at (st : stage) (args : jsdata) : list object :=
  match st with
  | Registered => [OChild fresh_ChildProcess]
  | Spawned t | Awaited t _ _ _ _ | Stalled t =>
      [OChild fresh_ChildProcess;
       OChild (spawned_child args JNull JNull [(t, Spawn)]);
       OStream []; OStream []; OStream []]
  | Exited t t' e s o r =>
      [OChild fresh_ChildProcess;
       OChild (spawned_child args e s
                 [(t, Spawn); (t', Exit e s); (t', Close e s)]);
       OStream []; OStream (written o); OStream (written r)]
  | Failed t e s out =>
      [OChild fresh_ChildProcess;
       OChild (spawned_child args e s [(t, Spawn)]);
       OStream []; OStream (match out with Some o => written o | None => [] end);
       OStream []]
  end.

Definition pending_at (st : stage) : list task :=
  match st with
  | Spawned _ => [Resolve]
  | Awaited _ e s o r => [Resume e s o r]
  | Registered | Stalled _ | Exited _ _ _ _ _ _ | Failed _ _ _ _ => []
  end.

(** The turns of a stage, against the current one. *)
Definition timely (st : stage) (n : nat) : Prop :=
  match st with
  | Registered => True
  | Spawned t => t <= n
  | Awaited t _ _ _ _ | Stalled t | Failed t _ _ _ => t < n
  | Exited t t' _ _ _ _ => t < t' /\ t' <= n
  end.

Definition in_stage (st : stage) (w : World) : Prop :=
  pending w = pending_at st /\ timely st (now w) /\
  match st with
  | Registered =>
      this_called (self w) = false /\ this_calledWith (self w) = None /\
      this_child (self w) = None /\ heap w = heap_at st JUndefined
  | _ =>
      this_called (self w) = true /\ this_child (self w) = Some handle /\
      exists cw, this_calledWith (self w) = Some cw /\
                 heap w = heap_at st (cw_args cw)
  end.

(** What reading a mock yields and what it may change. *)
Definition getter_spec (fn : nat -> callback) (field : Mocks -> value)
           (getter : M value) : Prop :=
  forall w,
    let m := field (this_mocks (self w)) in
    let this := api (self w) in
    result (getter w) = mock_outcome fn m this /\
    frame w (after (getter w)) /\
    this_command (self (after (getter w))) = this_command (self w) /\
    invoked (after (getter w)) = invoked w ++ mock_invocation (now w) m this /\
    (mock_calls fn m this = [] -> self (after (getter w)) = self w).

(** Reading a mock, whatever it is: what it yields, the call made when it
    is a function, and the mocks as that function leaves them. *)
Definition reads (fn : nat -> callback) (field : Mocks -> value) (getter : M value)
  : Prop :=
  forall w,
    let m := this_mocks (self w) in
    let this := api (self w) in
    getter w =
      (mock_outcome fn (field m) this,
       with_self (with_mocks (fun _ => after_reading fn field this m))
         (with_invoked (fun l => l ++ mock_invocation (now w) (field m) this) w)).

(** ** Reading JSON text back *)

(** Reading back one escaped character. *)
Definition unhex (c : ascii) : option nat :=
  let n := nat_of_ascii c in
  if (48 <=? n) && (n <=? 57) then Some (n - 48)
  else if (97 <=? n) && (n <=? 102) then Some (n - 87)
  else None.

Definition unescape_head (s : string) : option (ascii * string) :=
  match s with
  | String c rest =>
      if Ascii.eqb c backslash then
        match rest with
        | String x rest' =>
            if Ascii.eqb x "b" then Some (ascii_of_nat 8, rest')
            else if Ascii.eqb x "t" then Some (ascii_of_nat 9, rest')
            else if Ascii.eqb x "n" then Some (ascii_of_nat 10, rest')
            else if Ascii.eqb x "f" then Some (ascii_of_nat 12, rest')
            else if Ascii.eqb x "r" then Some (ascii_of_nat 13, rest')
            else if Ascii.eqb x dquote then Some (dquote, rest')
            else if Ascii.eqb x backslash then Some (backslash, rest')
            else
              match rest' with
              | String _ (String _ (String h1 (String h2 rest''))) =>
                  match unhex h1, unhex h2 with
                  | Some a, Some b => Some (ascii_of_nat (16 * a + b), rest'')
                  | _, _ => None
                  end
              | _ => None
              end
        | EmptyString => None
        end
      else Some (c, rest)
  | EmptyString => None
  end.

(** Data without [undefined] inside. *)
Fixpoint defined_data (d : jsdata) : bool :=
  match d with
  | JUndefined => false
  | JNull | JBool _ | JNum _ | JStr _ => true
  | JArr elems => forallb defined_data elems
  | JObj props => forallb (fun kv => defined_data (snd kv)) props
  end.

(** Data without [undefined] inside whose numbers are integers that a
    double holds exactly. *)
Fixpoint exact_data (d : jsdata) : bool :=
  match d with
  | JUndefined => false
  | JNull | JBool _ | JStr _ => true
  | JNum n => (Z.abs n <=? 2 ^ 53)%Z
  | JArr elems => forallb exact_data elems
  | JObj props => forallb (fun kv => exact_data (snd kv)) props
  end.

(** The text [JSON.stringify] gives, [undefined] written as [null]. *)
Definition JSON_text (d : jsdata) : string :=
  match JSON_stringify d with
  | Some s => s
  | None => "null"
  end.

(** What follows the first element of an array, up to the bracket. *)
Fixpoint elements_tail (elems : list jsdata) (rest : string) : string :=
  match elems with
  | [] => String "]" rest
  | e :: more => String "," (JSON_text e +:+ elements_tail more rest)
  end.

Fixpoint properties_tail (props : list (string * jsdata)) (rest : string) : string :=
  match props with
  | [] => String "}" rest
  | (k, v) :: more =>
      String "," (QuoteJSONString k +:+ String ":" (JSON_text v +:+ properties_tail more rest))
  end.

(** A character that can begin or continue a number. *)
Definition numeric_char (c : ascii) : bool :=
  Ascii.eqb c "-" || ((48 <=? nat_of_ascii c) && (nat_of_ascii c <=? 57)).

(** A rest that cannot continue a number. *)
Definition closes (rest : string) : bool :=
  match rest with
  | EmptyString => true
  | String c _ => negb (numeric_char c)
  end.

(** The kind of value a text begins, read off its first character. *)
Definition kind_of_head (s : string) : nat :=
  match s with
  | EmptyString => 0
  | String c _ =>
      if numeric_char c then 1
      else if Ascii.eqb c dquote then 2
      else if Ascii.eqb c "[" then 3
      else if Ascii.eqb c "{" then 4
      else if Ascii.eqb c "t" then 5
      else if Ascii.eqb c "f" then 6
      else if Ascii.eqb c "n" then 7
      else 0
  end.

Definition kind (d : jsdata) : nat :=
  match d with
  | JUndefined | JNull => 7
  | JBool true => 5
  | JBool false => 6
  | JNum _ => 1
  | JStr _ => 2
  | JArr _ => 3
  | JObj _ => 4
  end.

Fixpoint all_numeric (s : string) : bool :=
  match s with
  | EmptyString => true
  | String c rest => numeric_char c && all_numeric rest
  end.

(** The statement proved by induction on the data. *)
Definition text_determines (x : jsdata) : Prop :=
  defined_data x = true ->
  forall y r1 r2,
    defined_data y = true -> closes r1 = true -> closes r2 = true ->
    JSON_text x +:+ r1 = JSON_text y +:+ r2 -> x = y /\ r1 = r2.

(** ** [API.description] and the [toString] methods *)

Section Description.

(** The source text of a function of the program, and [util.inspect]. *)
Variable function_text : nat -> string.
Variable inspect : value -> string.

(** ToString, as a template literal applies it to a value. *)
Definition ToString_value (v : value) : string :=
  match v with
  | VData d => ToString d
  | VFun f => function_text f
  | VRegExp r => "/" +:+ source r +:+ "/" +:+ flags r
  | VPromise _ => "[object Promise]"
  end.

Definition API_description (i : Interceptor) : string :=
  let description :=
    "called spawk interceptor for command: '" +:+ ToString_value (API_command i) +:+ "'" in
  let description :=
    if negb (API_called i) then "un" +:+ description else description in
  let description :=
    if truthy (API_args i) then description +:+ ", args: " +:+ inspect (API_args i)
    else description in
  let description :=
    if truthy (API_options i)
    then description +:+ ", options: " +:+ inspect (API_options i)
    else description in
  description.

Definition API_toString (i : Interceptor) : string := API_description i.

Definition Interceptor_toString (i : Interceptor) : string := API_description i.

End Description.

(** ** Further predicates used in the statements *)


(** The objects, [this.child] and [this.mocks.child] are as they were. *)
Definition kept (w w' : World) : Prop :=
  heap w' = heap w /\ this_child (self w') = this_child (self w) /\
  mock_child (this_mocks (self w')) = mock_child (this_mocks (self w)).

(** A value that is not an object: [===] compares it by content. *)
Definition primitive (d : jsdata) : bool :=
  match d with
  | JArr _ | JObj _ => false
  | _ => true
  end.

(** The [env] of an options object, when there is one, is an object whose
    values are primitive. *)
Definition env_of_primitives (o : list (string * jsdata)) : Prop :=
  forall v, lookup_prop "env" o = Some v ->
            exists e, v = JObj e /\ forallb (fun kv => primitive (snd kv)) e = true.

(** An object has one of the keys [attrs]. *)
Definition has_any (attrs : list string) (o : list (string * jsdata)) : bool :=
  existsb (fun k => bool_decide (is_Some (lookup_prop k o))) attrs.

(** A handle that [this.child] does not, or no longer, refer to. *)
Definition superseded (h : nat) (c : ChildProcess) (w : World) : Prop :=
  heap w !! h = Some (OChild c) /\ this_child (self w) <> Some h.

(** The [ChildProcess] of the constructor is as it was made, and is not
    [this.child]. *)
Definition spare (w : World) : Prop :=
  child_at (mock_child (this_mocks (self w))) w = Some fresh_ChildProcess /\
  this_child (self w) <> Some (mock_child (this_mocks (self w))).

(** * Properties *)

(** ** What setters, calls and [match] leave alone *)

Section Frames.
Variable fn : nat -> callback.

Lemma frame_refl w : frame w w.
Proof. unfold frame; tauto. Qed.

Lemma frame_trans w1 w2 w3 : frame w1 w2 -> frame w2 w3 -> frame w1 w3.
Proof. unfold frame; intuition congruence. Qed.

(** A setter of the facade writes one mock and nothing else. *)
Lemma perform_frame c w :
  frame w (after (perform c w)) /\
  this_command (self (after (perform c w))) = this_command (self w) /\
  invoked (after (perform c w)) = invoked w /\
  result (perform c w) = Normal tt.
Proof. destruct c; cbn; unfold frame; cbn; tauto. Qed.

Lemma perform_all_frame cs w :
  frame w (after (perform_all cs w)) /\
  this_command (self (after (perform_all cs w))) = this_command (self w) /\
  invoked (after (perform_all cs w)) = invoked w.
Proof.
  revert w; induction cs as [|c cs IH]; intros w.
  - cbn. repeat split.
  - cbn [perform_all]. unfold mbind, M_bind.
    destruct (perform_frame c w) as (F & C & I & R).
    destruct (perform c w) as [[[]|e] w1]; cbn in *; try discriminate.
    destruct (IH w1) as (F' & C' & I').
    split; [eapply frame_trans; eauto | split; congruence].
Qed.

(** A chain of setter calls, as one assignment to the mocks. *)
Lemma configured_nil m : configured [] m = m.
Proof. destruct m. reflexivity. Qed.

Lemma with_mocks_id w : with_self (with_mocks (configured [])) w = w.
Proof.
  destruct w as [hp [m c a o cl cw ch] n q inv un].
  unfold with_self, with_mocks. cbn. rewrite configured_nil. reflexivity.
Qed.

Lemma perform_configured c w :
  perform c w = (Normal tt, with_self (with_mocks (configured [c])) w).
Proof. destruct c; reflexivity. Qed.

Lemma configured_cons c cs m : configured (c :: cs) m = configured cs (configured [c] m).
Proof. reflexivity. Qed.

Lemma perform_all_configured cs w :
  perform_all cs w = (Normal tt, with_self (with_mocks (configured cs)) w).
Proof.
  revert w. induction cs as [|c cs IH]; intros w.
  - cbn [perform_all]. rewrite with_mocks_id. reflexivity.
  - cbn [perform_all]. unfold mbind, M_bind. rewrite perform_configured, IH.
    reflexivity.
Qed.



(** Calling a function of the program: its outcome is that of the function
    applied to the facade, and it can only have written mocks. *)
Lemma call_spec f args w :
  result (call fn f args w) = snd (fn f (api (self w)) args) /\
  frame w (after (call fn f args w)) /\
  this_command (self (after (call fn f args w))) = this_command (self w) /\
  invoked (after (call fn f args w)) =
    invoked w ++ [mkInvocation (now w) f (api (self w)) args].
Proof.
  unfold call.
  destruct (fn f (api (self w)) args) as [calls outcome]; cbn [result after fst snd].
  set (w1 := with_invoked _ w).
  destruct (perform_all_frame calls w1) as (F & C & I).
  split; [reflexivity|]. split; [|split].
  - eapply frame_trans; [|exact F]. unfold frame; cbn; tauto.
  - rewrite C. reflexivity.
  - rewrite I. reflexivity.
Qed.

Lemma call_quiet f args w :
  fst (fn f (api (self w)) args) = [] ->
  self (after (call fn f args w)) = self w.
Proof.
  unfold call. destruct (fn f (api (self w)) args) as [calls outcome]; cbn.
  intros ->. reflexivity.
Qed.

Lemma match_called command args options w :
  this_called (self w) = true ->
  match_ fn command args options w = (Normal false, w).
Proof.
  intros H. unfold match_, mbind, M_bind, gets. rewrite H. reflexivity.
Qed.

Lemma RegExp_test_lastIndex re s :
  exists i, snd (RegExp_test re s) = set_lastIndex i re.
Proof.
  unfold RegExp_test.
  destruct (uses_lastIndex re).
  - destruct (String.length s <? lastIndex re); [eexists; reflexivity|].
    destruct (re_search re s (lastIndex re)); eexists; reflexivity.
  - exists (lastIndex re). destruct re; reflexivity.
Qed.

Lemma match_command_frame command args options w :
  frame w (after (match_command fn command args options w)) /\
  same_spec (this_command (self w))
            (this_command (self (after (match_command fn command args options w)))).
Proof.
  unfold match_command, mbind, M_bind, gets.
  destruct (this_command (self w)) as [d|f|re|p] eqn:E.
  - cbn. split; [apply frame_refl|left; congruence].
  - destruct (call_spec f [command; args; options] w) as (R & F & C & _).
    destruct (call fn f [command; args; options] w) as [[v|e] w1]; cbn in *;
      (split; [exact F | left; congruence]).
  - destruct (RegExp_test_lastIndex re (ToString command)) as [i Hi].
    destruct (RegExp_test re (ToString command)) as [found re']. cbn in *.
    split; [unfold frame; cbn; tauto|].
    right. exists re, i. split; congruence.
  - cbn. split; [apply frame_refl|left; congruence].
Qed.

Lemma match_args_frame args w :
  frame w (after (match_args fn args w)) /\
  this_command (self (after (match_args fn args w))) = this_command (self w).
Proof.
  unfold match_args, mbind, M_bind, gets.
  destruct (this_args (self w)) as [d|f|re|p] eqn:E.
  2:{ destruct (call_spec f [args] w) as (R & F & C & _).
      destruct (call fn f [args] w) as [[v|e] w1]; cbn in *; auto. }
  all: unfold lift;
    match goal with |- context [toString_value ?v] => destruct (toString_value v) end;
    destruct (toString args);
    match goal with |- context [truthy ?v] => destruct (truthy v) end;
    cbn; split; try apply frame_refl; reflexivity.
Qed.

Lemma match_options_frame options w :
  frame w (after (match_options fn options w)) /\
  this_command (self (after (match_options fn options w))) = this_command (self w).
Proof.
  unfold match_options, mbind, M_bind, gets.
  destruct (this_options (self w)) as [d|f|re|p] eqn:E.
  2:{ destruct (call_spec f [options] w) as (R & F & C & _).
      destruct (call fn f [options] w) as [[v|e] w1]; cbn in *; auto. }
  all: try (cbn; split; [apply frame_refl|reflexivity]).
  destruct (truthy_data d); cbn; split; try apply frame_refl; reflexivity.
Qed.
End Frames.

(** ** [match] as its three blocks *)

Section Match.
Variable fn : nat -> callback.

Lemma match_unfold command args options w :
  match_ fn command args options w =
    if this_called (self w) then (Normal false, w)
    else
      match match_command fn command (default_args args) (default_options options) w with
      | (Normal true, w1) =>
          match match_args fn (default_args args) w1 with
          | (Normal true, w2) =>
              match match_options fn (default_options options) w2 with
              | (Normal b, w3) => (Normal b, w3)
              | (Throw e, w3) => (Throw e, w3)
              end
          | (Normal false, w2) => (Normal false, w2)
          | (Throw e, w2) => (Throw e, w2)
          end
      | (Normal false, w1) => (Normal false, w1)
      | (Throw e, w1) => (Throw e, w1)
      end.
Proof.
  unfold match_, mbind, M_bind, gets.
  destruct (this_called (self w)); [reflexivity|].
  destruct (match_command _ _ _ _ _) as [[[]|e] w1]; cbn; try reflexivity.
  destruct (match_args _ _ _) as [[[]|e] w2]; cbn; try reflexivity.
  destruct (match_options _ _ _) as [[[]|e] w3]; reflexivity.
Qed.

(** [match] succeeds exactly when the interceptor has not been called and
    each block, run after the one before, lets it through. *)
Lemma match_true_iff command args options w :
  result (match_ fn command args options w) = Normal true <->
  this_called (self w) = false /\
  let args' := default_args args in
  let options' := default_options options in
  let w1 := after (match_command fn command args' options' w) in
  let w2 := after (match_args fn args' w1) in
  result (match_command fn command args' options' w) = Normal true /\
  result (match_args fn args' w1) = Normal true /\
  result (match_options fn options' w2) = Normal true.
Proof.
  rewrite match_unfold. cbn zeta.
  destruct (this_called (self w)); [cbn; intuition discriminate|].
  destruct (match_command _ _ _ _ _) as [[[]|e] w1]; cbn;
    try (intuition discriminate).
  destruct (match_args _ _ _) as [[[]|e] w2]; cbn; try (intuition discriminate).
  destruct (match_options _ _ _) as [[[]|e] w3]; cbn; intuition discriminate.
Qed.

Lemma match_frame command args options w :
  frame w (after (match_ fn command args options w)) /\
  same_spec (this_command (self w))
            (this_command (self (after (match_ fn command args options w)))).
Proof.
  rewrite match_unfold.
  destruct (this_called (self w)); [split; [apply frame_refl|left; reflexivity]|].
  destruct (match_command_frame fn command (default_args args) (default_options options) w)
    as [F1 S1].
  destruct (match_command _ _ _ _ _) as [[[]|e] w1]; cbn in F1, S1; cbn; auto.
  destruct (match_args_frame fn (default_args args) w1) as [F2 C2].
  destruct (match_args _ _ _) as [[[]|e] w2]; cbn in F2, C2; cbn;
    try (split; [eapply frame_trans; eauto | rewrite C2; exact S1]).
  destruct (match_options_frame fn (default_options options) w2) as [F3 C3].
  destruct (match_options _ _ _) as [[b|e] w3]; cbn in F3, C3; cbn;
    (split; [eapply frame_trans; [|exact F3]; eapply frame_trans; eauto
            | rewrite C3, C2; exact S1]).
Qed.

End Match.

Section Blocks.
Variable fn : nat -> callback.

Lemma strict_equals_eq_str (c : jsdata) (s : string) :
  strict_equals c (JStr s) = true <-> c = JStr s.
Proof.
  destruct c; cbn; try (split; [discriminate|intros [=]]).
  rewrite String.eqb_eq. split; [intros ->; reflexivity|intros [= ->]; reflexivity].
Qed.

(** The command block, spec by spec. *)
Lemma match_command_result command args options w :
  result (match_command fn command args options w) =
    match this_command (self w) with
    | VFun f =>
        match snd (fn f (api (self w)) [command; args; options]) with
        | Normal v => Normal (truthy v)
        | Throw e => Throw e
        end
    | VRegExp re => Normal (fst (RegExp_test re (ToString command)))
    | VData d => Normal (strict_equals command d)
    | VPromise _ => Normal false
    end.
Proof.
  unfold match_command, mbind, M_bind, gets.
  destruct (this_command (self w)) as [d|f|re|p]; try reflexivity.
  - destruct (call_spec fn f [command; args; options] w) as (R & _).
    destruct (call fn f [command; args; options] w) as [[v|e] w1]; cbn in *;
      rewrite <- R; reflexivity.
  - destruct (RegExp_test re (ToString command)) as [found re']; reflexivity.
Qed.

(** The args block, spec by spec. *)
Lemma match_args_result args w :
  result (match_args fn args w) =
    match this_args (self w) with
    | VFun f =>
        match snd (fn f (api (self w)) [args]) with
        | Normal v => Normal (truthy v)
        | Throw e => Throw e
        end
    | v =>
        if truthy v then
          match toString_value v, toString args with
          | Normal mine, Normal theirs => Normal (String.eqb mine theirs)
          | Throw e, _ => Throw e
          | _, Throw e => Throw e
          end
        else Normal true
    end.
Proof.
  unfold match_args, mbind, M_bind, gets, lift.
  destruct (this_args (self w)) as [d|f|re|p].
  2:{ destruct (call_spec fn f [args] w) as (R & _).
      destruct (call fn f [args] w) as [[v|e] w1]; cbn in *; rewrite <- R; reflexivity. }
  all: match goal with |- context [toString_value ?v] => destruct (toString_value v) end;
    destruct (toString args);
    match goal with |- context [truthy ?v] => destruct (truthy v) end;
    reflexivity.
Qed.

(** The options block, spec by spec. *)
Lemma match_options_result options w :
  result (match_options fn options w) =
    match this_options (self w) with
    | VFun f =>
        match snd (fn f (api (self w)) [options]) with
        | Normal v => Normal (truthy v)
        | Throw e => Throw e
        end
    | VData d => if truthy_data d then compareOptions d options else Normal true
    | VRegExp _ | VPromise _ => Normal true
    end.
Proof.
  unfold match_options, mbind, M_bind, gets, lift.
  destruct (this_options (self w)) as [d|f|re|p]; try reflexivity.
  - destruct (truthy_data d); reflexivity.
  - destruct (call_spec fn f [options] w) as (R & _).
    destruct (call fn f [options] w) as [[v|e] w1]; cbn in *; rewrite <- R; reflexivity.
Qed.

End Blocks.

Section Success.
Variable fn : nat -> callback.

(** A successful [match] leaves the interceptor as [run] requires it. *)
Lemma match_true_not_called command args options w :
  result (match_ fn command args options w) = Normal true ->
  this_called (self w) = false /\
  this_called (self (after (match_ fn command args options w))) = false.
Proof.
  intros H. apply match_true_iff in H. destruct H as [H _].
  split; [exact H|].
  destruct (match_frame fn command args options w) as [(_ & _ & _ & _ & -> & _) _].
  exact H.
Qed.

(** A successful [match] went through [compareOptions]. *)
Lemma match_true_options command args options w d :
  this_options (self w) = VData (JObj d) ->
  result (match_ fn command args options w) = Normal true ->
  compareOptions (JObj d) (default_options options) = Normal true.
Proof.
  intros E H. apply match_true_iff in H. cbn zeta in H.
  destruct H as (_ & _ & _ & H).
  destruct (match_command_frame fn command (default_args args)
              (default_options options) w) as [F1 _].
  set (w1 := after (match_command fn command (default_args args)
                      (default_options options) w)) in *.
  destruct (match_args_frame fn (default_args args) w1) as [F2 _].
  set (w2 := after (match_args fn (default_args args) w1)) in *.
  assert (O : this_options (self w2) = VData (JObj d)).
  { destruct F1 as (_ & _ & _ & _ & _ & _ & _ & _ & E1).
    destruct F2 as (_ & _ & _ & _ & _ & _ & _ & _ & E2). congruence. }
  rewrite match_options_result, O in H. exact H.
Qed.

End Success.

(** ** [match] on specs that are plain data *)

Section Data.
Variable fn : nat -> callback.

Lemma match_command_data command args options w d :
  this_command (self w) = VData d ->
  match_command fn command args options w = (Normal (strict_equals command d), w).
Proof. intros E. unfold match_command, mbind, M_bind, gets. rewrite E. reflexivity. Qed.

Lemma match_args_data args w d :
  this_args (self w) = VData d ->
  match_args fn args w =
    (if truthy_data d then
       match toString d, toString args with
       | Normal mine, Normal theirs => Normal (String.eqb mine theirs)
       | Throw e, _ => Throw e
       | _, Throw e => Throw e
       end
     else Normal true, w).
Proof.
  intros E. unfold match_args, mbind, M_bind, gets, lift. rewrite E.
  cbn [truthy toString_value]. destruct (truthy_data d); [|reflexivity].
  destruct (toString d); [|reflexivity]. destruct (toString args); reflexivity.
Qed.

Lemma match_options_data options w d :
  this_options (self w) = VData d ->
  match_options fn options w =
    (if truthy_data d then compareOptions d options else Normal true, w).
Proof.
  intros E. unfold match_options, mbind, M_bind, gets, lift. rewrite E.
  destruct (truthy_data d); reflexivity.
Qed.

Lemma toString_truthy d : truthy_data d = true -> toString d = Normal (ToString d).
Proof. destruct d; cbn; try discriminate; reflexivity. Qed.

Lemma toString_defined d :
  d <> JUndefined -> d <> JNull -> toString d = Normal (ToString d).
Proof. destruct d; cbn; congruence. Qed.

Lemma default_args_defined args : default_args args <> JUndefined.
Proof. destruct args; discriminate. Qed.

(** [match] with specs that are plain data, on a call whose args are not
    [null] and whose options are an object. *)
Lemma match_data command args options w dc da dopt c :
  this_called (self w) = false ->
  this_command (self w) = VData dc ->
  this_args (self w) = VData da ->
  this_options (self w) = VData dopt ->
  args <> JNull ->
  default_options options = JObj c ->
  match_ fn command args options w =
    (if strict_equals command dc then
       if truthy_data da && negb (String.eqb (ToString da) (ToString (default_args args)))
       then Normal false
       else if truthy_data dopt then compareOptions dopt (JObj c) else Normal true
     else Normal false, w).
Proof.
  intros K C A O N D. rewrite match_unfold, K, D.
  rewrite (match_command_data _ _ _ _ _ C).
  destruct (strict_equals command dc); [|reflexivity].
  rewrite (match_args_data _ _ _ A).
  destruct (truthy_data da) eqn:T; cbn [andb].
  - rewrite (toString_truthy _ T).
    rewrite toString_defined by (try apply default_args_defined; destruct args; cbn; congruence).
    destruct (String.eqb (ToString da) (ToString (default_args args))); cbn [negb];
      [|reflexivity].
    rewrite (match_options_data _ _ _ O).
    destruct (truthy_data dopt); [|reflexivity].
    destruct (compareOptions dopt (JObj c)) as [[]|]; reflexivity.
  - rewrite (match_options_data _ _ _ O).
    destruct (truthy_data dopt); [|reflexivity].
    destruct (compareOptions dopt (JObj c)) as [[]|]; reflexivity.
Qed.

(** With a command that is the registered string and no args spec, what
    [match] returns is up to the options. *)
Lemma match_options_only s args options w d :
  this_called (self w) = false ->
  this_command (self w) = VData (JStr s) ->
  this_args (self w) = VData JUndefined ->
  this_options (self w) = VData (JObj d) ->
  match_ fn (JStr s) args options w =
    (compareOptions (JObj d) (default_options options), w).
Proof.
  intros K C A O. rewrite match_unfold, K.
  rewrite (match_command_data _ _ _ _ _ C).
  cbn [strict_equals]. rewrite String.eqb_refl.
  rewrite (match_args_data _ _ _ A). cbn [truthy_data].
  rewrite (match_options_data _ _ _ O). cbn [truthy_data].
  destruct (compareOptions _ _) as [[]|]; reflexivity.
Qed.

End Data.

(** ** [compareOptions] on two objects *)

Lemma option_string_eqb_eq x y : option_string_eqb x y = true <-> x = y.
Proof.
  destruct x as [a|], y as [b|]; cbn; try (split; [discriminate|intros [=]]);
    [|tauto].
  rewrite String.eqb_eq. split; [intros ->; reflexivity|intros [= ->]; reflexivity].
Qed.

Lemma hasOwnProperty_object k o :
  hasOwnProperty (JObj o) k =
    Normal (match lookup_prop k o with Some _ => true | None => false end).
Proof.
  cbn. destruct (lookup_prop k o).
  - rewrite bool_decide_true by eauto. reflexivity.
  - rewrite bool_decide_false by (intros [? [=]]). reflexivity.
Qed.

Lemma get_object k o : get (JObj o) k = Normal (read k o).
Proof. reflexivity. Qed.

(** No prototype has an [env]: what [o.env] yields is data. *)
Lemma get_env_data o p : get o "env" = Normal p -> exists d, p = Data d.
Proof.
  destruct o as [| |b|n|s|l|props]; unfold get; try discriminate;
    match goal with
    | |- context [own_property ?x ?k] => generalize (own_property x k)
    end;
    intros [v|] [= <-]; eexists; reflexivity.
Qed.

Lemma read_own k o v : lookup_prop k o = Some v -> read k o = Data v.
Proof. unfold read. intros ->. reflexivity. Qed.

(** What an object inherits, it inherits under one of twelve names. *)
Lemma read_plain k o : inherits k = false -> read k o = Data (prop k o).
Proof.
  unfold read, prop, inherits, inherited. intros H.
  destruct (lookup_prop k o); [reflexivity|].
  apply orb_false_iff in H. destruct H as [-> H].
  cbn [find]. rewrite H. reflexivity.
Qed.


Lemma serializable_plain k : In k serializable -> inherits k = false.
Proof. cbn. intros H. repeat (destruct H as [<-|H]; [reflexivity|]). destruct H. Qed.

Lemma prop_Some k o v : lookup_prop k o = Some v -> prop k o = v.
Proof. unfold prop. intros ->. reflexivity. Qed.

Lemma compare_serializable_objects attrs d c :
  incl attrs serializable ->
  compare_serializable attrs (JObj d) (JObj c) = Normal (forallb (agrees_on d c) attrs).
Proof.
  induction attrs as [|attr rest IH]; intros I; [reflexivity|].
  cbn [compare_serializable forallb]. rewrite hasOwnProperty_object.
  rewrite IH by (intros ? ?; apply I; right; assumption).
  rewrite !get_object. unfold agrees_on at 2.
  rewrite (read_plain attr c) by (apply serializable_plain, I; left; reflexivity).
  destruct (lookup_prop attr d) as [v|] eqn:E.
  - rewrite (read_own _ _ _ E).
    unfold mbind, completion_bind, mret, completion_ret.
    cbn [JSON_stringify_property].
    destruct (option_string_eqb _ _); reflexivity.
  - reflexivity.
Qed.

Lemma compare_env_objects keys d c de ce :
  lookup_prop "env" d = Some (JObj de) ->
  lookup_prop "env" c = Some (JObj ce) ->
  compare_env keys (JObj d) (JObj c) =
    Normal (forallb (fun k => identical (read k de) (read k ce)) keys).
Proof.
  intros Hd Hc. induction keys as [|k rest IH]; [reflexivity|].
  cbn [compare_env forallb]. rewrite IH, !get_object.
  rewrite (read_own _ _ _ Hd), (read_own _ _ _ Hc).
  unfold mbind, completion_bind, mret, completion_ret. cbn [get_of]. rewrite !get_object.
  destruct (identical _ _); reflexivity.
Qed.

(** [compareOptions] on two mappings whose [env], if any, is a mapping. *)
Lemma compareOptions_objects d c :
  env_is_mapping d -> env_is_mapping c ->
  compareOptions (JObj d) (JObj c) =
    Normal (forallb (agrees_on d c) serializable &&
            match lookup_prop "env" d with
            | Some denv =>
                match lookup_prop "env" c with
                | Some cenv =>
                    match denv, cenv with
                    | JObj de, JObj ce =>
                        forallb (fun k => identical (read k de) (read k ce))
                                (List.map fst de)
                    | _, _ => false
                    end
                | None => false
                end
            | None => true
            end).
Proof.
  intros Wd Wc. unfold compareOptions.
  rewrite compare_serializable_objects by apply incl_refl. cbn [mbind completion_bind].
  destruct (forallb (agrees_on d c) serializable); [|reflexivity]. cbn [negb andb].
  rewrite !hasOwnProperty_object.
  destruct (lookup_prop "env" d) as [denv|] eqn:Ed.
  2:{ reflexivity. }
  cbn [mbind completion_bind].
  destruct (lookup_prop "env" c) as [cenv|] eqn:Ec.
  2:{ reflexivity. }
  cbn [negb].
  destruct (Wd _ Ed) as [de ->]. destruct (Wc _ Ec) as [ce ->].
  rewrite get_object, (read_own _ _ _ Ed).
  cbn [Object_keys_of Object_keys mbind completion_bind].
  rewrite (compare_env_objects _ d c de ce Ed Ec).
  unfold mbind, completion_bind, mret, completion_ret.
  destruct (forallb _ _); reflexivity.
Qed.

Lemma forallb_keys (P : property -> property -> bool) (de ce : list (string * jsdata)) :
  forallb (fun k => P (read k de) (read k ce)) (List.map fst de) = true <->
  forall k v, lookup_prop k de = Some v -> P (Data v) (read k ce) = true.
Proof.
  rewrite forallb_forall. split.
  - intros H k v E. specialize (H k).
    rewrite (read_own _ _ _ E) in H. apply H.
    clear -E. induction de as [|[k' v'] rest IH]; [discriminate|].
    cbn in *. destruct (String.eqb k k') eqn:K; [left; symmetry; apply String.eqb_eq, K|].
    right; auto.
  - intros H k Hin.
    destruct (lookup_prop k de) as [v|] eqn:E.
    + rewrite (read_own _ _ _ E). apply H, E.
    + exfalso. clear -E Hin. induction de as [|[k' v'] rest IH]; [destruct Hin|].
      cbn in *. destruct (String.eqb k k') eqn:K; [discriminate|].
      destruct Hin as [->|Hin]; [rewrite String.eqb_refl in K; discriminate|auto].
Qed.

Lemma get_other (k attr : string) v d :
  k <> attr -> get (JObj ((k, v) :: d)) attr = get (JObj d) attr.
Proof.
  intros N. rewrite !get_object. unfold read. cbn [lookup_prop].
  destruct (String.eqb attr k) eqn:K; [|reflexivity].
  apply String.eqb_eq in K. congruence.
Qed.

(** A key the spec does not have may be added to the call. *)
Lemma compare_serializable_extra attrs d c k v :
  lookup_prop k d = None ->
  compare_serializable attrs (JObj d) (JObj ((k, v) :: c)) =
    compare_serializable attrs (JObj d) (JObj c).
Proof.
  intros H. induction attrs as [|attr rest IH]; [reflexivity|].
  cbn [compare_serializable]. rewrite IH.
  destruct (String.eqb attr k) eqn:K.
  - apply String.eqb_eq in K. subst attr. rewrite hasOwnProperty_object, H. reflexivity.
  - rewrite (get_other k attr v c); [reflexivity|].
    intros ->. rewrite String.eqb_refl in K. discriminate.
Qed.

Lemma hasOwnProperty_other (k attr : string) v d :
  k <> attr ->
  hasOwnProperty (JObj ((k, v) :: d)) attr = hasOwnProperty (JObj d) attr.
Proof.
  intros N. rewrite !hasOwnProperty_object. cbn [lookup_prop].
  destruct (String.eqb attr k) eqn:K; [|reflexivity].
  apply String.eqb_eq in K. congruence.
Qed.



(** A key of the spec outside the recognised ones is not looked at. *)
Lemma compare_serializable_unrecognised attrs d called k v :
  ~ In k attrs ->
  compare_serializable attrs (JObj ((k, v) :: d)) called =
    compare_serializable attrs (JObj d) called.
Proof.
  induction attrs as [|attr rest IH]; intros N; [reflexivity|].
  cbn [compare_serializable].
  rewrite hasOwnProperty_other, get_other by (intros ->; apply N; left; reflexivity).
  rewrite IH by (intros ?; apply N; right; assumption). reflexivity.
Qed.

Lemma compare_env_unrecognised keys d called k v :
  k <> "env" ->
  compare_env keys (JObj ((k, v) :: d)) called = compare_env keys (JObj d) called.
Proof.
  intros N. induction keys as [|key rest IH]; [reflexivity|].
  cbn [compare_env]. rewrite get_other by exact N. rewrite IH. reflexivity.
Qed.

Lemma compareOptions_unrecognised d called k v :
  ~ In k serializable -> k <> "env" ->
  compareOptions (JObj ((k, v) :: d)) called = compareOptions (JObj d) called.
Proof.
  intros N E. unfold compareOptions.
  rewrite compare_serializable_unrecognised by exact N.
  rewrite hasOwnProperty_other, get_other by exact E.
  unfold mbind, completion_bind.
  destruct (compare_serializable serializable (JObj d) called) as [[]|]; try reflexivity.
  cbn [negb]. destruct (hasOwnProperty (JObj d) "env") as [[]|]; try reflexivity.
  destruct (hasOwnProperty called "env") as [[]|]; try reflexivity. cbn [negb].
  destruct (get (JObj d) "env") as [denv|]; try reflexivity.
  destruct (Object_keys_of denv) as [keys|]; try reflexivity.
  rewrite compare_env_unrecognised by exact E. reflexivity.
Qed.

Lemma compare_env_extra keys d c k v :
  k <> "env" ->
  compare_env keys (JObj d) (JObj ((k, v) :: c)) = compare_env keys (JObj d) (JObj c).
Proof.
  intros N. induction keys as [|key rest IH]; [reflexivity|].
  cbn [compare_env]. rewrite get_other by exact N. rewrite IH. reflexivity.
Qed.

(** A key the spec does not have may be added to the call. *)
Lemma compareOptions_extra d c k v :
  lookup_prop k d = None ->
  compareOptions (JObj d) (JObj ((k, v) :: c)) = compareOptions (JObj d) (JObj c).
Proof.
  intros H. unfold compareOptions.
  rewrite compare_serializable_extra by exact H.
  unfold mbind, completion_bind.
  destruct (compare_serializable serializable (JObj d) (JObj c)) as [[]|]; try reflexivity.
  cbn [negb]. rewrite hasOwnProperty_object.
  destruct (lookup_prop "env" d) as [denv|] eqn:E; [|reflexivity].
  assert (N : k <> "env") by congruence.
  rewrite hasOwnProperty_other by exact N.
  destruct (hasOwnProperty (JObj c) "env") as [[]|]; try reflexivity. cbn [negb].
  destruct (get (JObj d) "env") as [denv'|]; try reflexivity.
  destruct (Object_keys_of denv') as [keys|]; try reflexivity.
  rewrite compare_env_extra by exact N. reflexivity.
Qed.








(** ** The JSON text of a string *)

Lemma string_app_assoc (a b c : string) : (a +:+ b) +:+ c = a +:+ (b +:+ c).
Proof.
  induction a as [|x a IH]; [reflexivity|].
  change (String x ((a +:+ b) +:+ c) = String x (a +:+ (b +:+ c))).
  rewrite IH. reflexivity.
Qed.

Lemma unescape_escape a r : unescape_head (escape_char a +:+ r) = Some (a, r).
Proof. destruct a as [[] [] [] [] [] [] [] []]; reflexivity. Qed.

Lemma escape_string_inj s1 s2 r1 r2 :
  escape_string s1 +:+ String dquote r1 = escape_string s2 +:+ String dquote r2 ->
  s1 = s2 /\ r1 = r2.
Proof.
  revert s2. induction s1 as [|a s1 IH]; intros [|b s2] E; cbn [escape_string] in E.
  - injection E as ->. auto.
  - exfalso. rewrite string_app_assoc in E.
    pose proof (f_equal unescape_head E) as H. rewrite unescape_escape in H.
    change (unescape_head ("" +:+ String dquote r1)) with (Some (dquote, r1)) in H.
    injection H as <- _. discriminate E.
  - exfalso. rewrite string_app_assoc in E.
    pose proof (f_equal unescape_head E) as H. rewrite unescape_escape in H.
    change (unescape_head ("" +:+ String dquote r2)) with (Some (dquote, r2)) in H.
    injection H as -> _. discriminate E.
  - rewrite !string_app_assoc in E.
    pose proof (f_equal unescape_head E) as H. rewrite !unescape_escape in H.
    injection H as -> H. destruct (IH _ H) as [-> ->]. auto.
Qed.

Lemma QuoteJSONString_inj s1 s2 :
  QuoteJSONString s1 = QuoteJSONString s2 -> s1 = s2.
Proof.
  unfold QuoteJSONString. intros [= E]. apply (escape_string_inj _ _ _ _ E).
Qed.

(** ** The JSON text of plain data *)

Lemma string_app_nil (a : string) : a +:+ "" = a.
Proof.
  induction a as [|x a IH]; [reflexivity|].
  change (String x (a +:+ "") = String x a). rewrite IH. reflexivity.
Qed.

Lemma string_app_cons x (a b : string) : String x a +:+ b = String x (a +:+ b).
Proof. reflexivity. Qed.

Lemma concat_elements (e : jsdata) (more : list jsdata) (rest : string) :
  String.concat "," (List.map JSON_text (e :: more)) +:+ String "]" rest =
  JSON_text e +:+ elements_tail more rest.
Proof.
  revert e. induction more as [|e' more IH]; intros e; [reflexivity|].
  change (List.map JSON_text (e :: e' :: more))
    with (JSON_text e :: List.map JSON_text (e' :: more)).
  change (String.concat "," (JSON_text e :: List.map JSON_text (e' :: more)))
    with (JSON_text e +:+ "," +:+ String.concat "," (List.map JSON_text (e' :: more))).
  rewrite !string_app_assoc, IH. reflexivity.
Qed.

Lemma JSON_text_array elems rest :
  JSON_text (JArr elems) +:+ rest =
    String "[" (match elems with
                | [] => String "]" rest
                | e :: more => JSON_text e +:+ elements_tail more rest
                end).
Proof.
  unfold JSON_text at 1. cbn [JSON_stringify].
  change (List.map (fun e => match JSON_stringify e with Some s => s | None => "null" end) elems)
    with (List.map JSON_text elems).
  destruct elems as [|e more]; [reflexivity|].
  rewrite <- concat_elements.
  rewrite !string_app_cons, !string_app_assoc. reflexivity.
Qed.

Lemma JSON_stringify_defined d :
  defined_data d = true -> JSON_stringify d = Some (JSON_text d).
Proof. unfold JSON_text. destruct d; try reflexivity. discriminate. Qed.

Lemma flat_map_properties props :
  forallb (fun kv => defined_data (snd kv)) props = true ->
  List.flat_map (fun kv : string * jsdata =>
                   match JSON_stringify (snd kv) with
                   | Some s => [QuoteJSONString (fst kv) +:+ ":" +:+ s]
                   | None => []
                   end) props =
  List.map (fun kv => QuoteJSONString (fst kv) +:+ ":" +:+ JSON_text (snd kv)) props.
Proof.
  induction props as [|[k v] more IH]; [reflexivity|].
  cbn [forallb List.flat_map List.map fst snd]. intros H.
  apply andb_true_iff in H as [Hv H].
  rewrite (JSON_stringify_defined v Hv), (IH H). reflexivity.
Qed.

Lemma concat_properties k v (more : list (string * jsdata)) (rest : string) :
  String.concat ","
    (List.map (fun kv : string * jsdata =>
                 QuoteJSONString (fst kv) +:+ ":" +:+ JSON_text (snd kv))
              ((k, v) :: more))
  +:+ String "}" rest =
  QuoteJSONString k +:+ String ":" (JSON_text v +:+ properties_tail more rest).
Proof.
  revert k v. induction more as [|[k' v'] more IH]; intros k v.
  - cbn [List.map String.concat fst snd properties_tail].
    rewrite !string_app_assoc. reflexivity.
  - change (String.concat "," (List.map _ ((k, v) :: (k', v') :: more)))
      with ((QuoteJSONString k +:+ ":" +:+ JSON_text v) +:+ "," +:+
            String.concat ","
              (List.map (fun kv : string * jsdata =>
                           QuoteJSONString (fst kv) +:+ ":" +:+ JSON_text (snd kv))
                        ((k', v') :: more))).
    rewrite !string_app_assoc, IH. reflexivity.
Qed.

Lemma JSON_text_object props rest :
  forallb (fun kv => defined_data (snd kv)) props = true ->
  JSON_text (JObj props) +:+ rest =
    String "{" (match props with
                | [] => String "}" rest
                | (k, v) :: more =>
                    QuoteJSONString k +:+
                    String ":" (JSON_text v +:+ properties_tail more rest)
                end).
Proof.
  intros H. unfold JSON_text at 1. cbn [JSON_stringify].
  rewrite (flat_map_properties props H).
  destruct props as [|[k v] more]; [reflexivity|].
  rewrite <- concat_properties.
  rewrite !string_app_cons, !string_app_assoc. reflexivity.
Qed.

Lemma pretty_N_go_all_numeric x s :
  all_numeric s = true -> all_numeric (pretty_N_go x s) = true.
Proof.
  revert s. induction (N.lt_wf_0 x) as [x _ IH]; intros s H.
  assert (x = 0 \/ 0 < x)%N as [->|Hx] by lia.
  - rewrite pretty_N_go_0. exact H.
  - rewrite pretty_N_go_step by exact Hx. apply IH.
    + apply N.div_lt; [exact Hx|reflexivity].
    + cbn [all_numeric]. rewrite H, andb_true_r.
      unfold pretty_N_char. repeat case_match; reflexivity.
Qed.

Lemma pretty_N_go_nonempty x s : s <> "" -> pretty_N_go x s <> "".
Proof.
  revert s. induction (N.lt_wf_0 x) as [x _ IH]; intros s H.
  assert (x = 0 \/ 0 < x)%N as [->|Hx] by lia.
  - rewrite pretty_N_go_0. exact H.
  - rewrite pretty_N_go_step by exact Hx. apply IH.
    + apply N.div_lt; [exact Hx|reflexivity].
    + discriminate.
Qed.

Lemma pretty_Z_text (n : Z) : all_numeric (pretty n) = true /\ pretty n <> "".
Proof.
  assert (G : forall p, all_numeric (pretty (N.pos p)) = true /\ pretty (N.pos p) <> "").
  { intros p. unfold pretty, pretty_N. case_decide; [discriminate|]. split.
    - apply pretty_N_go_all_numeric. reflexivity.
    - rewrite pretty_N_go_step by lia. apply pretty_N_go_nonempty. discriminate. }
  destruct n as [|p|p].
  - split; [reflexivity|discriminate].
  - apply G.
  - destruct (G p) as [A _]. split; [|discriminate].
    change (all_numeric (String "-" (pretty (N.pos p))) = true).
    cbn [all_numeric]. rewrite A. reflexivity.
Qed.

Lemma kind_of_head_text d rest :
  defined_data d = true -> kind_of_head (JSON_text d +:+ rest) = kind d.
Proof.
  intros H. destruct d as [| |[]|n|s|elems|props]; try reflexivity; try discriminate.
  - destruct (pretty_Z_text n) as [A N]. unfold JSON_text. cbn [JSON_stringify kind].
    destruct (pretty n) as [|c s]; [congruence|].
    cbn [all_numeric] in A. apply andb_true_iff in A as [A _].
    rewrite string_app_cons. cbn [kind_of_head]. rewrite A. reflexivity.
Qed.

(** A number's text ends where the first other character stands. *)
Lemma numeric_splits a b r1 r2 :
  all_numeric a = true -> all_numeric b = true ->
  closes r1 = true -> closes r2 = true ->
  a +:+ r1 = b +:+ r2 -> a = b /\ r1 = r2.
Proof.
  revert b. induction a as [|c a IH]; intros [|c' b] Ha Hb C1 C2 E.
  - auto.
  - exfalso. change ("" +:+ r1) with r1 in E. subst r1.
    rewrite string_app_cons in C1. cbn [closes] in C1.
    cbn [all_numeric] in Hb. apply andb_true_iff in Hb as [Hb _].
    rewrite Hb in C1. discriminate.
  - exfalso. change ("" +:+ r2) with r2 in E. subst r2.
    rewrite string_app_cons in C2. cbn [closes] in C2.
    cbn [all_numeric] in Ha. apply andb_true_iff in Ha as [Ha _].
    rewrite Ha in C2. discriminate.
  - rewrite !string_app_cons in E. injection E as -> E.
    cbn [all_numeric] in Ha, Hb.
    apply andb_true_iff in Ha as [_ Ha]. apply andb_true_iff in Hb as [_ Hb].
    destruct (IH b Ha Hb C1 C2 E) as [-> ->]. auto.
Qed.

Lemma String_tail_inj c (a b : string) : String c a = String c b -> a = b.
Proof. intros [= E]. exact E. Qed.

Lemma closes_elements_tail l r : closes (elements_tail l r) = true.
Proof. destruct l; reflexivity. Qed.

Lemma closes_properties_tail l r : closes (properties_tail l r) = true.
Proof. destruct l as [|[k v] l]; reflexivity. Qed.

Lemma elements_tail_inj l1 :
  Forall text_determines l1 ->
  forallb defined_data l1 = true ->
  forall l2 r1 r2,
    forallb defined_data l2 = true ->
    elements_tail l1 r1 = elements_tail l2 r2 -> l1 = l2 /\ r1 = r2.
Proof.
  induction 1 as [|x l1 Hx _ IH]; intros D1 [|y l2] r1 r2 D2 E;
    cbn [elements_tail] in E; try discriminate.
  - injection E as ->. auto.
  - apply String_tail_inj in E. cbn [forallb] in D1, D2.
    apply andb_true_iff in D1 as [Dx D1]. apply andb_true_iff in D2 as [Dy D2].
    destruct (Hx Dx y _ _ Dy (closes_elements_tail _ _) (closes_elements_tail _ _) E)
      as [-> E'].
    destruct (IH D1 l2 r1 r2 D2 E') as [-> ->]. auto.
Qed.

Lemma quoted_key_inj k1 k2 r1 r2 :
  QuoteJSONString k1 +:+ r1 = QuoteJSONString k2 +:+ r2 -> k1 = k2 /\ r1 = r2.
Proof.
  unfold QuoteJSONString. rewrite !string_app_cons, !string_app_assoc.
  intros [= E]. rewrite !string_app_cons in E.
  apply (escape_string_inj _ _ _ _ E).
Qed.

Lemma properties_tail_inj l1 :
  Forall (fun kv => text_determines (snd kv)) l1 ->
  forallb (fun kv => defined_data (snd kv)) l1 = true ->
  forall l2 r1 r2,
    forallb (fun kv => defined_data (snd kv)) l2 = true ->
    properties_tail l1 r1 = properties_tail l2 r2 -> l1 = l2 /\ r1 = r2.
Proof.
  induction 1 as [|[k v] l1 Hx _ IH]; intros D1 [|[k' v'] l2] r1 r2 D2 E;
    cbn [properties_tail] in E; try discriminate.
  - injection E as ->. auto.
  - apply String_tail_inj in E. cbn [forallb snd] in D1, D2, Hx.
    apply andb_true_iff in D1 as [Dx D1]. apply andb_true_iff in D2 as [Dy D2].
    destruct (quoted_key_inj _ _ _ _ E) as [-> E1]. apply String_tail_inj in E1.
    destruct (Hx Dx v' _ _ Dy (closes_properties_tail _ _) (closes_properties_tail _ _) E1)
      as [-> E'].
    destruct (IH D1 l2 r1 r2 D2 E') as [-> ->]. auto.
Qed.

Lemma JSON_text_determines x : text_determines x.
Proof.
  induction x as [| |b|n|s|elems IH|props IH] using jsdata_nested_ind;
    intros Dx y r1 r2 Dy C1 C2 E; try discriminate.
  all: pose proof (f_equal kind_of_head E) as K;
    rewrite !kind_of_head_text in K by assumption.
  - destruct y as [| |[]| | | |]; try discriminate.
    vm_compute in E. injection E as ->. auto.
  - destruct b, y as [| |[]| | | |]; try discriminate;
      vm_compute in E; injection E as ->; auto.
  - destruct y as [| |[]|m| | |]; try discriminate.
    unfold JSON_text in E. cbn [JSON_stringify] in E.
    destruct (pretty_Z_text n) as [A _], (pretty_Z_text m) as [B _].
    destruct (numeric_splits _ _ _ _ A B C1 C2 E) as [P ->].
    apply (inj pretty) in P. subst. auto.
  - destruct y as [| |[]| |t| |]; try discriminate.
    unfold JSON_text in E. cbn [JSON_stringify] in E.
    destruct (quoted_key_inj _ _ _ _ E) as [-> ->]. auto.
  - destruct y as [| |[]| | |elems'|]; try discriminate.
    rewrite !JSON_text_array in E. apply String_tail_inj in E.
    cbn [defined_data] in Dx, Dy.
    destruct elems as [|e more], elems' as [|e' more'].
    + injection E as ->. auto.
    + exfalso. apply andb_true_iff in Dy as [De _].
      apply (f_equal kind_of_head) in E. rewrite kind_of_head_text in E by exact De.
      destruct e' as [| |[]| | | |]; discriminate.
    + exfalso. apply andb_true_iff in Dx as [De _].
      apply (f_equal kind_of_head) in E. rewrite kind_of_head_text in E by exact De.
      destruct e as [| |[]| | | |]; discriminate.
    + cbn [forallb] in Dx, Dy.
      apply andb_true_iff in Dx as [De Dx]. apply andb_true_iff in Dy as [De' Dy].
      inversion IH as [|? ? He Hmore]; subst.
      destruct (He De e' _ _ De' (closes_elements_tail _ _) (closes_elements_tail _ _) E)
        as [-> E'].
      destruct (elements_tail_inj more Hmore Dx more' r1 r2 Dy E') as [-> ->]. auto.
  - destruct y as [| |[]| | | |props']; try discriminate.
    cbn [defined_data] in Dx, Dy.
    rewrite !JSON_text_object in E by assumption. apply String_tail_inj in E.
    destruct props as [|[k v] more], props' as [|[k' v'] more'].
    + injection E as ->. auto.
    + exfalso. discriminate E.
    + exfalso. discriminate E.
    + cbn [forallb snd] in Dx, Dy.
      apply andb_true_iff in Dx as [Dv Dx]. apply andb_true_iff in Dy as [Dv' Dy].
      inversion IH as [|? ? Hv Hmore]; subst. cbn [snd] in Hv.
      destruct (quoted_key_inj _ _ _ _ E) as [-> E1]. apply String_tail_inj in E1.
      destruct (Hv Dv v' _ _ Dv' (closes_properties_tail _ _)
                  (closes_properties_tail _ _) E1) as [-> E'].
      destruct (properties_tail_inj more Hmore Dx more' r1 r2 Dy E') as [-> ->]. auto.
Qed.

(** Data without [undefined] inside has the same JSON text only when it is
    the same data, the keys of objects in the same order. *)
Lemma JSON_stringify_inj x y :
  defined_data x = true -> defined_data y = true ->
  JSON_stringify x = JSON_stringify y -> x = y.
Proof.
  intros Dx Dy E.
  rewrite (JSON_stringify_defined x Dx), (JSON_stringify_defined y Dy) in E.
  injection E as E.
  apply (JSON_text_determines x Dx y "" "" Dy eq_refl eq_refl).
  rewrite !string_app_nil. exact E.
Qed.

Lemma exact_defined x : exact_data x = true -> defined_data x = true.
Proof.
  induction x as [| | | | |elems IH|props IH] using jsdata_nested_ind;
    cbn [exact_data defined_data]; try reflexivity; try discriminate.
  - rewrite !forallb_forall. intros H e He.
    apply (proj1 (List.Forall_forall _ _) IH e He), H, He.
  - rewrite !forallb_forall. intros H kv Hkv.
    apply (proj1 (List.Forall_forall _ _) IH kv Hkv), H, Hkv.
Qed.

(** ** The string representation of an array of strings *)

Lemma ToString_strings l : ToString (strings l) = String.concat "," l.
Proof.
  unfold strings. cbn [ToString]. f_equal.
  induction l as [|s rest IH]; [reflexivity|]. cbn [List.map]. rewrite IH. reflexivity.
Qed.

Lemma concat_cons sep x y l :
  String.concat sep (x :: y :: l) = x +:+ sep +:+ String.concat sep (y :: l).
Proof. reflexivity. Qed.

(** A comma-free string ends where the first comma stands. *)
Lemma comma_splits a b r1 r2 :
  comma_free a = true -> comma_free b = true ->
  a +:+ String "," r1 = b +:+ String "," r2 -> a = b /\ r1 = r2.
Proof.
  revert b. induction a as [|c a IH]; intros [|c' b] Ha Hb E; cbn in *.
  - injection E as ->. auto.
  - injection E as <- _. cbn in Hb. discriminate.
  - injection E as -> _. cbn in Ha. discriminate.
  - injection E as -> E.
    apply andb_true_iff in Ha as [_ Ha]. apply andb_true_iff in Hb as [_ Hb].
    destruct (IH b Ha Hb E) as [-> ->]. auto.
Qed.

Lemma comma_free_no_comma a b r :
  comma_free a = true -> a = b +:+ String "," r -> False.
Proof.
  revert b. induction a as [|c a IH]; intros [|c' b] Ha E; cbn in *; try discriminate.
  - injection E as -> _. cbn in Ha. discriminate.
  - injection E as -> E. apply andb_true_iff in Ha as [_ Ha]. eauto.
Qed.

Lemma join_injective_nonempty x l1 y l2 :
  forallb comma_free (x :: l1) = true -> forallb comma_free (y :: l2) = true ->
  String.concat "," (x :: l1) = String.concat "," (y :: l2) ->
  x :: l1 = y :: l2.
Proof.
  revert x y l2. induction l1 as [|x' l1 IH]; intros x y [|y' l2] H1 H2 E.
  - cbn in E. congruence.
  - exfalso. rewrite concat_cons in E. change (String.concat "," [x]) with x in E.
    cbn in H1. apply andb_true_iff in H1 as [H1 _].
    eapply comma_free_no_comma; [exact H1|exact E].
  - exfalso. rewrite concat_cons in E. change (String.concat "," [y]) with y in E.
    cbn in H2. apply andb_true_iff in H2 as [H2 _].
    eapply comma_free_no_comma; [exact H2|symmetry; exact E].
  - rewrite !concat_cons in E.
    cbn [forallb] in H1, H2.
    apply andb_true_iff in H1 as [Hx H1]. apply andb_true_iff in H2 as [Hy H2].
    destruct (comma_splits _ _ _ _ Hx Hy E) as [-> E'].
    f_equal. apply IH; assumption.
Qed.

(** Joining with commas tells comma-free sequences apart, but for the
    empty sequence and the sequence of one empty string. *)
Lemma join_injective l1 l2 :
  forallb comma_free l1 = true -> forallb comma_free l2 = true ->
  ToString (strings l1) = ToString (strings l2) ->
  l1 = l2 \/ (l1 = [] /\ l2 = [""]) \/ (l1 = [""] /\ l2 = []).
Proof.
  rewrite !ToString_strings. intros H1 H2 E.
  destruct l1 as [|x l1], l2 as [|y l2].
  - left; reflexivity.
  - right; left. split; [reflexivity|].
    destruct l2 as [|y' l2]; [cbn in E; congruence|].
    rewrite concat_cons in E. destruct y; discriminate.
  - right; right. split; [|reflexivity].
    destruct l1 as [|x' l1]; [cbn in E; congruence|].
    rewrite concat_cons in E. destruct x; discriminate.
  - left. apply join_injective_nonempty; assumption.
Qed.


(** ** The heap: [this.child] and [run] *)

Lemma insert_middle {A} (pre post : list A) (x y : A) :
  <[length pre := x]> (pre ++ y :: post) = pre ++ x :: post.
Proof.
  rewrite insert_app_r_alt by lia. rewrite Nat.sub_diag. reflexivity.
Qed.

Lemma the_child_found pre c post w :
  this_child (self w) = Some (length pre) ->
  heap w = pre ++ OChild c :: post ->
  the_child w = (Normal (length pre, c), w).
Proof.
  intros H1 H2. unfold the_child. rewrite H1, H2.
  rewrite list_lookup_middle by reflexivity. reflexivity.
Qed.

Lemma assign_child_found f pre c post w :
  this_child (self w) = Some (length pre) ->
  heap w = pre ++ OChild c :: post ->
  assign_child f w =
    (Normal tt, with_heap (fun _ => pre ++ OChild (f c) :: post) w).
Proof.
  intros H1 H2. unfold assign_child, mbind, M_bind.
  rewrite (the_child_found pre c post) by assumption.
  unfold modify, with_heap. cbn. rewrite H2.
  rewrite insert_middle. reflexivity.
Qed.

Lemma emit_found e pre c post w :
  this_child (self w) = Some (length pre) ->
  heap w = pre ++ OChild c :: post ->
  emit e w =
    (Normal tt,
     with_heap (fun _ =>
       pre ++ OChild (child_with_emitted (child_emitted c ++ [(now w, e)]) c) :: post) w).
Proof.
  intros H1 H2. unfold emit, mbind, M_bind, gets.
  rewrite (assign_child_found _ pre c post) by assumption. reflexivity.
Qed.

Ltac wsimpl :=
  unfold with_heap, with_self, with_now, with_pending, with_invoked, with_unhandled,
         with_mocks, with_command, with_called, with_calledWith, with_child,
         child_with_stdin, child_with_stdout, child_with_stderr, child_with_stdio,
         child_with_spawnargs, child_with_exitCode, child_with_signalCode,
         child_with_connected, child_with_emitted;
  cbn [heap self now pending invoked unhandled
       this_mocks this_command this_args this_options this_called
       this_calledWith this_child
       child_stdin child_stdout child_stderr child_stdio child_spawnargs
       child_exitCode child_signalCode child_connected child_emitted
       fresh_ChildProcess fst snd];
  rewrite <- ?app_assoc, ?length_app;
  cbn [app length].

Ltac step_child :=
  match goal with
  | |- context [assign_child ?f (mkWorld (?pre ++ OChild ?c :: ?post) _ _ _ _ _)] =>
      rewrite (assign_child_found f pre c post) by reflexivity
  | |- context [emit ?e (mkWorld (?pre ++ OChild ?c :: ?post) _ _ _ _ _)] =>
      rewrite (emit_found e pre c post) by reflexivity
  | |- context [the_child (mkWorld (?pre ++ OChild ?c :: ?post) _ _ _ _ _)] =>
      rewrite (the_child_found pre c post) by reflexivity
  end; wsimpl.

(** [run] in one step: what it allocates, writes and queues. *)
Lemma run_spec command args options w :
  let h := length (heap w) in
  run command args options w =
    (Normal h,
     mkWorld
       (heap w ++
        [OChild (mkChildProcess (Some (h + 1)) (Some (h + 2)) (Some (h + 3))
                   [h + 1; h + 2; h + 3] (Some args) JNull JNull false
                   [(now w, Spawn)]);
         OStream []; OStream []; OStream []])
       (mkInterceptor (this_mocks (self w)) (this_command (self w))
          (this_args (self w)) (this_options (self w)) true
          (Some (mkCalledWith command args options)) (Some h))
       (now w)
       (pending w ++ [Resolve])
       (invoked w)
       (unhandled w)).
Proof.
  destruct w as [hp i t q inv un]. cbn [heap self now pending invoked unhandled].
  unfold run.
  unfold mbind, M_bind, modify, new_ChildProcess, new_PassThrough, allocate, enqueue.
  wsimpl.
  repeat step_child.
  unfold modify. wsimpl. repeat step_child. reflexivity.
Qed.

(** ** Sequencing *)

Lemma keeps_bind {A B : Type} (P : World -> World -> Prop) (m : M A) (k : A -> M B) :
  (forall w, P w w) ->
  (forall a b c, P a b -> P b c -> P a c) ->
  keeps P m -> (forall a, keeps P (k a)) -> keeps P (m ≫= k).
Proof.
  intros Hrefl Htrans Hm Hk w. unfold mbind, M_bind.
  specialize (Hm w). destruct (m w) as [[a|e] w1]; cbn in *; [|exact Hm].
  eapply Htrans; [exact Hm|apply Hk].
Qed.

Lemma heap_only_refl w : heap_only w w.
Proof. unfold heap_only; tauto. Qed.

Lemma heap_only_trans a b c : heap_only a b -> heap_only b c -> heap_only a c.
Proof. unfold heap_only; intuition congruence. Qed.

Lemma assign_child_heap_only f : keeps heap_only (assign_child f).
Proof.
  intros w. unfold assign_child, mbind, M_bind, the_child.
  destruct (this_child (self w)) as [r|]; [|apply heap_only_refl].
  destruct (heap w !! r) as [[c|s]|]; cbn; try apply heap_only_refl.
  unfold heap_only; cbn; tauto.
Qed.

Lemma emit_heap_only e : keeps heap_only (emit e).
Proof.
  intros w. unfold emit, mbind, M_bind, gets.
  apply assign_child_heap_only.
Qed.

Lemma on_stream_heap_only field c : keeps heap_only (on_stream field c).
Proof.
  intros w. unfold on_stream, mbind, M_bind, the_child, gets.
  destruct (this_child (self w)) as [r|]; [|apply heap_only_refl].
  destruct (heap w !! r) as [[ch|s]|]; cbn; try apply heap_only_refl.
  destruct (field ch) as [s|]; cbn; [|apply heap_only_refl].
  destruct (heap w !! s) as [[ch'|calls]|]; cbn; try apply heap_only_refl.
  unfold lift. destruct (accept c) as [[]|x]; cbn; [|apply heap_only_refl].
  unfold heap_only; cbn; tauto.
Qed.

Lemma resume_heap_only exitCode signal stdout stderr :
  keeps heap_only (resume exitCode signal stdout stderr).
Proof.
  unfold resume.
  repeat (apply keeps_bind;
          [exact heap_only_refl | exact heap_only_trans | | intros _]);
    try apply assign_child_heap_only; try apply on_stream_heap_only;
    try apply emit_heap_only.
  all: destruct (truthy _); try apply on_stream_heap_only;
    intros w; apply heap_only_refl.
Qed.

Section Getters.
Variable fn : nat -> callback.

Ltac getter :=
  intro; cbn zeta;
  unfold get_exitCode, get_signal, get_stdout, get_stderr, mbind, M_bind, gets;
  match goal with
  | |- context [mock_outcome fn ?m _] => destruct m eqn:?
  end; cbn [mock_outcome mock_calls mock_invocation];
  try (cbn; rewrite app_nil_r; split; [|split; [|split; [|split]]]; auto using frame_refl; fail);
  match goal with
  | |- context [call fn ?f [] ?w] =>
      let R := fresh in let F := fresh in let C := fresh in let I := fresh in
      destruct (call_spec fn f [] w) as (R & F & C & I);
      split; [|split; [|split; [|split]]]; auto; apply call_quiet
  end.

Lemma get_exitCode_spec : getter_spec fn mock_exitCode (get_exitCode fn).
Proof. getter. Qed.

Lemma get_signal_spec : getter_spec fn mock_signal (get_signal fn).
Proof. getter. Qed.

Lemma get_stdout_spec : getter_spec fn mock_stdout (get_stdout fn).
Proof. getter. Qed.

Lemma get_stderr_spec : getter_spec fn mock_stderr (get_stderr fn).
Proof. getter. Qed.

End Getters.

(** ** The event loop and the interceptor *)

Section Loop.
Variable fn : nat -> callback.

Lemma reads_only_refl w : reads_only w w.
Proof. unfold reads_only, same_but_mocks; tauto. Qed.

Lemma reads_only_trans a b c : reads_only a b -> reads_only b c -> reads_only a c.
Proof. unfold reads_only, same_but_mocks; intuition congruence. Qed.

Lemma frame_reads_only w w' :
  frame w w' -> this_command (self w') = this_command (self w) -> reads_only w w'.
Proof. unfold frame, reads_only, same_but_mocks; intuition congruence. Qed.

Lemma getter_reads_only field getter :
  getter_spec fn field getter -> keeps reads_only getter.
Proof.
  intros H w. destruct (H w) as (_ & F & C & _). apply frame_reads_only; assumption.
Qed.

Lemma enqueue_reads_only t : keeps reads_only (enqueue t).
Proof. intros w. unfold reads_only, same_but_mocks; cbn; tauto. Qed.

Lemma resolve_reads_only : keeps reads_only (resolve fn).
Proof.
  unfold resolve.
  apply keeps_bind; [exact reads_only_refl | exact reads_only_trans
    | apply (getter_reads_only _ _ (get_exitCode_spec fn)) | intros exitCode].
  apply keeps_bind; [exact reads_only_refl | exact reads_only_trans
    | apply (getter_reads_only _ _ (get_signal_spec fn)) | intros signal].
  apply keeps_bind; [exact reads_only_refl | exact reads_only_trans
    | apply (getter_reads_only _ _ (get_stdout_spec fn)) | intros stdout].
  apply keeps_bind; [exact reads_only_refl | exact reads_only_trans
    | apply (getter_reads_only _ _ (get_stderr_spec fn)) | intros stderr].
  destruct (await exitCode), (await signal), (await stdout), (await stderr);
    first [apply enqueue_reads_only | intros w; apply reads_only_refl].
Qed.

(** A turn of the event loop writes no field of the interceptor but,
    through the functions it calls, the mocks. *)
Lemma tick_same_but_mocks w : same_but_mocks (self w) (self (tick fn w)).
Proof.
  unfold tick. destruct (pending w) as [|t rest]; [unfold same_but_mocks; tauto|].
  set (w1 := with_now S _).
  assert (H : same_but_mocks (self w1) (self (after (run_task fn t w1)))).
  { destruct t as [|e s o r]; cbn [run_task].
    - apply resolve_reads_only.
    - destruct (resume_heap_only e s o r w1) as (-> & _).
      unfold same_but_mocks; tauto. }
  destruct (run_task fn t w1) as [[[]|e] w2]; exact H.
Qed.

(** Only [run] writes [called], and it writes [true]. *)
Lemma step_called a w :
  this_called (self (step fn a w)) =
    match a with
    | Invoke _ _ _ => true
    | _ => this_called (self w)
    end.
Proof.
  destruct a as [c|command args options|command args options| |]; cbn [step].
  - apply (perform_frame c w).
  - apply (match_frame fn command args options w).
  - rewrite run_spec. reflexivity.
  - apply (tick_same_but_mocks w).
  - reflexivity.
Qed.

Lemma steps_called acts w :
  this_called (self w) = true -> this_called (self (steps fn acts w)) = true.
Proof.
  revert w; induction acts as [|a acts IH]; intros w H; [exact H|].
  cbn. apply IH. rewrite step_called. destruct a; auto.
Qed.

(** What [run] recorded stays, whatever else happens to the interceptor. *)
Lemma step_calledWith a w :
  is_invoke a = false ->
  this_called (self (step fn a w)) = this_called (self w) /\
  this_calledWith (self (step fn a w)) = this_calledWith (self w).
Proof.
  destruct a as [c|command args options|command args options| |]; cbn [step is_invoke];
    intros H; try discriminate.
  - split; apply (perform_frame c w).
  - split; apply (match_frame fn command args options w).
  - split; apply (tick_same_but_mocks w).
  - split; reflexivity.
Qed.

Lemma steps_calledWith acts w :
  existsb is_invoke acts = false ->
  this_called (self (steps fn acts w)) = this_called (self w) /\
  this_calledWith (self (steps fn acts w)) = this_calledWith (self w).
Proof.
  revert w. induction acts as [|a acts IH]; intros w H; [split; reflexivity|].
  cbn [existsb] in H. apply orb_false_iff in H as [Ha H].
  cbn [steps fold_left]. fold (steps fn acts (step fn a w)).
  destruct (IH (step fn a w) H) as [-> ->]. apply step_calledWith, Ha.
Qed.

End Loop.


(** ** The history of a handle *)

Lemma exits_mono t n m log : n <= m -> exits t n log -> exits t m log.
Proof.
  intros H E. induction E as [|log t' code signal E IH Ht Hn]; constructor; auto; lia.
Qed.

Lemma history_mono n m log : n <= m -> history n log -> history m log.
Proof.
  intros H [->|(t & rest & -> & Ht & E)]; [left; reflexivity|].
  right. exists t, rest. split; [reflexivity|]. split; [lia|].
  apply exits_mono with n; assumption.
Qed.

Lemma tidy_mono n m w : n <= m -> tidy n w -> tidy m w.
Proof.
  intros H [T1 T2]. split; [|exact T2].
  intros h c E. apply history_mono with n; [exact H|]. apply (T1 h c E).
Qed.

Lemma tidy_same n w w' :
  heap w' = heap w -> this_child (self w') = this_child (self w) ->
  tidy n w -> tidy n w'.
Proof. unfold tidy. intros -> ->. tauto. Qed.

Lemma hoare_bind {A B : Type} (P R Q : World -> Prop) (m : M A) (k : A -> M B) :
  hoare P R m -> (forall a, hoare R Q (k a)) -> (forall w, R w -> Q w) ->
  hoare P Q (m ≫= k).
Proof.
  intros Hm Hk HRQ w HP. unfold mbind, M_bind. specialize (Hm w HP).
  destruct (m w) as [[a|e] w1]; cbn in *; [apply Hk, Hm|apply HRQ, Hm].
Qed.

Lemma assign_child_early n f :
  (forall c, child_emitted (f c) = child_emitted c) ->
  hoare (early n) (early n) (assign_child f).
Proof.
  intros Hf w Hw. unfold assign_child, mbind, M_bind, the_child.
  destruct (this_child (self w)) as [r|] eqn:Er; [|exact Hw].
  destruct (heap w !! r) as [[c|s]|] eqn:Ec; cbn; try exact Hw.
  destruct Hw as [[T1 T2] Hn].
  split; [|exact Hn]. split.
  - intros h c'. cbn [heap with_heap]. destruct (decide (h = r)) as [->|Hne].
    + rewrite list_lookup_insert_eq by (apply lookup_lt_Some in Ec; exact Ec).
      intros [= <-]. rewrite Hf. apply (T1 r c Ec).
    + rewrite list_lookup_insert_ne by congruence. apply T1.
  - intros h c'. cbn [heap self with_heap]. rewrite Er. intros [= <-].
    rewrite list_lookup_insert_eq by (apply lookup_lt_Some in Ec; exact Ec).
    intros [= <-]. rewrite Hf. apply (T2 r c Er Ec).
Qed.

Lemma on_stream_early n field c : hoare (early n) (early n) (on_stream field c).
Proof.
  intros w Hw. unfold on_stream, mbind, M_bind, the_child, gets.
  destruct (this_child (self w)) as [r|] eqn:Er; [|exact Hw].
  destruct (heap w !! r) as [[ch|s]|] eqn:Ec; cbn; try exact Hw.
  destruct (field ch) as [s|]; cbn; [|exact Hw].
  destruct (heap w !! s) as [[ch'|calls]|] eqn:Es; cbn; try exact Hw.
  unfold lift. destruct (accept c) as [[]|x]; cbn; [|exact Hw].
  destruct Hw as [[T1 T2] Hn].
  assert (Hs : forall h c', <[s := OStream (calls ++ [c])]> (heap w) !! h = Some (OChild c') ->
                            heap w !! h = Some (OChild c')).
  { intros h c'. destruct (decide (h = s)) as [->|Hne].
    - rewrite list_lookup_insert_eq by (apply lookup_lt_Some in Es; exact Es). discriminate.
    - rewrite list_lookup_insert_ne by congruence. auto. }
  split; [|exact Hn]. split.
  - intros h c' E. apply (T1 h c'), Hs, E.
  - intros h c' E1 E2. apply (T2 h c' E1), Hs, E2.
Qed.

Lemma emit_exit_close n code signal :
  hoare (early n) (fun w => tidy (now w) w)
        (emit (Exit code signal);; emit (Close code signal)).
Proof.
  intros w [T0 Hn].
  assert (T : tidy (now w) w) by (apply tidy_mono with n; [lia|exact T0]).
  unfold emit, assign_child, mbind, M_bind, the_child, gets, modify.
  cbn [fst snd].
  destruct (this_child (self w)) as [r|] eqn:Er; [|exact T].
  destruct (heap w !! r) as [[c|s]|] eqn:Ec; cbn [after snd fst]; try exact T.
  pose proof (lookup_lt_Some _ _ _ Ec) as Hr. destruct T0 as [T1 T2].
  cbn [with_heap self heap now]. rewrite Er.
  rewrite list_lookup_insert_eq by exact Hr. cbn [after snd fst with_heap heap now self].
  unfold tidy, with_heap, child_with_emitted. cbn [heap self child_emitted].
  rewrite list_insert_insert_eq.
  split.
  - intros h c'. cbn [heap]. destruct (decide (h = r)) as [->|Hne].
    + rewrite list_lookup_insert_eq by exact Hr. intros [= <-]. cbn [child_emitted].
      destruct (T1 r c Ec) as [E|(t & rest & E & Ht & Hx)];
        [destruct (T2 r c Er Ec E)|].
      right. exists t, (rest ++ [(now w, Exit code signal); (now w, Close code signal)]).
      rewrite E, <- app_assoc. cbn [app].
      split; [reflexivity|]. split; [lia|].
      apply exits_more; [apply exits_mono with n; [lia|exact Hx]|lia|lia].
    + rewrite list_lookup_insert_ne by congruence. intros E.
      apply history_mono with n; [lia|]. apply (T1 h c' E).
  - intros h c'. cbn [heap self]. rewrite Er. intros [= <-].
    rewrite list_lookup_insert_eq by exact Hr. intros [= <-]. cbn [child_emitted].
    intros E. apply app_eq_nil in E as [E _]. apply app_eq_nil in E as [_ E]. discriminate.
Qed.

Section History.
Variable fn : nat -> callback.

Lemma early_tidy n w : early n w -> tidy (now w) w.
Proof. intros [T H]. apply tidy_mono with n; [lia|exact T]. Qed.

(** The rest of the resolution emits, if anything, [exit] and [close]. *)
Lemma resume_tidy n e s o r :
  hoare (early n) (fun w => tidy (now w) w) (resume e s o r).
Proof.
  unfold resume.
  repeat (apply hoare_bind with (early n);
          [first [apply assign_child_early; reflexivity
                 |apply on_stream_early
                 |destruct (truthy _); [apply on_stream_early|intros w H; exact H]]
          |intros _
          |apply early_tidy]).
  apply emit_exit_close.
Qed.

Lemma tick_tidy w : tidy (now w) w -> tidy (now (tick fn w)) (tick fn w).
Proof.
  intros T. unfold tick. destruct (pending w) as [|t rest]; [exact T|].
  set (w1 := with_now S _).
  assert (E : early (now w) w1) by (split; [exact T|cbn; lia]).
  assert (H : tidy (now (after (run_task fn t w1))) (after (run_task fn t w1))).
  { destruct t as [|e s o r]; cbn [run_task].
    - destruct (resolve_reads_only fn w1) as (S & Hh & Hn).
      apply early_tidy with (now w). split; [|rewrite Hn; cbn; lia].
      apply tidy_same with w1; [exact Hh|apply S|exact T].
    - apply (resume_tidy (now w) e s o r w1 E). }
  destruct (run_task fn t w1) as [[[]|e] w2]; exact H.
Qed.

Lemma frame_tidy w w' : frame w w' -> tidy (now w) w -> tidy (now w') w'.
Proof.
  intros (Hh & Hn & _ & _ & _ & _ & Hc & _) T.
  rewrite Hn. apply tidy_same with w; assumption.
Qed.

Lemma step_tidy a w : tidy (now w) w -> tidy (now (step fn a w)) (step fn a w).
Proof.
  intros T. destruct a as [c|command args options|command args options| |]; cbn [step].
  - apply frame_tidy with w; [apply (perform_frame c w)|exact T].
  - apply frame_tidy with w; [apply (match_frame fn command args options w)|exact T].
  - rewrite run_spec. cbn [after snd now]. destruct T as [T1 T2]. split.
    + intros h c. cbn [heap]. intros E.
      apply lookup_app_Some in E as [E|[Hl E]]; [apply (T1 h c E)|].
      destruct (h - length (heap w)) as [|[|[|[|k]]]]; try discriminate.
      injection E as <-. right. exists (now w), []. repeat split; [lia|constructor].
    + intros h c. cbn [self this_child heap]. intros [= <-].
      rewrite list_lookup_middle by reflexivity. intros [= <-]. discriminate.
  - apply tick_tidy, T.
  - apply tidy_mono with (now w); [cbn; lia|exact T].
Qed.

Lemma steps_tidy acts w :
  tidy (now w) w -> tidy (now (steps fn acts w)) (steps fn acts w).
Proof.
  revert w. induction acts as [|a acts IH]; intros w T; [exact T|].
  cbn [steps fold_left]. apply (IH (step fn a w)). apply step_tidy, T.
Qed.

Lemma new_Interceptor_tidy command args options :
  tidy 0 (new_Interceptor command args options).
Proof.
  split.
  - intros [|h] c; [|discriminate]. intros [= <-]. left. reflexivity.
  - intros h c. discriminate.
Qed.

(** Whatever is done to an interceptor, in whatever order, every handle
    has a history. *)
Lemma steps_history command args options acts h c :
  let w := steps fn acts (new_Interceptor command args options) in
  heap w !! h = Some (OChild c) -> history (now w) (child_emitted c).
Proof.
  intros w. apply (steps_tidy acts (new_Interceptor command args options)).
  apply new_Interceptor_tidy.
Qed.

End History.

(** ** The resolution *)

Section Resolution.
Variable fn : nat -> callback.

Ltac reads :=
  intros w; cbn zeta;
  unfold get_exitCode, get_signal, get_stdout, get_stderr, mbind, M_bind, gets,
         after_reading;
  match goal with
  | |- context [mock_outcome fn ?m _] => destruct m eqn:?
  end; cbn [mock_outcome mock_calls mock_invocation];
  [destruct w as [hp [m c a o cl cw ch] n q inv un]
  |unfold call;
   match goal with
   | |- context [fn ?f ?this ?args] => destruct (fn f this args) as [calls outcome]
   end; rewrite perform_all_configured; reflexivity
  |destruct w as [hp [m c a o cl cw ch] n q inv un]
  |destruct w as [hp [m c a o cl cw ch] n q inv un]];
  unfold with_self, with_mocks, with_invoked; cbn; rewrite app_nil_r, configured_nil;
  reflexivity.

Lemma get_exitCode_reads : reads fn mock_exitCode (get_exitCode fn).
Proof. reads. Qed.

Lemma get_signal_reads : reads fn mock_signal (get_signal fn).
Proof. reads. Qed.

Lemma get_stdout_reads : reads fn mock_stdout (get_stdout fn).
Proof. reads. Qed.

Lemma get_stderr_reads : reads fn mock_stderr (get_stderr fn).
Proof. reads. Qed.

(** When the four mocks, read one after the other, complete normally and
    are fulfilled, [resolve] queues the rest of the resolution with their
    values. *)
Lemma api_with_mocks f i : api (with_mocks f i) = api i.
Proof. destruct i; reflexivity. Qed.

Lemma this_mocks_with_mocks f i : this_mocks (with_mocks f i) = f (this_mocks i).
Proof. destruct i; reflexivity. Qed.

Lemma with_mocks_twice m m' i :
  with_mocks (fun _ => m') (with_mocks (fun _ => m) i) = with_mocks (fun _ => m') i.
Proof. destruct i; reflexivity. Qed.

Lemma reads_at field getter hp i n q inv un :
  reads fn field getter ->
  getter (mkWorld hp i n q inv un) =
    (mock_outcome fn (field (this_mocks i)) (api i),
     mkWorld hp (with_mocks (fun _ => after_reading fn field (api i) (this_mocks i)) i) n q
       (inv ++ mock_invocation n (field (this_mocks i)) (api i)) un).
Proof. intros R. rewrite R. reflexivity. Qed.

Lemma resolve_reads w v1 v2 v3 v4 r1 r2 r3 r4 :
  let this := api (self w) in
  let m0 := this_mocks (self w) in
  let m1 := after_reading fn mock_exitCode this m0 in
  let m2 := after_reading fn mock_signal this m1 in
  let m3 := after_reading fn mock_stdout this m2 in
  let m4 := after_reading fn mock_stderr this m3 in
  mock_outcome fn (mock_exitCode m0) this = Normal v1 ->
  mock_outcome fn (mock_signal m1) this = Normal v2 ->
  mock_outcome fn (mock_stdout m2) this = Normal v3 ->
  mock_outcome fn (mock_stderr m3) this = Normal v4 ->
  await v1 = Fulfilled r1 -> await v2 = Fulfilled r2 ->
  await v3 = Fulfilled r3 -> await v4 = Fulfilled r4 ->
  resolve fn w =
    (Normal tt,
     mkWorld (heap w) (with_mocks (fun _ => m4) (self w)) (now w)
       (pending w ++ [Resume r1 r2 r3 r4])
       (invoked w ++
        mock_invocation (now w) (mock_exitCode m0) this ++
        mock_invocation (now w) (mock_signal m1) this ++
        mock_invocation (now w) (mock_stdout m2) this ++
        mock_invocation (now w) (mock_stderr m3) this)
       (unhandled w)).
Proof.
  destruct w as [hp i n q inv un]. cbn [heap self now pending invoked unhandled].
  set (this := api i). set (m0 := this_mocks i).
  set (m1 := after_reading fn mock_exitCode this m0).
  set (m2 := after_reading fn mock_signal this m1).
  set (m3 := after_reading fn mock_stdout this m2).
  set (m4 := after_reading fn mock_stderr this m3).
  intros O1 O2 O3 O4 A1 A2 A3 A4.
  unfold resolve, mbind, M_bind.
  rewrite (reads_at _ _ _ _ _ _ _ _ get_exitCode_reads). fold this m0 m1. rewrite O1.
  rewrite (reads_at _ _ _ _ _ _ _ _ get_signal_reads).
  rewrite api_with_mocks, this_mocks_with_mocks, with_mocks_twice. fold this m2. rewrite O2.
  rewrite (reads_at _ _ _ _ _ _ _ _ get_stdout_reads).
  rewrite api_with_mocks, this_mocks_with_mocks, with_mocks_twice. fold this m3. rewrite O3.
  rewrite (reads_at _ _ _ _ _ _ _ _ get_stderr_reads).
  rewrite api_with_mocks, this_mocks_with_mocks, with_mocks_twice. fold this m4. rewrite O4.
  rewrite A1, A2, A3, A4.
  unfold enqueue, modify, with_pending.
  cbn [heap self now pending invoked unhandled].
  rewrite <- !app_assoc. reflexivity.
Qed.

(** Whatever the mocks do, [resolve] reads, and queues the rest of the
    resolution or nothing. *)
Lemma resolve_outcome w :
  let w' := after (resolve fn w) in
  reads_only w w' /\
  unhandled w' = unhandled w /\
  (pending w' = pending w \/
   exists e s o r, pending w' = pending w ++ [Resume e s o r] /\
                   result (resolve fn w) = Normal tt).
Proof.
  cbn zeta. unfold resolve, mbind, M_bind.
  destruct (get_exitCode_spec fn w) as (_ & F1 & C1 & _).
  destruct (get_exitCode fn w) as [[v1|e1] w1]; cbn [after snd result fst] in F1, C1 |- *;
    [|split; [apply frame_reads_only; assumption|split; [apply F1|left; apply F1]]].
  destruct (get_signal_spec fn w1) as (_ & F2 & C2 & _).
  pose proof (frame_trans _ _ _ F1 F2) as F12.
  destruct (get_signal fn w1) as [[v2|e2] w2]; cbn [after snd result fst] in F2, C2, F12 |- *;
    [|split; [apply frame_reads_only; [assumption|congruence]
             |split; [apply F12|left; apply F12]]].
  destruct (get_stdout_spec fn w2) as (_ & F3 & C3 & _).
  pose proof (frame_trans _ _ _ F12 F3) as F13.
  destruct (get_stdout fn w2) as [[v3|e3] w3]; cbn [after snd result fst] in F3, C3, F13 |- *;
    [|split; [apply frame_reads_only; [assumption|congruence]
             |split; [apply F13|left; apply F13]]].
  destruct (get_stderr_spec fn w3) as (_ & F4 & C4 & _).
  pose proof (frame_trans _ _ _ F13 F4) as F14.
  destruct (get_stderr fn w3) as [[v4|e4] w4]; cbn [after snd result fst] in F4, C4, F14 |- *;
    [|split; [apply frame_reads_only; [assumption|congruence]
             |split; [apply F14|left; apply F14]]].
  assert (R : reads_only w w4) by (apply frame_reads_only; [assumption|congruence]).
  assert (P : pending w4 = pending w) by apply F14.
  assert (U : unhandled w4 = unhandled w) by apply F14.
  destruct (await v1), (await v2), (await v3), (await v4); cbn;
    (split; [exact R|split; [exact U|]]);
    first [left; exact P | right; rewrite P; eauto 10].
Qed.

End Resolution.

(** The rest of the resolution, on the handle of a spawned interceptor:
    it goes through when what the streams are given can be written, and
    stops at the first write that throws. *)
Lemma resume_spec i t q inv un args e0 s0 log e s o r :
  this_child i = Some handle ->
  resume e s o r
    (mkWorld [OChild fresh_ChildProcess; OChild (spawned_child args e0 s0 log);
              OStream []; OStream []; OStream []] i t q inv un) =
    if writable o then
      if writable r then
        (Normal tt,
         mkWorld [OChild fresh_ChildProcess;
                  OChild (spawned_child args e s
                            ((log ++ [(t, Exit e s)]) ++ [(t, Close e s)]));
                  OStream []; OStream (written o); OStream (written r)] i t q inv un)
      else
        (Throw (write_error r),
         mkWorld [OChild fresh_ChildProcess; OChild (spawned_child args e s log);
                  OStream []; OStream (written o); OStream []] i t q inv un)
    else
      (Throw (write_error o),
       mkWorld [OChild fresh_ChildProcess; OChild (spawned_child args e s log);
                OStream []; OStream []; OStream []] i t q inv un).
Proof.
  intros H. destruct i as [mocks command args' options called calledWith child].
  cbn in H. subst child. unfold resume, written, writable, write_error.
  destruct o as [[| |[]|n|x|l|p]|f|re|pr];
    cbn [truthy truthy_data is_string accept negb orb];
    try destruct (n =? 0)%Z; try destruct (String.eqb x "");
    cbn [negb orb];
    (destruct r as [[| |[]|n'|x'|l'|p']|f'|re'|pr'];
     cbn [truthy truthy_data is_string accept negb orb];
     try destruct (n' =? 0)%Z; try destruct (String.eqb x' "");
     reflexivity).
Qed.

(** ** The stages of an interceptor *)

Lemma in_stage_frame st w w' : frame w w' -> in_stage st w -> in_stage st w'.
Proof.
  intros (Hh & Hn & Hp & _ & Hc & Hw & Hr & _) (P & T & S).
  unfold in_stage. rewrite Hp, Hn, Hc, Hw, Hr, Hh.
  split; [exact P|]. split; [exact T|]. exact S.
Qed.

Lemma timely_later st n : timely st n -> timely st (S n).
Proof. destruct st; cbn; lia. Qed.

Lemma in_stage_turn st w : in_stage st w -> in_stage st (with_now S w).
Proof.
  intros (P & T & S). split; [exact P|]. split; [apply timely_later, T|exact S].
Qed.

Lemma stage_new command args options :
  in_stage Registered (new_Interceptor command args options).
Proof. repeat split. Qed.

Lemma stage_called st w :
  in_stage st w -> this_called (self w) = false -> st = Registered.
Proof.
  intros (_ & _ & S) H. destruct st; [reflexivity|..];
    destruct S as (C & _); congruence.
Qed.

(** [run] on an interceptor that has not been called. *)
Lemma run_registered command args options w :
  in_stage Registered w ->
  run command args options w =
    (Normal handle,
     mkWorld (heap_at (Spawned (now w)) args)
       (mkInterceptor (this_mocks (self w)) (this_command (self w))
          (this_args (self w)) (this_options (self w)) true
          (Some (mkCalledWith command args options)) (Some handle))
       (now w) [Resolve] (invoked w) (unhandled w)).
Proof.
  intros (P & _ & _ & _ & _ & H). rewrite run_spec. cbn zeta.
  rewrite H, P. reflexivity.
Qed.

Lemma stage_run command args options w :
  in_stage Registered w ->
  in_stage (Spawned (now w)) (after (run command args options w)).
Proof.
  intros H. rewrite (run_registered _ _ _ _ H).
  split; [reflexivity|]. split; [cbn; lia|].
  split; [reflexivity|]. split; [reflexivity|].
  eexists. split; reflexivity.
Qed.

Lemma heap_at_settled t n e s o r args :
  heap_at (settled t n e s o r) args =
    if writable o then
      if writable r then
        [OChild fresh_ChildProcess;
         OChild (spawned_child args e s [(t, Spawn); (n, Exit e s); (n, Close e s)]);
         OStream []; OStream (written o); OStream (written r)]
      else
        [OChild fresh_ChildProcess; OChild (spawned_child args e s [(t, Spawn)]);
         OStream []; OStream (written o); OStream []]
    else
      [OChild fresh_ChildProcess; OChild (spawned_child args e s [(t, Spawn)]);
       OStream []; OStream []; OStream []].
Proof. unfold settled. destruct (writable o); [destruct (writable r)|]; reflexivity. Qed.

Lemma pending_at_settled t n e s o r : pending_at (settled t n e s o r) = [].
Proof. unfold settled. destruct (writable o); [destruct (writable r)|]; reflexivity. Qed.

Lemma timely_settled t n e s o r : t < n -> timely (settled t n e s o r) n.
Proof.
  intros H. unfold settled. destruct (writable o); [destruct (writable r)|]; cbn; lia.
Qed.

Lemma settled_called t n e s o r : settled t n e s o r <> Registered.
Proof. unfold settled. destruct (writable o); [destruct (writable r)|]; discriminate. Qed.

Section Stages.
Variable fn : nat -> callback.

(** The turn of the event loop that runs the rest of the resolution. *)
Lemma tick_resume i t q inv un args e0 s0 t0 e s o r :
  this_child i = Some handle ->
  tick fn (mkWorld [OChild fresh_ChildProcess;
                    OChild (spawned_child args e0 s0 [(t0, Spawn)]);
                    OStream []; OStream []; OStream []]
             i t (Resume e s o r :: q) inv un) =
    mkWorld (heap_at (settled t0 (S t) e s o r) args) i (S t) q inv
      (un ++ failure o r).
Proof.
  intros R. unfold tick. cbn [pending run_task].
  unfold with_now, with_pending. cbn [heap self now pending invoked unhandled].
  rewrite resume_spec by exact R. rewrite heap_at_settled. unfold failure.
  destruct (writable o); [destruct (writable r)|]; unfold with_unhandled;
    cbn [heap self now pending invoked unhandled]; rewrite ?app_nil_r; reflexivity.
Qed.

(** What a turn of the event loop makes of each stage. *)
Lemma stage_tick st w :
  in_stage st w ->
  match st with
  | Spawned t =>
      (exists e s o r, in_stage (Awaited t e s o r) (tick fn w)) \/
      in_stage (Stalled t) (tick fn w)
  | Awaited t e s o r => in_stage (settled t (S (now w)) e s o r) (tick fn w)
  | _ => tick fn w = w
  end.
Proof.
  intros (P & T & S).
  destruct st as [|t|t e s o r|t|t t' e s o r|t e s out]; cbn [pending_at] in P;
    try (unfold tick; rewrite P; reflexivity).
  - unfold tick. rewrite P. cbn [run_task]. set (w1 := with_now _ _).
    destruct S as (C & R & cw & W & H).
    destruct (resolve_outcome fn w1) as (((Cc & Ca & Co & Cl & Cw & Cr) & Hh & Hn) & U & Q).
    assert (G : forall w2 st,
               pending w2 = pending_at st -> timely st (now w2) ->
               st <> Registered ->
               (forall a, heap_at st a = heap_at (Spawned t) a) ->
               self w2 = self (after (resolve fn w1)) ->
               heap w2 = heap w -> in_stage st w2).
    { intros w2 st P2 T2 N K E2 H2. split; [exact P2|]. split; [exact T2|].
      rewrite E2, Cl, Cr, Cw, H2.
      assert (G : this_called (self w) = true /\ this_child (self w) = Some handle /\
                  exists cw, this_calledWith (self w) = Some cw /\
                             heap w = heap_at st (cw_args cw)).
      { split; [exact C|]. split; [exact R|]. exists cw. rewrite K. auto. }
      destruct st; [congruence|exact G..]. }
    cbn in T.
    destruct Q as [Q|(e & s & o & r & Q & N)].
    + right. destruct (resolve fn w1) as [[[]|x] w2]; cbn [after snd] in *;
        (apply G; [cbn; rewrite Q; reflexivity | cbn; rewrite Hn; cbn; lia | discriminate
                  | reflexivity | reflexivity | cbn; rewrite Hh; reflexivity]).
    + left. exists e, s, o, r.
      destruct (resolve fn w1) as [[[]|x] w2]; cbn [after snd result fst] in *;
        [|discriminate].
      apply G; [cbn; rewrite Q; reflexivity | cbn; rewrite Hn; cbn; lia | discriminate
               | reflexivity | reflexivity | cbn; rewrite Hh; reflexivity].
  - destruct S as (C & R & cw & W & H).
    destruct w as [hp i n q inv un]. cbn in *. subst hp q.
    rewrite tick_resume by exact R.
    split; [symmetry; apply pending_at_settled|].
    split; [apply timely_settled; cbn; lia|].
    cbn [heap self].
    assert (G : this_called i = true /\ this_child i = Some handle /\
                exists cw0, this_calledWith i = Some cw0 /\
                  heap_at (settled t (S n) e s o r) (cw_args cw) =
                  heap_at (settled t (S n) e s o r) (cw_args cw0)) by eauto.
    pose proof (settled_called t (S n) e s o r) as N.
    destruct (settled t (S n) e s o r); [congruence|exact G..].
Qed.

(** An interceptor used as its contract requires is always in a stage. *)
Lemma reachable_stage w : reachable fn w -> exists st, in_stage st w.
Proof.
  induction 1 as [command args options|w c _ [st IH]|w command args options _ [st IH]
                 |w command args options _ [st IH] Hc|w _ [st IH]|w _ [st IH]].
  - exists Registered. apply stage_new.
  - exists st. eapply in_stage_frame; [|exact IH]. apply (perform_frame c w).
  - exists st. eapply in_stage_frame; [|exact IH].
    apply (match_frame fn command args options w).
  - rewrite (stage_called _ _ IH Hc) in IH. eexists. apply stage_run, IH.
  - pose proof (stage_tick st w IH) as T. cbn [step].
    destruct st; try (rewrite T; eauto; fail).
    + destruct T as [(e & s & o & r & T)|T]; eauto.
    + eauto.
  - exists st. apply in_stage_turn, IH.
Qed.

(** The two turns after [run], when the mocks, read one after the other,
    complete normally and are fulfilled. *)
Lemma resolution_completes w command args options v1 v2 v3 v4 r1 r2 r3 r4 :
  in_stage Registered w ->
  let w1 := after (run command args options w) in
  let this := api (self w1) in
  let m0 := this_mocks (self w1) in
  let m1 := after_reading fn mock_exitCode this m0 in
  let m2 := after_reading fn mock_signal this m1 in
  let m3 := after_reading fn mock_stdout this m2 in
  let m4 := after_reading fn mock_stderr this m3 in
  let calls :=
    mock_invocation (S (now w)) (mock_exitCode m0) this ++
    mock_invocation (S (now w)) (mock_signal m1) this ++
    mock_invocation (S (now w)) (mock_stdout m2) this ++
    mock_invocation (S (now w)) (mock_stderr m3) this in
  mock_outcome fn (mock_exitCode m0) this = Normal v1 ->
  mock_outcome fn (mock_signal m1) this = Normal v2 ->
  mock_outcome fn (mock_stdout m2) this = Normal v3 ->
  mock_outcome fn (mock_stderr m3) this = Normal v4 ->
  await v1 = Fulfilled r1 -> await v2 = Fulfilled r2 ->
  await v3 = Fulfilled r3 -> await v4 = Fulfilled r4 ->
  tick fn w1 =
    mkWorld (heap_at (Spawned (now w)) args) (with_mocks (fun _ => m4) (self w1))
      (S (now w)) [Resume r1 r2 r3 r4] (invoked w ++ calls) (unhandled w) /\
  tick fn (tick fn w1) =
    mkWorld (heap_at (settled (now w) (S (S (now w))) r1 r2 r3 r4) args)
      (with_mocks (fun _ => m4) (self w1)) (S (S (now w))) []
      (invoked w ++ calls) (unhandled w ++ failure r3 r4).
Proof.
  intros H w1 this m0 m1 m2 m3 m4 calls O1 O2 O3 O4 A1 A2 A3 A4.
  assert (E : w1 =
    mkWorld (heap_at (Spawned (now w)) args)
       (mkInterceptor (this_mocks (self w)) (this_command (self w))
          (this_args (self w)) (this_options (self w)) true
          (Some (mkCalledWith command args options)) (Some handle))
       (now w) [Resolve] (invoked w) (unhandled w))
    by (unfold w1; rewrite (run_registered _ _ _ _ H); reflexivity).
  clearbody w1. subst w1. cbn [self] in *.
  set (i := mkInterceptor _ _ _ _ _ _ _) in *.
  assert (T : forall hp inv un,
             tick fn (mkWorld hp i (now w) [Resolve] inv un) =
             mkWorld hp (with_mocks (fun _ => m4) i) (S (now w)) [Resume r1 r2 r3 r4]
               (inv ++ calls) un).
  { intros hp inv un. unfold tick. cbn [pending run_task].
    unfold with_now, with_pending. cbn [heap self now pending invoked unhandled].
    rewrite (resolve_reads fn _ v1 v2 v3 v4 r1 r2 r3 r4); try assumption.
    reflexivity. }
  rewrite T. split; [reflexivity|].
  cbn [heap_at]. rewrite tick_resume by reflexivity. reflexivity.
Qed.

End Stages.

Lemma stage_lifecycle st w h c :
  in_stage st w -> heap w !! h = Some (OChild c) ->
  lifecycle (now w) (child_emitted c).
Proof.
  intros (_ & T & S) L.
  assert (G : exists a, heap w = heap_at st a).
  { destruct st; [exists JUndefined; apply S|..];
      destruct S as (_ & _ & cw & _ & S); exists (cw_args cw); exact S. }
  destruct G as [a G]. rewrite G in L. clear S G.
  destruct st as [|t|t e s o r|t|t t' e s o r|t e s out]; cbn [heap_at] in L;
    repeat (destruct h as [|h]; cbn in L; try discriminate);
    injection L as <-; cbn in *;
    first [left; reflexivity
          | right; left; eexists; split; [reflexivity|lia]
          | right; right; do 4 eexists; split; [reflexivity|lia]].
Qed.

Lemma stage_handle st w h :
  in_stage st w -> this_child (self w) = Some h -> emitted_by h w <> [].
Proof.
  intros (_ & _ & S) R. unfold emitted_by, child_at.
  destruct st; [destruct S as (_ & _ & S & _); congruence|..];
    destruct S as (_ & R' & cw & _ & ->); rewrite R' in R; injection R as <-;
    discriminate.
Qed.

(** ** A resolution that does not complete *)

Section Stalling.
Variable fn : nat -> callback.

(** [resolve] when the exit code is not to be had: the function throws, or
    what it returns is a promise that is not fulfilled. *)
Lemma resolve_exit_code w :
  let m := mock_exitCode (this_mocks (self w)) in
  let out := mock_outcome fn m (api (self w)) in
  (forall e, out = Throw e ->
     result (resolve fn w) = Throw e /\
     pending (after (resolve fn w)) = pending w /\
     unhandled (after (resolve fn w)) = unhandled w /\
     invoked (after (resolve fn w)) = invoked w ++ mock_invocation (now w) m (api (self w))) /\
  (forall v, out = Normal v -> (forall r, await v <> Fulfilled r) ->
     pending (after (resolve fn w)) = pending w).
Proof.
  cbn zeta. unfold resolve, mbind, M_bind.
  destruct (get_exitCode_spec fn w) as (R1 & F1 & _ & I1 & _).
  destruct (get_exitCode fn w) as [[v1|e1] w1]; cbn [after snd result fst] in *.
  - split; [intros e E; congruence|]. intros v E N. rewrite <- R1 in E. injection E as ->.
    destruct (get_signal_spec fn w1) as (_ & F2 & _).
    pose proof (frame_trans _ _ _ F1 F2) as F12.
    destruct (get_signal fn w1) as [[v2|e2] w2]; cbn [after snd] in *; [|apply F12].
    destruct (get_stdout_spec fn w2) as (_ & F3 & _).
    pose proof (frame_trans _ _ _ F12 F3) as F13.
    destruct (get_stdout fn w2) as [[v3|e3] w3]; cbn [after snd] in *; [|apply F13].
    destruct (get_stderr_spec fn w3) as (_ & F4 & _).
    pose proof (frame_trans _ _ _ F13 F4) as F14.
    destruct (get_stderr fn w3) as [[v4|e4] w4]; cbn [after snd] in *; [|apply F14].
    destruct (await v) as [r| |] eqn:A; [destruct (N r eq_refl)| |];
      destruct (await v2), (await v3), (await v4); cbn; apply F14.
  - split; [|intros v E; congruence]. intros e E. rewrite <- R1 in E. injection E as ->.
    split; [reflexivity|]. split; [apply F1|]. split; [apply F1|exact I1].
Qed.

Lemma spawned_stalls w t :
  in_stage (Spawned t) w -> pending (tick fn w) = [] -> in_stage (Stalled t) (tick fn w).
Proof.
  intros S P. destruct (stage_tick fn _ w S) as [(e & s & o & r & T)|T]; [|exact T].
  destruct T as (P' & _). rewrite P in P'. discriminate.
Qed.

Lemma stalled_step a w t :
  is_invoke a = false -> in_stage (Stalled t) w -> in_stage (Stalled t) (step fn a w).
Proof.
  intros N S. destruct a as [c|command args options|command args options| |];
    cbn [step is_invoke] in *; try discriminate.
  - eapply in_stage_frame; [apply (perform_frame c w)|exact S].
  - eapply in_stage_frame; [apply (match_frame fn command args options w)|exact S].
  - rewrite (stage_tick fn _ w S). exact S.
  - apply in_stage_turn, S.
Qed.

Lemma stalled_steps acts w t :
  existsb is_invoke acts = false ->
  in_stage (Stalled t) w -> in_stage (Stalled t) (steps fn acts w).
Proof.
  revert w. induction acts as [|a acts IH]; intros w N S; [exact S|].
  cbn [existsb] in N. apply orb_false_iff in N as [Na N].
  cbn [steps fold_left]. apply (IH _ N), stalled_step; assumption.
Qed.

(** A resolution that queues nothing leaves the handle as [run] made it,
    for good. *)
Lemma stalled_handle w t acts :
  in_stage (Spawned t) w -> pending (tick fn w) = [] ->
  existsb is_invoke acts = false ->
  let w' := steps fn acts (tick fn w) in
  exists args,
    child_at handle w' = Some (spawned_child args JNull JNull [(t, Spawn)]) /\
    stream_of child_stdout handle w' = Some [] /\
    stream_of child_stderr handle w' = Some [] /\
    pending w' = [].
Proof.
  intros Hs P N w'.
  pose proof (stalled_steps acts _ _ N (spawned_stalls w _ Hs P)) as S'.
  fold w' in S'. destruct S' as (P' & _ & _ & _ & cw & _ & Hh).
  exists (cw_args cw). unfold stream_of, child_at, stream_at. rewrite Hh.
  repeat split. exact P'.
Qed.

End Stalling.

(** ** A resolution that is over *)

Section Ending.
Variable fn : nat -> callback.

Lemma settled_step st a w :
  pending_at st = [] ->
  is_invoke a = false -> in_stage st w -> in_stage st (step fn a w).
Proof.
  intros P N Hs. destruct a as [c|command args options|command args options| |];
    cbn [step is_invoke] in *; try discriminate.
  - eapply in_stage_frame; [apply (perform_frame c w)|exact Hs].
  - eapply in_stage_frame; [apply (match_frame fn command args options w)|exact Hs].
  - assert (E : tick fn w = w)
      by (unfold tick; rewrite (proj1 Hs), P; reflexivity).
    rewrite E. exact Hs.
  - apply in_stage_turn, Hs.
Qed.

Lemma settled_steps st acts w :
  pending_at st = [] ->
  existsb is_invoke acts = false -> in_stage st w -> in_stage st (steps fn acts w).
Proof.
  intros P. revert w. induction acts as [|a acts IH]; intros w N Hs; [exact Hs|].
  cbn [existsb] in N. apply orb_false_iff in N as [Na N].
  cbn [steps fold_left]. apply (IH _ N), settled_step; assumption.
Qed.


End Ending.

(** * The specification, claim by claim *)

Section Claims.

Variable fn : nat -> callback.

(** C1. An interceptor whose [called] flag is set matches no call triple;
    after [run], whatever is done to the interceptor next, [match] returns
    [false] for every triple (the one it ran with included). *)
Theorem called_never_matches :
  (forall w command args options,
      this_called (self w) = true ->
      result (match_ fn command args options w) = Normal false) /\
  (forall w command args options acts command' args' options',
      result (match_ fn command' args' options'
                (steps fn acts (after (run command args options w))))
      = Normal false).
Proof.
  split.
  - intros w command args options H. rewrite match_called by exact H. reflexivity.
  - intros w command args options acts command' args' options'.
    rewrite match_called; [reflexivity|].
    apply steps_called. rewrite run_spec. reflexivity.
Qed.

(** C2 (amended). [run] emits [spawn] on the handle it returns before it
    returns, in the turn of the call, and only queues the resolution.
    Whatever is done to an interceptor, the log of events of a handle is at
    any time empty (the handle was never returned by [run]) or [spawn]
    followed by [exit] and [close] in pairs, the two emitted one after the
    other with the same code and signal in one turn of the event loop,
    later than the turn of [spawn].  On an interceptor used as its contract
    requires ([run] once: a [run] that follows a successful [match] is
    within that contract) there is at most one such pair.  [exit] and
    [close] are emitted, in the second turn the event loop gives to the
    interceptor after [run] and never again, when the four mocks, read one
    after the other, complete normally and are fulfilled and what [stdout]
    and [stderr] yield is falsy or a string. *)
Theorem spawn_then_exit_then_close :
  (forall w command args options,
      let r := run command args options w in
      result r = Normal (length (heap w)) /\
      emitted_by (length (heap w)) (after r) = [(now w, Spawn)] /\
      now (after r) = now w /\
      pending (after r) = pending w ++ [Resolve]) /\
  (forall command args options acts h c,
      let w := steps fn acts (new_Interceptor command args options) in
      heap w !! h = Some (OChild c) -> history (now w) (child_emitted c)) /\
  (forall w,
      reachable fn w ->
      (forall h c, heap w !! h = Some (OChild c) ->
                   lifecycle (now w) (child_emitted c)) /\
      (forall h, this_child (self w) = Some h -> emitted_by h w <> [])) /\
  (forall w command args options,
      reachable fn w ->
      result (match_ fn command args options w) = Normal true ->
      reachable fn (steps fn [Probe command args options;
                              Invoke command args options] w)) /\
  (forall w command args options v1 v2 v3 v4 r1 r2 r3 r4,
      reachable fn w ->
      this_called (self w) = false ->
      let w1 := after (run command args options w) in
      let this := api (self w1) in
      let m0 := this_mocks (self w1) in
      let m1 := after_reading fn mock_exitCode this m0 in
      let m2 := after_reading fn mock_signal this m1 in
      let m3 := after_reading fn mock_stdout this m2 in
      mock_outcome fn (mock_exitCode m0) this = Normal v1 ->
      mock_outcome fn (mock_signal m1) this = Normal v2 ->
      mock_outcome fn (mock_stdout m2) this = Normal v3 ->
      mock_outcome fn (mock_stderr m3) this = Normal v4 ->
      await v1 = Fulfilled r1 -> await v2 = Fulfilled r2 ->
      await v3 = Fulfilled r3 -> await v4 = Fulfilled r4 ->
      writable r3 = true -> writable r4 = true ->
      let done := [(now w, Spawn);
                   (S (S (now w)), Exit r1 r2);
                   (S (S (now w)), Close r1 r2)] in
      result (run command args options w) = Normal handle /\
      emitted_by handle w1 = [(now w, Spawn)] /\
      emitted_by handle (tick fn w1) = [(now w, Spawn)] /\
      emitted_by handle (tick fn (tick fn w1)) = done /\
      (forall acts,
          existsb is_invoke acts = false ->
          emitted_by handle (steps fn acts (tick fn (tick fn w1))) = done)).
Proof.
  split; [|split; [|split; [|split]]].
  - intros w command args options. cbn zeta. rewrite run_spec.
    cbn [result after fst snd now pending]. repeat split.
    unfold emitted_by, child_at. cbn [heap].
    rewrite list_lookup_middle by reflexivity. reflexivity.
  - intros command args options acts h c. apply steps_history.
  - intros w H. destruct (reachable_stage fn w H) as [st S]. split.
    + intros h c. apply stage_lifecycle with st. exact S.
    + intros h. apply stage_handle with st. exact S.
  - intros w command args options H T.
    apply reach_invoke; [apply reach_probe, H|].
    apply (match_true_not_called fn command args options w T).
  - intros w command args options v1 v2 v3 v4 r1 r2 r3 r4 H Hc w1 this m0 m1 m2 m3
           O1 O2 O3 O4 A1 A2 A3 A4 W3 W4 done.
    destruct (reachable_stage fn w H) as [st R].
    rewrite (stage_called _ _ R Hc) in R.
    destruct (resolution_completes fn w command args options v1 v2 v3 v4 r1 r2 r3 r4
                R O1 O2 O3 O4 A1 A2 A3 A4) as [T1 T2].
    fold w1 this m0 m1 m2 m3 in T1, T2.
    unfold settled, failure in T2. rewrite W3, W4 in T2.
    assert (E : w1 = _) by (unfold w1; rewrite (run_registered _ _ _ _ R); reflexivity).
    cbn [after snd] in E.
    split; [rewrite (run_registered _ _ _ _ R); reflexivity|].
    split; [rewrite E; reflexivity|].
    split; [rewrite T1; reflexivity|].
    split; [rewrite T2; reflexivity|].
    intros acts N.
    assert (Hs : in_stage (Exited (now w) (S (S (now w))) r1 r2 r3 r4)
                   (tick fn (tick fn w1))).
    { rewrite T2, E. split; [reflexivity|]. split; [cbn; lia|].
      split; [reflexivity|]. split; [reflexivity|]. eexists. split; reflexivity. }
    pose proof (settled_steps fn (Exited (now w) (S (S (now w))) r1 r2 r3 r4) acts _
                  eq_refl N Hs) as (_ & _ & _ & _ & cw & _ & Hh).
    unfold emitted_by, child_at. rewrite Hh. reflexivity.
Qed.

(** C3 (amended). With a mapping as the options spec, [match] fails unless
    [compareOptions] accepts the call's options, and what [match] returns
    is what [compareOptions] returns when the command is the registered
    string and no args were registered.  [compareOptions] lets a call
    through exactly when every one of the ten recognised keys that the
    spec has reads, in the call's options, as a value with the same JSON
    text (a key the call lacks reads as [undefined]) and the environment
    agrees key by key, a key being read in the call's environment with
    what it inherits.  Keys of the call that the spec lacks are ignored; so
    are keys of the spec outside the ten recognised ones and [env].  An
    interceptor with the spec of cwd "/tmp" matches a call with cwd
    "/tmp" and shell true, and not one with cwd "/other".  On data with
    no [undefined] inside, whose numbers are integers that a double holds
    exactly, the same JSON text is the same data, the order of the keys
    included. *)
Theorem options_subset_match :
  (forall w d command args options,
      this_options (self w) = VData (JObj d) ->
      result (match_ fn command args options w) = Normal true ->
      compareOptions (JObj d) (default_options options) = Normal true) /\
  (forall w d options,
      this_options (self w) = VData (JObj d) ->
      result (match_options fn options w) = compareOptions (JObj d) options) /\
  (forall w s d args options,
      this_called (self w) = false ->
      this_command (self w) = VData (JStr s) ->
      this_args (self w) = VData JUndefined ->
      this_options (self w) = VData (JObj d) ->
      result (match_ fn (JStr s) args options w) =
        compareOptions (JObj d) (default_options options)) /\
  (forall d c,
      env_is_mapping d -> env_is_mapping c ->
      exists b,
        compareOptions (JObj d) (JObj c) = Normal b /\
        (b = true <->
         (forall k v, In k serializable -> lookup_prop k d = Some v ->
                      JSON_stringify v = JSON_stringify (prop k c)) /\
         (forall de, lookup_prop "env" d = Some (JObj de) ->
                     exists ce, lookup_prop "env" c = Some (JObj ce) /\
                                forall k v, lookup_prop k de = Some v ->
                                            identical (Data v) (read k ce) = true))) /\
  (forall d c k v,
      lookup_prop k d = None ->
      compareOptions (JObj d) (JObj ((k, v) :: c)) = compareOptions (JObj d) (JObj c)) /\
  (forall d called k v,
      ~ In k serializable -> k <> "env" ->
      compareOptions (JObj ((k, v) :: d)) called = compareOptions (JObj d) called) /\
  (let w := new_Interceptor (VData (JStr "ls")) JUndefined
              (VData (JObj [("cwd", JStr "/tmp")])) in
   result (match_ fn (JStr "ls") (JArr [])
             (JObj [("cwd", JStr "/tmp"); ("shell", JBool true)]) w) = Normal true /\
   result (match_ fn (JStr "ls") (JArr []) (JObj [("cwd", JStr "/other")]) w)
     = Normal false) /\
  (forall x y, exact_data x = true -> exact_data y = true ->
               (JSON_stringify x = JSON_stringify y <-> x = y)).
Proof.
  split; [|split; [|split; [|split; [|split; [|split; [|split]]]]]].
  - intros w d command args options E T.
    apply (match_true_options fn command args options w d E T).
  - intros w d options E. rewrite match_options_result, E. reflexivity.
  - intros w s d args options K C A O.
    rewrite (match_options_only fn s args options w d K C A O). reflexivity.
  - intros d c Wd Wc. eexists. split; [apply compareOptions_objects; assumption|].
    rewrite andb_true_iff, forallb_forall. split.
    + intros [H1 H2]. split.
      * intros k v Hk E. specialize (H1 k Hk). unfold agrees_on in H1.
        rewrite E in H1. apply option_string_eqb_eq, H1.
      * intros de E. rewrite E in H2.
        destruct (lookup_prop "env" c) as [cenv|] eqn:Ec; [|discriminate].
        destruct (Wc _ Ec) as [ce ->]. exists ce. split; [reflexivity|].
        apply forallb_keys, H2.
    + intros [H1 H2]. split.
      * intros k Hk. unfold agrees_on.
        destruct (lookup_prop k d) as [v|] eqn:E; [|reflexivity].
        apply option_string_eqb_eq, H1; assumption.
      * destruct (lookup_prop "env" d) as [denv|] eqn:Ed; [|reflexivity].
        destruct (Wd _ Ed) as [de ->].
        destruct (H2 de eq_refl) as (ce & -> & H). apply forallb_keys, H.
  - apply compareOptions_extra.
  - apply compareOptions_unrecognised.
  - split; reflexivity.
  - intros x y Hx Hy. split; [apply JSON_stringify_inj; apply exact_defined; assumption|].
    intros ->. reflexivity.
Qed.

(** C4. On an interceptor that has not been called, the command block of
    [match] lets a call through exactly when: the command equals the spec,
    for a spec that is a string; the regular expression tests true against
    the command, for a spec that is one; the function called with
    (command, args, options) returns a truthy value, for a spec that is a
    function.  [match] returns true only if this block does, and exactly
    then when neither args nor options were registered. *)
Theorem command_criterion :
  forall w command args options,
    this_called (self w) = false ->
    let args' := default_args args in
    let options' := default_options options in
    let block := result (match_command fn command args' options' w) in
    (forall s, this_command (self w) = VData (JStr s) ->
               (block = Normal true <-> command = JStr s)) /\
    (forall re, this_command (self w) = VRegExp re ->
                (block = Normal true <->
                 fst (RegExp_test re (ToString command)) = true)) /\
    (forall f, this_command (self w) = VFun f ->
               (block = Normal true <->
                exists v, snd (fn f (api (self w)) [command; args'; options']) = Normal v /\
                          truthy v = true)) /\
    (result (match_ fn command args options w) = Normal true -> block = Normal true) /\
    (this_args (self w) = VData JUndefined ->
     this_options (self w) = VData JUndefined ->
     (result (match_ fn command args options w) = Normal true <-> block = Normal true)).
Proof.
  intros w command args options Hc args' options' block.
  assert (Hb : block = _) by apply match_command_result.
  split; [|split; [|split; [|split]]].
  - intros s E. rewrite Hb, E. rewrite <- strict_equals_eq_str.
    split; [intros [= ->]; reflexivity|intros ->; reflexivity].
  - intros re E. rewrite Hb, E.
    split; [intros [= ->]; reflexivity|intros ->; reflexivity].
  - intros f E. rewrite Hb, E.
    destruct (snd (fn f (api (self w)) [command; args'; options'])) as [v|e].
    + split; [intros [= H]; eauto|intros (v' & [= <-] & ->); reflexivity].
    + split; [discriminate|intros (v' & [=] & _)].
  - intros H. apply match_true_iff in H. apply H.
  - intros Ha Ho. rewrite match_true_iff. cbn zeta. fold args' options' block.
    destruct (match_command_frame fn command args' options' w) as [F1 _].
    set (w1 := after (match_command fn command args' options' w)) in *.
    destruct (match_args_frame fn args' w1) as [F2 _].
    set (w2 := after (match_args fn args' w1)) in *.
    assert (A1 : this_args (self w1) = VData JUndefined)
      by (destruct F1 as (_ & _ & _ & _ & _ & _ & _ & -> & _); exact Ha).
    assert (O2 : this_options (self w2) = VData JUndefined).
    { destruct F1 as (_ & _ & _ & _ & _ & _ & _ & _ & E1).
      destruct F2 as (_ & _ & _ & _ & _ & _ & _ & _ & E2). congruence. }
    rewrite match_args_result, A1, match_options_result, O2. cbn.
    tauto.
Qed.

(** C5 (amended). With an array as the args spec, [match] fails unless the
    spec's string representation, its elements joined by commas, equals
    that of the call's args.  On sequences of comma-free strings this
    tells apart any two sequences that differ in order, value or length
    (the empty sequence and the sequence of one empty string aside): the
    spec of a and b matches neither b, a nor a alone.  With no args spec
    every args is accepted. *)
Theorem args_compared_as_strings :
  (forall w spec args,
      this_args (self w) = VData (JArr spec) ->
      result (match_args fn args w) =
        match toString args with
        | Normal theirs => Normal (String.eqb (ToString (JArr spec)) theirs)
        | Throw e => Throw e
        end) /\
  (forall w spec command args options,
      this_args (self w) = VData (JArr spec) ->
      result (match_ fn command args options w) = Normal true ->
      toString (default_args args) = Normal (ToString (JArr spec))) /\
  (forall l1 l2,
      forallb comma_free l1 = true -> forallb comma_free l2 = true ->
      ToString (strings l1) = ToString (strings l2) ->
      l1 = l2 \/ (l1 = [] /\ l2 = [""]) \/ (l1 = [""] /\ l2 = [])) /\
  (forall w args,
      this_args (self w) = VData JUndefined ->
      result (match_args fn args w) = Normal true) /\
  (forall command options,
      let w := new_Interceptor command (VData (strings ["a"; "b"])) options in
      result (match_args fn (strings ["a"; "b"]) w) = Normal true /\
      result (match_args fn (strings ["b"; "a"]) w) = Normal false /\
      result (match_args fn (strings ["a"]) w) = Normal false).
Proof.
  split; [|split; [|split; [|split]]].
  - intros w spec args E. rewrite match_args_result, E. cbn [truthy truthy_data].
    cbn [toString_value toString]. destruct (toString args); reflexivity.
  - intros w spec command args options E H.
    apply match_true_iff in H. cbn zeta in H. destruct H as (_ & _ & H & _).
    destruct (match_command_frame fn command (default_args args)
                (default_options options) w) as [F _].
    rewrite match_args_result in H.
    destruct F as (_ & _ & _ & _ & _ & _ & _ & F & _). rewrite F, E in H.
    cbn [truthy truthy_data toString_value toString] in H.
    destruct (toString (default_args args)) as [theirs|e]; [|discriminate].
    injection H as H. apply String.eqb_eq in H. rewrite <- H. reflexivity.
  - apply join_injective.
  - intros w args E. rewrite match_args_result, E. reflexivity.
  - intros command options w. rewrite !match_args_result. repeat split.
Qed.



(** C8 (a defect of the code). [match] writes neither [called] nor
    [calledWith], changes no handle and queues nothing, and only [run]
    writes [called].  With a string as the command the interceptor is
    left as it was.  With a regular expression that has the [g] flag,
    [/ls/g], the [match] that returns true for the command ls moves the
    [lastIndex] of the registered expression from 0 to 2, and the same
    probe then returns false. *)
Theorem probing_can_move_lastIndex :
  (let w := new_Interceptor (VRegExp (text_RegExp "ls" "g")) JUndefined JUndefined in
   let first := match_ fn (JStr "ls") (JArr []) (JObj []) w in
   let second := match_ fn (JStr "ls") (JArr []) (JObj []) (after first) in
   result first = Normal true /\
   this_called (self (after first)) = false /\
   this_calledWith (self (after first)) = None /\
   this_command (self w) = VRegExp (text_RegExp "ls" "g") /\
   this_command (self (after first)) = VRegExp (set_lastIndex 2 (text_RegExp "ls" "g")) /\
   self (after first) <> self w /\
   result second = Normal false) /\
  (let w := new_Interceptor (VData (JStr "ls")) JUndefined JUndefined in
   let first := match_ fn (JStr "ls") (JArr []) (JObj []) w in
   result first = Normal true /\ after first = w) /\
  (forall w command args options,
      frame w (after (match_ fn command args options w))) /\
  (forall a w,
      this_called (self (step fn a w)) =
        match a with
        | Invoke _ _ _ => true
        | _ => this_called (self w)
        end).
Proof.
  split; [|split; [|split]].
  - repeat split. intros E. apply (f_equal this_command) in E.
    vm_compute in E. injection E as E. discriminate E.
  - split; reflexivity.
  - intros w command args options. apply (match_frame fn command args options w).
  - apply step_called.
Qed.

(** C9. The facade's [calledWith] is [undefined] as long as [called] is
    false; [run] records the triple it is given before it returns, in the
    turn of the call, with the resolution merely queued; and what is done
    to the interceptor afterwards does not change it so long as [run] is
    not called again. *)
Theorem calledWith_records_the_call :
  (forall w, this_called (self w) = false -> API_calledWith (self w) = None) /\
  (forall w command args options,
      let w' := after (run command args options w) in
      API_calledWith (self w') = Some (mkCalledWith command args options) /\
      now w' = now w /\
      pending w' = pending w ++ [Resolve] /\
      emitted_by (length (heap w)) w' = [(now w, Spawn)]) /\
  (forall w command args options acts,
      existsb is_invoke acts = false ->
      API_calledWith (self (steps fn acts (after (run command args options w)))) =
        Some (mkCalledWith command args options)).
Proof.
  split; [|split].
  - intros w H. unfold API_calledWith, API_called. rewrite H. reflexivity.
  - intros w command args options. cbn zeta. rewrite run_spec.
    cbn [after snd self now pending]. repeat split.
    unfold emitted_by, child_at. cbn [heap].
    rewrite list_lookup_middle by reflexivity. reflexivity.
  - intros w command args options acts H.
    destruct (steps_calledWith fn acts (after (run command args options w)) H)
      as [Hc Hw].
    unfold API_calledWith, API_called. rewrite Hc, Hw, run_spec. reflexivity.
Qed.

(** C10. The constructor sets the exit code 0 and the signal [null] and
    leaves the stdout and stderr mocks undefined.  An interceptor run with
    these mocks gives a handle that ends with exit code 0 and signal code
    [null], emits [exit] and [close] with 0 and [null] after [spawn], and
    whose output and error streams are ended with nothing written. *)
Theorem unconfigured_interceptor_exits_zero :
  (forall command args options,
      this_mocks (self (new_Interceptor command args options)) =
        mkMocks (JNum 0) JNull JUndefined JUndefined 0) /\
  (forall w command args options,
      reachable fn w ->
      this_called (self w) = false ->
      mock_exitCode (this_mocks (self w)) = VData (JNum 0) ->
      mock_signal (this_mocks (self w)) = VData JNull ->
      mock_stdout (this_mocks (self w)) = VData JUndefined ->
      mock_stderr (this_mocks (self w)) = VData JUndefined ->
      let w' := tick fn (tick fn (after (run command args options w))) in
      result (run command args options w) = Normal handle /\
      child_at handle w' =
        Some (spawned_child args (JNum 0) JNull
                [(now w, Spawn);
                 (S (S (now w)), Exit (JNum 0) JNull);
                 (S (S (now w)), Close (JNum 0) JNull)]) /\
      stream_of child_stdout handle w' = Some [StreamEnd] /\
      stream_of child_stderr handle w' = Some [StreamEnd] /\
      pending w' = [] /\ unhandled w' = unhandled w /\ invoked w' = invoked w).
Proof.
  split; [reflexivity|].
  intros w command args options H Hc M1 M2 M3 M4 w'.
  destruct (reachable_stage fn w H) as [st S].
  rewrite (stage_called _ _ S Hc) in S.
  pose proof (run_registered command args options w S) as R.
  pose proof (resolution_completes fn w command args options
                (JNum 0) JNull JUndefined JUndefined (JNum 0) JNull JUndefined JUndefined S)
    as T.
  cbn zeta in T. unfold w'. rewrite R in *.
  cbn [after snd self this_mocks] in T. unfold after_reading in T.
  rewrite M1 in T. cbn [mock_calls mock_outcome mock_invocation] in T.
  rewrite configured_nil, M2 in T. cbn [mock_calls mock_outcome mock_invocation] in T.
  rewrite configured_nil, M3 in T. cbn [mock_calls mock_outcome mock_invocation] in T.
  rewrite configured_nil, M4 in T. cbn [mock_calls mock_outcome mock_invocation] in T.
  rewrite configured_nil in T.
  destruct T as [_ T]; try reflexivity.
  cbn [after snd result fst]. rewrite T. cbn. rewrite !app_nil_r. repeat split.
Qed.

End Claims.

(** * Instances and counterexamples *)

(** The theorems above at concrete interceptors, their hypotheses
    discharged by evaluation, and the interceptors on which C2, C3, C5 and
    C7 fail as they were first stated. *)

Lemma called_never_matches_witness :
  let w := new_Interceptor (VData (JStr "ls")) JUndefined JUndefined in
  result (match_ example_functions (JStr "ls") (JArr []) (JObj [])
            (after (run (JStr "ls") (JArr []) (JObj []) w))) = Normal false.
Proof.
  intros w. apply (proj1 (called_never_matches example_functions)). reflexivity.
Defined.

Lemma spawn_then_exit_then_close_witness :
  let w := new_Interceptor (VData (JStr "ls")) JUndefined JUndefined in
  let w1 := after (run (JStr "ls") (JArr []) (JObj []) w) in
  reachable example_functions
    (steps example_functions
       [Probe (JStr "ls") (JArr []) (JObj []); Invoke (JStr "ls") (JArr []) (JObj [])] w) /\
  emitted_by handle (tick example_functions (tick example_functions w1)) =
    [(0, Spawn); (2, Exit (JNum 0) JNull); (2, Close (JNum 0) JNull)].
Proof.
  intros w w1. split.
  - apply (proj1 (proj2 (proj2 (proj2 (spawn_then_exit_then_close example_functions))))
             w (JStr "ls") (JArr []) (JObj []) (reach_new _ _ _ _)).
    reflexivity.
  - exact (proj1 (proj2 (proj2 (proj2
      (proj2 (proj2 (proj2 (proj2 (spawn_then_exit_then_close example_functions))))
         w (JStr "ls") (JArr []) (JObj [])
         (JNum 0) JNull JUndefined JUndefined (JNum 0) JNull JUndefined JUndefined
         (reach_new _ _ _ _) eq_refl eq_refl eq_refl eq_refl eq_refl
         eq_refl eq_refl eq_refl eq_refl eq_refl eq_refl))))).
Defined.

(** C2, as stated, fails: when the function given as the exit code throws,
    the handle [run] has returned emits [spawn] and, whatever happens
    next, neither [exit] nor [close]. *)
Lemma throwing_mock_never_exits :
  let w := steps example_functions [Configure (call_exit (VFun 3))]
             (new_Interceptor (VData (JStr "ls")) JUndefined JUndefined) in
  let r := run (JStr "ls") (JArr []) (JObj []) w in
  result r = Normal handle /\
  emitted_by handle (after r) = [(0, Spawn)] /\
  unhandled (tick example_functions (after r)) = [JObj [("name", JStr "Error")]] /\
  (forall acts,
      existsb is_invoke acts = false ->
      emitted_by handle (steps example_functions acts (tick example_functions (after r)))
      = [(0, Spawn)]).
Proof.
  intros w r. split; [reflexivity|]. split; [reflexivity|]. split; [reflexivity|].
  intros acts N.
  assert (Hs : in_stage (Spawned 0) (after r)).
  { apply (stage_run (JStr "ls") (JArr []) (JObj []) w).
    apply in_stage_frame with (new_Interceptor (VData (JStr "ls")) JUndefined JUndefined);
      [apply perform_frame|apply stage_new]. }
  destruct (stalled_handle example_functions (after r) 0 acts Hs eq_refl N)
    as (args & C & _).
  unfold emitted_by. rewrite C. reflexivity.
Qed.

Lemma options_subset_match_witness :
  let spec := [("cwd", JStr "/tmp")] in
  let theirs := [("cwd", JStr "/tmp"); ("shell", JBool true)] in
  compareOptions (JObj spec) (default_options (JObj theirs)) = Normal true /\
  exists b,
    compareOptions (JObj spec) (JObj theirs) = Normal b /\
    (b = true <->
     (forall k v, In k serializable -> lookup_prop k spec = Some v ->
                  JSON_stringify v = JSON_stringify (prop k theirs)) /\
     (forall de, lookup_prop "env" spec = Some (JObj de) ->
                 exists ce,
                   lookup_prop "env" theirs = Some (JObj ce) /\
                   forall k v, lookup_prop k de = Some v ->
                               identical (Data v) (read k ce) = true)).
Proof.
  intros spec theirs. split.
  - apply (proj1 (options_subset_match example_functions)
             (new_Interceptor (VData (JStr "ls")) JUndefined (VData (JObj spec)))
             spec (JStr "ls") (JArr []) (JObj theirs)); reflexivity.
  - apply (proj1 (proj2 (proj2 (proj2 (options_subset_match example_functions))))).
    + intros v H. discriminate H.
    + intros v H. discriminate H.
Defined.

(** C3, as stated, fails: [timeout] is a key of the spec that the call's
    options lack, or have with another value, and [match] succeeds. *)
Lemma unrecognised_key_is_not_compared :
  let spec := [("timeout", JNum 5)] in
  let w := new_Interceptor (VData (JStr "ls")) JUndefined (VData (JObj spec)) in
  lookup_prop "timeout" spec = Some (JNum 5) /\
  lookup_prop "timeout" [] = None /\
  result (match_ example_functions (JStr "ls") (JArr []) (JObj []) w) = Normal true /\
  result (match_ example_functions (JStr "ls") (JArr [])
            (JObj [("timeout", JNum 10)]) w) = Normal true.
Proof. repeat split. Qed.

(** Two values that are not deep-equal may share their JSON text, and a
    key of the spec whose value is [undefined] may be absent from the call. *)
Remark JSON_text_is_coarser_than_equality :
  compareOptions (JObj [("stdio", JArr [JStr "pipe"; JNull])])
                 (JObj [("stdio", JArr [JStr "pipe"; JUndefined])]) = Normal true /\
  compareOptions (JObj [("cwd", JUndefined)]) (JObj []) = Normal true.
Proof. split; reflexivity. Qed.

Lemma command_criterion_witness :
  let w := new_Interceptor (VData (JStr "ls")) JUndefined JUndefined in
  result (match_ example_functions (JStr "ls") JUndefined JUndefined w) = Normal true.
Proof.
  intros w.
  destruct (command_criterion example_functions w (JStr "ls") JUndefined JUndefined eq_refl)
    as (H & _ & _ & _ & E).
  apply E; [reflexivity|reflexivity|].
  apply (H "ls"); reflexivity.
Defined.

Lemma args_compared_as_strings_witness :
  toString (default_args (strings ["x"; "y"])) = Normal (ToString (JArr [JStr "x"; JStr "y"])) /\
  (["x"; "y"] = ["x"; "y"] \/ (["x"; "y"] = [] /\ ["x"; "y"] = [""]) \/
   (["x"; "y"] = [""] /\ ["x"; "y"] = [])).
Proof.
  split.
  - apply (proj1 (proj2 (args_compared_as_strings example_functions))
             (new_Interceptor (VData (JStr "echo")) (VData (strings ["x"; "y"])) JUndefined)
             [JStr "x"; JStr "y"] (JStr "echo") (strings ["x"; "y"]) (JObj []));
      reflexivity.
  - apply (proj1 (proj2 (proj2 (args_compared_as_strings example_functions)))
             ["x"; "y"] ["x"; "y"]); reflexivity.
Defined.

(** C5, as stated, fails: the args spec of a and b matches the call whose
    only argument is "a,b", a sequence of another length. *)
Lemma comma_in_argument_matches :
  let w := new_Interceptor (VData (JStr "git")) (VData (strings ["a"; "b"])) JUndefined in
  result (match_ example_functions (JStr "git") (strings ["a,b"]) (JObj []) w)
    = Normal true /\
  length ["a"; "b"] <> length ["a,b"].
Proof. split; [reflexivity|discriminate]. Qed.




(** A function of the spec is handed the facade and may call its setters:
    [function () { this.exit(7); return true }] given as the command makes
    a successful [match] write the exit code. *)
Remark probing_can_write_a_mock :
  let w := new_Interceptor (VFun 2) JUndefined JUndefined in
  let probe := match_ example_functions (JStr "ls") (JArr []) (JObj []) w in
  result probe = Normal true /\
  mock_exitCode (this_mocks (self w)) = VData (JNum 0) /\
  mock_exitCode (this_mocks (self (after probe))) = VData (JNum 7).
Proof. repeat split. Qed.

Lemma calledWith_records_the_call_witness :
  let w := new_Interceptor (VData (JStr "ls")) JUndefined JUndefined in
  API_calledWith (self w) = None /\
  API_calledWith
    (self (steps example_functions [Tick; Probe (JStr "ls") (JArr []) (JObj []); Tick]
             (after (run (JStr "ls") (JArr [JStr "-l"]) (JObj []) w)))) =
    Some (mkCalledWith (JStr "ls") (JArr [JStr "-l"]) (JObj [])).
Proof.
  intros w. split.
  - apply (proj1 (calledWith_records_the_call example_functions)). reflexivity.
  - apply (proj2 (proj2 (calledWith_records_the_call example_functions))).
    reflexivity.
Defined.

Lemma unconfigured_interceptor_exits_zero_witness :
  let w := new_Interceptor (VData (JStr "ls")) JUndefined JUndefined in
  let w' := tick example_functions
              (tick example_functions (after (run (JStr "ls") (JArr []) (JObj []) w))) in
  stream_of child_stdout handle w' = Some [StreamEnd].
Proof.
  intros w w'.
  refine (proj1 (proj2 (proj2
    (proj2 (unconfigured_interceptor_exits_zero example_functions)
       w (JStr "ls") (JArr []) (JObj [])
       (reach_new _ _ _ _) eq_refl eq_refl eq_refl eq_refl eq_refl)))).
Defined.

(** Outside the contract of [run]: a second [run] takes the place of the
    handle of the first in [this.child], so both resolutions write to the
    second handle and the first never exits. *)
Remark rerun_orphans_the_first_handle :
  let w := steps example_functions
             [Invoke (JStr "ls") (JArr []) (JObj []);
              Invoke (JStr "ls") (JArr []) (JObj []);
              Tick; Tick; Tick; Tick]
             (new_Interceptor (VData (JStr "ls")) JUndefined JUndefined) in
  emitted_by 1 w = [(0, Spawn)] /\
  emitted_by 5 w =
    [(0, Spawn);
     (3, Exit (JNum 0) JNull); (3, Close (JNum 0) JNull);
     (4, Exit (JNum 0) JNull); (4, Close (JNum 0) JNull)].
Proof. split; reflexivity. Qed.

(** * Further properties of the module *)

(** ** The setters of the facade *)



(** ** The specs of an interceptor *)

Lemma same_spec_refl v : same_spec v v.
Proof. left. reflexivity. Qed.

Lemma same_spec_trans v1 v2 v3 : same_spec v1 v2 -> same_spec v2 v3 -> same_spec v1 v3.
Proof.
  intros [->|(re & i & -> & ->)] [->|(re' & j & E & ->)].
  - left. reflexivity.
  - right. eauto.
  - right. eauto.
  - injection E as <-. right. exists re, j. split; reflexivity.
Qed.

Section Specs.
Variable fn : nat -> callback.

Lemma step_specs a w :
  this_args (self (step fn a w)) = this_args (self w) /\
  this_options (self (step fn a w)) = this_options (self w) /\
  same_spec (this_command (self w)) (this_command (self (step fn a w))).
Proof.
  destruct a as [c|command args options|command args options| |]; cbn [step].
  - destruct (perform_frame c w) as ((_ & _ & _ & _ & _ & _ & _ & A & O) & C & _).
    split; [exact A|]. split; [exact O|]. left. exact C.
  - destruct (match_frame fn command args options w)
      as [(_ & _ & _ & _ & _ & _ & _ & A & O) S].
    split; [exact A|]. split; [exact O|exact S].
  - rewrite run_spec. repeat split. left. reflexivity.
  - destruct (tick_same_but_mocks fn w) as (C & A & O & _).
    split; [exact A|]. split; [exact O|]. left. exact C.
  - repeat split. left. reflexivity.
Qed.

Lemma steps_specs acts w :
  this_args (self (steps fn acts w)) = this_args (self w) /\
  this_options (self (steps fn acts w)) = this_options (self w) /\
  same_spec (this_command (self w)) (this_command (self (steps fn acts w))) /\
  this_called (self (steps fn acts w)) = this_called (self w) || existsb is_invoke acts.
Proof.
  revert w. induction acts as [|a acts IH]; intros w.
  - cbn. rewrite orb_false_r. repeat split. apply same_spec_refl.
  - cbn [steps fold_left existsb]. fold (steps fn acts (step fn a w)).
    destruct (IH (step fn a w)) as (A & O & C & K).
    destruct (step_specs a w) as (A' & O' & C').
    split; [congruence|]. split; [congruence|].
    split; [eapply same_spec_trans; eassumption|].
    rewrite K, step_called. destruct a; cbn [is_invoke];
      rewrite ?orb_false_l, ?orb_true_l, ?orb_true_r; reflexivity.
Qed.

End Specs.

(** ** The description *)

Section Describing.
Variable function_text : nat -> string.
Variable inspect : value -> string.

Lemma ToString_value_same_spec v v' :
  same_spec v v' -> ToString_value function_text v' = ToString_value function_text v.
Proof. intros [->|(re & i & -> & ->)]; reflexivity. Qed.

Lemma description_ext i i' :
  same_spec (this_command i) (this_command i') ->
  this_args i' = this_args i -> this_options i' = this_options i ->
  this_called i' = this_called i ->
  API_description function_text inspect i' = API_description function_text inspect i.
Proof.
  intros C A O K. unfold API_description, API_command, API_args, API_options, API_called.
  rewrite A, O, K, (ToString_value_same_spec _ _ C). reflexivity.
Qed.

Lemma description_uncalled i :
  API_description function_text inspect (with_called false i) =
  "un" +:+ API_description function_text inspect (with_called true i).
Proof.
  unfold API_description, API_command, API_args, API_options, API_called, with_called.
  cbn [this_command this_args this_options this_called negb].
  destruct (truthy (this_args i)), (truthy (this_options i));
    rewrite ?string_app_assoc; reflexivity.
Qed.

End Describing.

(** X3. The description reads the specs and [called] only: after anything
    that may happen to an interceptor it is what it was, with [called] as
    [run] may have set it; and the description of an interceptor that has
    not been called is that of the called one with "un" put before it.
    Both [toString] methods return the description. *)
Theorem description_follows_called :
  forall function_text inspect,
    let describe := API_description function_text inspect in
    (forall fn acts w,
        describe (self (steps fn acts w)) =
        describe (with_called (this_called (self w) || existsb is_invoke acts) (self w))) /\
    (forall i, describe (with_called false i) = "un" +:+ describe (with_called true i)) /\
    (forall i, API_toString function_text inspect i = describe i /\
               Interceptor_toString function_text inspect i = describe i).
Proof.
  intros function_text inspect describe. split; [|split].
  - intros fn acts w. destruct (steps_specs fn acts w) as (A & O & C & K).
    apply description_ext; [exact C|exact A|exact O|exact K].
  - apply description_uncalled.
  - intros i. split; reflexivity.
Qed.

(** ** [match], block after block *)

Section Matching.
Variable fn : nat -> callback.

(** X4. [match] stops at the first block that does not let the call
    through: it then returns what that block returned, or throws what it
    threw, in the world that block left, and the later blocks are not run
    (their functions are not called).  On an interceptor that has been
    called no block is run. *)
Theorem match_stops_at_the_first_failure :
  forall command args options w,
    let args' := default_args args in
    let options' := default_options options in
    let c := match_command fn command args' options' w in
    let a := match_args fn args' (after c) in
    (this_called (self w) = true ->
     match_ fn command args options w = (Normal false, w)) /\
    (this_called (self w) = false ->
     result c <> Normal true ->
     match_ fn command args options w = c) /\
    (this_called (self w) = false ->
     result c = Normal true -> result a <> Normal true ->
     match_ fn command args options w = a) /\
    (this_called (self w) = false ->
     result c = Normal true -> result a = Normal true ->
     match_ fn command args options w = match_options fn options' (after a)) /\
    (forall s,
        this_called (self w) = false ->
        this_command (self w) = VData (JStr s) -> command <> JStr s ->
        match_ fn command args options w = (Normal false, w)).
Proof.
  intros command args options w args' options' c a.
  split; [apply match_called|].
  rewrite match_unfold. fold args' options' c.
  split; [|split; [|split]].
  - intros -> H. destruct c as [[[]|e] w1]; cbn in *; congruence.
  - intros -> Hc H. subst a.
    destruct c as [[[]|e] w1]; cbn in *; try discriminate.
    destruct (match_args fn args' w1) as [[[]|e] w2]; cbn in *; congruence.
  - intros -> Hc H. subst a.
    destruct c as [[[]|e] w1]; cbn in *; try discriminate.
    destruct (match_args fn args' w1) as [[[]|e] w2]; cbn in *; try discriminate.
    destruct (match_options fn options' w2) as [[b|e] w3]; reflexivity.
  - intros s -> E N. subst c. unfold match_command, mbind, M_bind, gets. rewrite E.
    cbn. destruct (strict_equals command (JStr s)) eqn:Q; [|reflexivity].
    apply strict_equals_eq_str in Q. contradiction.
Qed.

End Matching.

Lemma match_stops_at_the_first_failure_witness :
  let w := new_Interceptor (VData (JStr "ls")) (VFun 2) (VFun 2) in
  let probe := match_ example_functions (JStr "cat") (JArr []) (JObj []) w in
  result probe = Normal false /\ invoked (after probe) = [] /\
  this_mocks (self (after probe)) = this_mocks (self w).
Proof.
  intros w probe. unfold probe.
  rewrite (proj2 (proj2 (proj2 (proj2
            (match_stops_at_the_first_failure example_functions (JStr "cat") (JArr []) (JObj []) w))))
            "ls" eq_refl eq_refl); [repeat split|discriminate].
Defined.

(** X5. With a command spec that is plain data (no function, no regular
    expression), an args spec that is an array of strings, or none, and an
    options spec that is a mapping, or none, [match] is a function of its
    arguments: on a call whose args are an array of strings and whose
    options are an object, either of them possibly left out, it returns a
    boolean, throws nothing, calls nothing and leaves the world as it
    was. *)
Theorem match_on_plain_data_is_pure :
  forall fn w command args options dc,
    this_command (self w) = VData dc ->
    (this_args (self w) = VData JUndefined \/
     exists l, this_args (self w) = VData (strings l)) ->
    (this_options (self w) = VData JUndefined \/
     exists d, this_options (self w) = VData (JObj d) /\ env_is_mapping d) ->
    (args = JUndefined \/ exists l, args = strings l) ->
    (options = JUndefined \/ exists c, options = JObj c /\ env_is_mapping c) ->
    exists b, match_ fn command args options w = (Normal b, w).
Proof.
  intros fn w command args options dc C A O Q P.
  destruct (this_called (self w)) eqn:K;
    [exists false; apply match_called, K|].
  assert (Ha : exists da, this_args (self w) = VData da)
    by (destruct A as [A|[l A]]; eauto).
  destruct Ha as [da Ha].
  assert (N : args <> JNull) by (destruct Q as [->|[l ->]]; discriminate).
  assert (D : exists c, default_options options = JObj c /\ env_is_mapping c).
  { destruct P as [->|(c & -> & H)]; [exists []; split; [reflexivity|]|eauto].
    intros v. discriminate. }
  destruct D as (c & D & Hc).
  destruct O as [O|(d & O & Hd)].
  - rewrite (match_data fn command args options w dc da JUndefined c K C Ha O N D).
    cbn [truthy_data].
    destruct (strict_equals command dc); [|eauto].
    destruct (truthy_data da && _); eauto.
  - rewrite (match_data fn command args options w dc da (JObj d) c K C Ha O N D).
    cbn [truthy_data]. rewrite (compareOptions_objects d c Hd Hc).
    destruct (strict_equals command dc); [|eauto].
    destruct (truthy_data da && _); eauto.
Qed.

Lemma match_on_plain_data_is_pure_witness :
  let w := new_Interceptor (VData (JStr "ls")) (VData (strings ["-l"]))
             (VData (JObj [("cwd", JStr "/tmp")])) in
  exists b, match_ example_functions (JStr "ls") (strings ["-a"]) JUndefined w = (Normal b, w).
Proof.
  intros w.
  apply (match_on_plain_data_is_pure example_functions w (JStr "ls") (strings ["-a"])
           JUndefined (JStr "ls") eq_refl).
  - right. exists ["-l"]. reflexivity.
  - right. exists [("cwd", JStr "/tmp")]. split; [reflexivity|]. intros v. discriminate.
  - right. exists ["-a"]. reflexivity.
  - left. reflexivity.
Defined.

(** ** A call with the registered triple *)

Lemma strict_equals_refl v : primitive v = true -> strict_equals v v = true.
Proof.
  destruct v as [| |b|n|s|l|o]; cbn; try discriminate; intros _; try reflexivity.
  - destruct b; reflexivity.
  - apply Z.eqb_refl.
  - apply String.eqb_refl.
Qed.

Lemma lookup_prop_elem k (o : list (string * jsdata)) v :
  lookup_prop k o = Some v -> exists k', In (k', v) o.
Proof.
  induction o as [|[k' v'] o IH]; cbn; [discriminate|].
  destruct (String.eqb k k'); [intros [= ->]; eauto|].
  intros H. destruct (IH H) as [k'' Hin]. eauto.
Qed.

Lemma agrees_on_refl d k : agrees_on d d k = true.
Proof.
  unfold agrees_on. destruct (lookup_prop k d) as [v|] eqn:E; [|reflexivity].
  rewrite (prop_Some _ _ _ E). apply option_string_eqb_eq. reflexivity.
Qed.

Lemma compareOptions_refl d :
  env_of_primitives d -> compareOptions (JObj d) (JObj d) = Normal true.
Proof.
  intros H.
  assert (M : env_is_mapping d).
  { intros v E. destruct (H v E) as (e & -> & _). eauto. }
  rewrite (compareOptions_objects d d M M). f_equal. apply andb_true_iff. split.
  - apply forallb_forall. intros k _. apply agrees_on_refl.
  - destruct (lookup_prop "env" d) as [v|] eqn:E; [|reflexivity].
    destruct (H v E) as (e & -> & P).
    apply forallb_keys. intros k v L. rewrite (read_own _ _ _ L).
    apply strict_equals_refl. destruct (lookup_prop_elem _ _ _ L) as [k' Hin].
    rewrite forallb_forall in P. apply (P (k', v) Hin).
Qed.

(** X6. An interceptor that has not been called matches the call made
    with the very triple it was registered with: a command string, an
    array of strings as args and an options object whose [env], if any, is
    an object of primitive values. *)
Theorem registered_triple_matches :
  forall fn w s l d,
    this_called (self w) = false ->
    this_command (self w) = VData (JStr s) ->
    this_args (self w) = VData (strings l) ->
    this_options (self w) = VData (JObj d) ->
    env_of_primitives d ->
    match_ fn (JStr s) (strings l) (JObj d) w = (Normal true, w).
Proof.
  intros fn w s l d K C A O H.
  rewrite (match_data fn (JStr s) (strings l) (JObj d) w (JStr s) (strings l) (JObj d) d
             K C A O); [|discriminate|reflexivity].
  cbn [strict_equals truthy_data default_args strings].
  rewrite !String.eqb_refl. cbn [negb andb].
  apply f_equal2; [|reflexivity]. apply compareOptions_refl, H.
Qed.

Lemma registered_triple_matches_witness :
  let d := [("cwd", JStr "/tmp"); ("env", JObj [("FOO", JStr "1")])] in
  let w := new_Interceptor (VData (JStr "ls")) (VData (strings ["-l"])) (VData (JObj d)) in
  match_ example_functions (JStr "ls") (strings ["-l"]) (JObj d) w = (Normal true, w).
Proof.
  intros d w.
  apply (registered_triple_matches example_functions w "ls" ["-l"] d);
    try reflexivity.
  intros v [= <-]. eexists. split; reflexivity.
Defined.

(** ** What makes [compareOptions] throw *)

Ltac run_completion :=
  unfold mbind, completion_bind, mret, completion_ret.

Lemma hasOwnProperty_found k o v :
  lookup_prop k o = Some v -> hasOwnProperty (JObj o) k = Normal true.
Proof. intros E. rewrite hasOwnProperty_object, E. reflexivity. Qed.

Lemma hasOwnProperty_missing k o :
  lookup_prop k o = None -> hasOwnProperty (JObj o) k = Normal false.
Proof. intros E. rewrite hasOwnProperty_object, E. reflexivity. Qed.

Lemma get_found k o v : lookup_prop k o = Some v -> get (JObj o) k = Normal (Data v).
Proof. intros E. rewrite get_object, (read_own _ _ _ E). reflexivity. Qed.

(** X7. [compareOptions] reads the keys of the spec's [env] in the call's
    [env] without looking at what that is: when the first loop has passed
    and the call has an [env] of its own that is [undefined] or [null], a
    spec whose [env] has a key makes it throw a [TypeError]; so does a
    spec whose own [env] is [undefined] or [null], whatever the call's
    [env].  A call with no [env] at all is rejected with [false], and an
    empty [env] in the spec accepts any [env]. *)
Theorem compareOptions_throws_without_an_env_object :
  forall d c,
    (forall x k v de,
        forallb (agrees_on d c) serializable = true ->
        lookup_prop "env" d = Some (JObj ((k, v) :: de)) ->
        lookup_prop "env" c = Some x -> x = JUndefined \/ x = JNull ->
        compareOptions (JObj d) (JObj c) = Throw TypeError) /\
    (forall x y,
        forallb (agrees_on d c) serializable = true ->
        lookup_prop "env" d = Some x -> x = JUndefined \/ x = JNull ->
        lookup_prop "env" c = Some y ->
        compareOptions (JObj d) (JObj c) = Throw TypeError) /\
    (forall x,
        lookup_prop "env" d = Some x -> lookup_prop "env" c = None ->
        compareOptions (JObj d) (JObj c) = Normal false) /\
    (forall y,
        forallb (agrees_on d c) serializable = true ->
        lookup_prop "env" d = Some (JObj []) -> lookup_prop "env" c = Some y ->
        compareOptions (JObj d) (JObj c) = Normal true).
Proof.
  intros d c. split; [|split; [|split]].
  - intros x k v de S Ed Ec Hx. unfold compareOptions. run_completion.
    rewrite compare_serializable_objects, S by apply incl_refl. cbn [negb].
    rewrite (hasOwnProperty_found _ _ _ Ed), (hasOwnProperty_found _ _ _ Ec). cbn [negb].
    rewrite (get_found _ _ _ Ed). cbn [Object_keys_of Object_keys List.map fst compare_env].
    run_completion. rewrite (get_found _ _ _ Ed), (get_found _ _ _ Ec).
    cbn [get_of]. rewrite get_object. destruct Hx as [-> | ->]; reflexivity.
  - intros x y S Ed Hx Ec. unfold compareOptions. run_completion.
    rewrite compare_serializable_objects, S by apply incl_refl. cbn [negb].
    rewrite (hasOwnProperty_found _ _ _ Ed), (hasOwnProperty_found _ _ _ Ec). cbn [negb].
    rewrite (get_found _ _ _ Ed). destruct Hx as [-> | ->]; reflexivity.
  - intros x Ed Ec. unfold compareOptions. run_completion.
    rewrite compare_serializable_objects by apply incl_refl.
    destruct (forallb (agrees_on d c) serializable); cbn [negb]; [|reflexivity].
    rewrite (hasOwnProperty_found _ _ _ Ed), (hasOwnProperty_missing _ _ Ec). reflexivity.
  - intros y S Ed Ec. unfold compareOptions. run_completion.
    rewrite compare_serializable_objects, S by apply incl_refl. cbn [negb].
    rewrite (hasOwnProperty_found _ _ _ Ed), (hasOwnProperty_found _ _ _ Ec). cbn [negb].
    rewrite (get_found _ _ _ Ed). reflexivity.
Qed.

Lemma compareOptions_throws_without_an_env_object_witness :
  compareOptions (JObj [("env", JObj [("FOO", JStr "1")])])
                 (JObj [("env", JUndefined)]) = Throw TypeError /\
  compareOptions (JObj [("env", JNull)]) (JObj [("env", JObj [])]) = Throw TypeError /\
  compareOptions (JObj [("env", JObj [("FOO", JStr "1")])]) (JObj []) = Normal false /\
  compareOptions (JObj [("env", JObj [])]) (JObj [("env", JNull)]) = Normal true.
Proof.
  split; [|split; [|split]].
  - apply (proj1 (compareOptions_throws_without_an_env_object _ _)
             JUndefined "FOO" (JStr "1") []); auto.
  - apply (proj1 (proj2 (compareOptions_throws_without_an_env_object _ _))
             JNull (JObj [])); auto.
  - apply (proj1 (proj2 (proj2 (compareOptions_throws_without_an_env_object _ _)))
             (JObj [("FOO", JStr "1")])); reflexivity.
  - apply (proj2 (proj2 (proj2 (compareOptions_throws_without_an_env_object _ _)))
             JNull); reflexivity.
Defined.

(** ** [null] in the place of args or options *)

Lemma compare_serializable_nothing attrs d x :
  x = JUndefined \/ x = JNull ->
  compare_serializable attrs (JObj d) x =
    if has_any attrs d then Throw TypeError else Normal true.
Proof.
  intros Hx. induction attrs as [|attr attrs IH]; [reflexivity|].
  cbn [compare_serializable has_any existsb]. run_completion.
  rewrite hasOwnProperty_object.
  destruct (lookup_prop attr d) as [v|] eqn:E.
  - rewrite (get_found _ _ _ E).
    rewrite bool_decide_true by eauto. destruct Hx as [-> | ->]; reflexivity.
  - rewrite bool_decide_false by (intros [? [=]]). cbn [orb]. exact IH.
Qed.

Lemma compareOptions_nothing d x :
  x = JUndefined \/ x = JNull ->
  compareOptions (JObj d) x =
    if has_any (serializable ++ ["env"]) d then Throw TypeError else Normal true.
Proof.
  intros Hx. unfold compareOptions, has_any. rewrite existsb_app. fold (has_any serializable d).
  run_completion. rewrite (compare_serializable_nothing _ _ _ Hx).
  destruct (has_any serializable d); [reflexivity|]. cbn [negb orb existsb].
  rewrite hasOwnProperty_object.
  destruct (lookup_prop "env" d) as [v|] eqn:E.
  - rewrite bool_decide_true by eauto. destruct Hx as [-> | ->]; reflexivity.
  - rewrite bool_decide_false by (intros [? [=]]). reflexivity.
Qed.

(** X8. The defaults of [match] stand in for [undefined] only.  With args
    [null], a spec of args that is data and truthy makes [match] throw a
    [TypeError] once the command has matched; with options [null], a spec
    of options that is an object makes it throw when that object has one
    of the recognised keys or [env], and accept the call otherwise. *)
Theorem null_is_not_defaulted :
  (forall fn w command options dc da,
      this_called (self w) = false ->
      this_command (self w) = VData dc -> strict_equals command dc = true ->
      this_args (self w) = VData da -> truthy_data da = true ->
      match_ fn command JNull options w = (Throw TypeError, w)) /\
  (forall d x,
      x = JUndefined \/ x = JNull ->
      compareOptions (JObj d) x =
        if has_any (serializable ++ ["env"]) d then Throw TypeError else Normal true) /\
  (forall fn w command args dc d,
      this_called (self w) = false ->
      this_command (self w) = VData dc -> strict_equals command dc = true ->
      this_args (self w) = VData JUndefined ->
      this_options (self w) = VData (JObj d) ->
      match_ fn command args JNull w =
        (if has_any (serializable ++ ["env"]) d then Throw TypeError else Normal true, w)).
Proof.
  split; [|split].
  - intros fn w command options dc da K C S A T.
    rewrite match_unfold, K, (match_command_data _ _ _ _ _ _ C), S.
    rewrite (match_args_data _ _ _ _ A), T, (toString_truthy _ T). reflexivity.
  - exact compareOptions_nothing.
  - intros fn w command args dc d K C S A O.
    rewrite match_unfold, K, (match_command_data _ _ _ _ _ _ C), S.
    rewrite (match_args_data _ _ _ _ A). cbn [truthy_data].
    rewrite (match_options_data _ _ _ _ O). cbn [truthy_data default_options].
    rewrite compareOptions_nothing by (right; reflexivity).
    destruct (has_any _ d); reflexivity.
Qed.

Lemma null_is_not_defaulted_witness :
  let w := new_Interceptor (VData (JStr "ls")) (VData (strings ["-l"])) JUndefined in
  let w' := new_Interceptor (VData (JStr "ls")) JUndefined
              (VData (JObj [("cwd", JStr "/tmp")])) in
  match_ example_functions (JStr "ls") JNull JUndefined w = (Throw TypeError, w) /\
  compareOptions (JObj [("timeout", JNum 5)]) JNull = Normal true /\
  match_ example_functions (JStr "ls") JUndefined JNull w' = (Throw TypeError, w').
Proof.
  intros w w'. split; [|split].
  - apply (proj1 null_is_not_defaulted example_functions w (JStr "ls") JUndefined
             (JStr "ls") (strings ["-l"])); reflexivity.
  - apply (proj1 (proj2 null_is_not_defaulted) [("timeout", JNum 5)] JNull).
    right. reflexivity.
  - apply (proj2 (proj2 null_is_not_defaulted) example_functions w' (JStr "ls") JUndefined
             (JStr "ls") [("cwd", JStr "/tmp")]); reflexivity.
Defined.

(** ** The handle [run] returns *)

(** X9. The handle [run] returns is a new object, and so are its three
    streams: no object there was is replaced or changed.  The handle's
    [stdio] lists its [stdin], [stdout] and [stderr], three different
    streams on which nothing has been called yet; its [spawnargs] are the
    args of the call, its exit and signal codes are [null]. *)
Theorem run_returns_a_fresh_handle :
  forall command args options w,
    let r := run command args options w in
    exists h c i o e,
      result r = Normal h /\ this_child (self (after r)) = Some h /\
      child_at h (after r) = Some c /\
      child_stdin c = Some i /\ child_stdout c = Some o /\ child_stderr c = Some e /\
      child_stdio c = [i; o; e] /\
      NoDup [h; i; o; e] /\
      Forall (fun a => heap w !! a = None) [h; i; o; e] /\
      Forall (fun s => stream_at s (after r) = Some []) [i; o; e] /\
      child_spawnargs c = Some args /\
      child_exitCode c = VData JNull /\ child_signalCode c = VData JNull /\
      child_connected c = false /\
      (forall a x, heap w !! a = Some x -> heap (after r) !! a = Some x).
Proof.
  intros command args options w r. subst r. rewrite run_spec. cbn zeta.
  set (h := length (heap w)).
  eexists h, _, (h + 1), (h + 2), (h + 3). cbn [result after fst snd self this_child].
  split; [reflexivity|]. split; [reflexivity|].
  split; [unfold child_at; cbn [heap]; rewrite list_lookup_middle by reflexivity;
          reflexivity|].
  cbn [child_stdin child_stdout child_stderr child_stdio child_spawnargs child_exitCode
       child_signalCode child_connected].
  repeat (split; [reflexivity|]).
  split.
  { repeat constructor; rewrite ?elem_of_cons, ?elem_of_nil; lia. }
  split.
  { repeat constructor; apply lookup_ge_None_2; subst h; lia. }
  split.
  { repeat constructor; unfold stream_at; cbn [heap];
      rewrite lookup_app_r by (subst h; lia);
      match goal with |- context [?a - ?b] => replace (a - b) with (a - h) by reflexivity end.
    - replace (h + 1 - h) with 1 by lia. reflexivity.
    - replace (h + 2 - h) with 2 by lia. reflexivity.
    - replace (h + 3 - h) with 3 by lia. reflexivity. }
  repeat (split; [reflexivity|]).
  intros a x E. cbn [heap]. apply lookup_app_l_Some, E.
Qed.

(** ** Configuring before and after the resolution *)

Section Configuring.
Variable fn : nat -> callback.

Lemma in_stage_configured st cs w :
  in_stage st w -> in_stage st (after (perform_all cs w)).
Proof. apply in_stage_frame, perform_all_frame. Qed.

Lemma this_child_with_mocks f i : this_child (with_mocks f i) = this_child i.
Proof. destruct i; reflexivity. Qed.

(** The turn that follows in the stage [Spawned], when the mocks, read one
    after the other, complete normally and are fulfilled. *)
Lemma spawned_resolution w t cw v1 v2 v3 v4 r1 r2 r3 r4 :
  in_stage (Spawned t) w ->
  this_calledWith (self w) = Some cw ->
  let this := api (self w) in
  let m0 := this_mocks (self w) in
  let m1 := after_reading fn mock_exitCode this m0 in
  let m2 := after_reading fn mock_signal this m1 in
  let m3 := after_reading fn mock_stdout this m2 in
  let m4 := after_reading fn mock_stderr this m3 in
  mock_outcome fn (mock_exitCode m0) this = Normal v1 ->
  mock_outcome fn (mock_signal m1) this = Normal v2 ->
  mock_outcome fn (mock_stdout m2) this = Normal v3 ->
  mock_outcome fn (mock_stderr m3) this = Normal v4 ->
  await v1 = Fulfilled r1 -> await v2 = Fulfilled r2 ->
  await v3 = Fulfilled r3 -> await v4 = Fulfilled r4 ->
  tick fn w =
    mkWorld (heap_at (Spawned t) (cw_args cw)) (with_mocks (fun _ => m4) (self w))
      (S (now w)) [Resume r1 r2 r3 r4]
      (invoked w ++
       mock_invocation (S (now w)) (mock_exitCode m0) this ++
       mock_invocation (S (now w)) (mock_signal m1) this ++
       mock_invocation (S (now w)) (mock_stdout m2) this ++
       mock_invocation (S (now w)) (mock_stderr m3) this)
      (unhandled w).
Proof.
  intros (P & _ & _ & _ & cw' & W & H) E this m0 m1 m2 m3 m4 O1 O2 O3 O4 A1 A2 A3 A4.
  rewrite E in W. injection W as <-.
  destruct w as [hp i n q inv un]. cbn [heap self now pending invoked unhandled] in *.
  subst hp q. unfold tick. cbn [pending pending_at run_task].
  unfold with_now, with_pending. cbn [heap self now pending invoked unhandled].
  rewrite (resolve_reads fn _ v1 v2 v3 v4 r1 r2 r3 r4); try assumption.
  reflexivity.
Qed.

End Configuring.

(** X10. The mocks are read in the turn of the resolution, not by [run]:
    what the setters are given after [run] has returned and before that
    turn is what the resolution reads.  When the mocks, read one after
    the other, then complete normally and are fulfilled, and what [stdout]
    and [stderr] yield is falsy or a string, the handle exits with the
    values they yield and its streams receive them. *)
Theorem configuration_counts_until_the_resolution :
  forall fn w command args options cs v1 v2 v3 v4 r1 r2 r3 r4,
    reachable fn w ->
    this_called (self w) = false ->
    let w1 := after (perform_all cs (after (run command args options w))) in
    let this := api (self w1) in
    let m0 := this_mocks (self w1) in
    let m1 := after_reading fn mock_exitCode this m0 in
    let m2 := after_reading fn mock_signal this m1 in
    let m3 := after_reading fn mock_stdout this m2 in
    m0 = configured cs (this_mocks (self w)) /\
    (mock_outcome fn (mock_exitCode m0) this = Normal v1 ->
     mock_outcome fn (mock_signal m1) this = Normal v2 ->
     mock_outcome fn (mock_stdout m2) this = Normal v3 ->
     mock_outcome fn (mock_stderr m3) this = Normal v4 ->
     await v1 = Fulfilled r1 -> await v2 = Fulfilled r2 ->
     await v3 = Fulfilled r3 -> await v4 = Fulfilled r4 ->
     writable r3 = true -> writable r4 = true ->
     let w3 := tick fn (tick fn w1) in
     child_at handle w3 =
       Some (spawned_child args r1 r2
               [(now w, Spawn);
                (S (S (now w)), Exit r1 r2);
                (S (S (now w)), Close r1 r2)]) /\
     stream_of child_stdout handle w3 = Some (written r3) /\
     stream_of child_stderr handle w3 = Some (written r4)).
Proof.
  intros fn w command args options cs v1 v2 v3 v4 r1 r2 r3 r4 H Hc w1 this m0 m1 m2 m3.
  destruct (reachable_stage fn w H) as [st Hs].
  rewrite (stage_called _ _ Hs Hc) in Hs.
  assert (S1 : in_stage (Spawned (now w)) w1)
    by (apply in_stage_configured, stage_run, Hs).
  assert (E : w1 = with_self (with_mocks (configured cs))
                     (after (run command args options w)))
    by (unfold w1; rewrite perform_all_configured; reflexivity).
  rewrite (run_registered _ _ _ _ Hs) in E. cbn [after snd] in E.
  assert (W : this_calledWith (self w1) = Some (mkCalledWith command args options))
    by (rewrite E; reflexivity).
  assert (N : now w1 = now w) by (rewrite E; reflexivity).
  assert (I : this_child (self w1) = Some handle) by (rewrite E; reflexivity).
  split; [unfold m0; rewrite E; reflexivity|].
  intros O1 O2 O3 O4 A1 A2 A3 A4 W3 W4 w3. unfold w3.
  rewrite (spawned_resolution fn w1 _ _ v1 v2 v3 v4 r1 r2 r3 r4 S1 W O1 O2 O3 O4
             A1 A2 A3 A4).
  rewrite N. cbn [cw_args heap_at].
  rewrite tick_resume by (rewrite this_child_with_mocks; exact I).
  unfold settled. rewrite W3, W4. repeat split.
Qed.

Lemma configuration_counts_until_the_resolution_witness :
  let w := new_Interceptor (VData (JStr "ls")) JUndefined JUndefined in
  let w1 := after (perform_all [call_exit (VData (JNum 3)); call_stdout (VData (JStr "late"))]
                     (after (run (JStr "ls") (JArr []) (JObj []) w))) in
  let w3 := tick example_functions (tick example_functions w1) in
  child_exitCode <$> child_at handle w3 = Some (VData (JNum 3)) /\
  stream_of child_stdout handle w3 = Some [StreamWrite (VData (JStr "late")); StreamEnd].
Proof.
  intros w w1 w3.
  destruct (proj2 (configuration_counts_until_the_resolution example_functions w
              (JStr "ls") (JArr []) (JObj [])
              [call_exit (VData (JNum 3)); call_stdout (VData (JStr "late"))]
              (JNum 3) JNull (JStr "late") JUndefined (JNum 3) JNull (JStr "late") JUndefined
              (reach_new _ _ _ _) eq_refl)
              eq_refl eq_refl eq_refl eq_refl eq_refl eq_refl eq_refl eq_refl
              eq_refl eq_refl)
    as (C & O & _).
  fold w1 w3 in C, O. rewrite C, O. split; reflexivity.
Defined.

(** X11. Once the turn of the resolution has read the mocks, the setters
    come too late: what is configured before the next turn is stored, and
    the handle exits with the values read in the turn of the resolution
    and its streams receive them, when what [stdout] and [stderr] have
    yielded is falsy or a string. *)
Theorem configuration_after_the_resolution_is_ignored :
  forall fn w command args options cs v1 v2 v3 v4 r1 r2 r3 r4,
    reachable fn w ->
    this_called (self w) = false ->
    let w1 := after (run command args options w) in
    let this := api (self w1) in
    let m0 := this_mocks (self w1) in
    let m1 := after_reading fn mock_exitCode this m0 in
    let m2 := after_reading fn mock_signal this m1 in
    let m3 := after_reading fn mock_stdout this m2 in
    let m4 := after_reading fn mock_stderr this m3 in
    mock_outcome fn (mock_exitCode m0) this = Normal v1 ->
    mock_outcome fn (mock_signal m1) this = Normal v2 ->
    mock_outcome fn (mock_stdout m2) this = Normal v3 ->
    mock_outcome fn (mock_stderr m3) this = Normal v4 ->
    await v1 = Fulfilled r1 -> await v2 = Fulfilled r2 ->
    await v3 = Fulfilled r3 -> await v4 = Fulfilled r4 ->
    writable r3 = true -> writable r4 = true ->
    let w3 := tick fn (after (perform_all cs (tick fn w1))) in
    this_mocks (self w3) = configured cs m4 /\
    child_at handle w3 =
      Some (spawned_child args r1 r2
              [(now w, Spawn);
               (S (S (now w)), Exit r1 r2);
               (S (S (now w)), Close r1 r2)]) /\
    stream_of child_stdout handle w3 = Some (written r3) /\
    stream_of child_stderr handle w3 = Some (written r4).
Proof.
  intros fn w command args options cs v1 v2 v3 v4 r1 r2 r3 r4 H Hc w1 this m0 m1 m2 m3 m4
         O1 O2 O3 O4 A1 A2 A3 A4 W3 W4 w3.
  destruct (reachable_stage fn w H) as [st Hs].
  rewrite (stage_called _ _ Hs Hc) in Hs.
  destruct (resolution_completes fn w command args options v1 v2 v3 v4 r1 r2 r3 r4
              Hs O1 O2 O3 O4 A1 A2 A3 A4) as [T _].
  fold w1 this m0 m1 m2 m3 m4 in T. unfold w3. rewrite T, perform_all_configured.
  assert (I : this_child (self w1) = Some handle)
    by (unfold w1; rewrite (run_registered _ _ _ _ Hs); reflexivity).
  unfold with_self. cbn [after snd heap self now pending invoked unhandled heap_at].
  rewrite tick_resume by (rewrite !this_child_with_mocks; exact I).
  unfold settled. rewrite W3, W4.
  cbn [self]. rewrite !this_mocks_with_mocks. repeat split.
Qed.

Lemma configuration_after_the_resolution_is_ignored_witness :
  let w := new_Interceptor (VData (JStr "ls")) JUndefined JUndefined in
  let w1 := after (run (JStr "ls") (JArr []) (JObj []) w) in
  let w3 := tick example_functions
              (after (perform_all [call_exit (VData (JNum 3))] (tick example_functions w1))) in
  mock_exitCode (this_mocks (self w3)) = VData (JNum 3) /\
  child_exitCode <$> child_at handle w3 = Some (VData (JNum 0)).
Proof.
  intros w w1 w3.
  destruct (configuration_after_the_resolution_is_ignored example_functions w
              (JStr "ls") (JArr []) (JObj []) [call_exit (VData (JNum 3))]
              (JNum 0) JNull JUndefined JUndefined (JNum 0) JNull JUndefined JUndefined
              (reach_new _ _ _ _) eq_refl
              eq_refl eq_refl eq_refl eq_refl eq_refl eq_refl eq_refl eq_refl
              eq_refl eq_refl)
    as (M & C & _).
  fold w1 w3 in M, C. rewrite M, C. split; reflexivity.
Defined.

(** ** An exit code that is not to be had *)

(** X12. When the function given as the exit code throws, or when what it
    returns (or the exit code itself) is a promise that is rejected or
    never settles, the handle never exits: whatever happens next, short of
    another [run], it has emitted [spawn] alone, its streams are not
    ended, and nothing is left queued.  What the function threw is raised
    in the turn of the resolution where nothing catches it, and the other
    mocks are not read. *)
Theorem unsettled_exit_code_never_exits :
  forall fn w command args options,
    reachable fn w ->
    this_called (self w) = false ->
    let w1 := after (run command args options w) in
    let m := mock_exitCode (this_mocks (self w1)) in
    let out := mock_outcome fn m (api (self w1)) in
    ((exists e, out = Throw e) \/
     (exists v, out = Normal v /\ forall r, await v <> Fulfilled r) ->
     forall acts,
       existsb is_invoke acts = false ->
       let w' := steps fn acts (tick fn w1) in
       emitted_by handle w' = [(now w, Spawn)] /\
       stream_of child_stdout handle w' = Some [] /\
       stream_of child_stderr handle w' = Some [] /\
       pending w' = []) /\
    (forall e,
        out = Throw e ->
        unhandled (tick fn w1) = unhandled w ++ [e] /\
        invoked (tick fn w1) = invoked w ++ mock_invocation (S (now w)) m (api (self w1))).
Proof.
  intros fn w command args options H Hc w1 m out.
  destruct (reachable_stage fn w H) as [st Hs].
  rewrite (stage_called _ _ Hs Hc) in Hs.
  pose proof (stage_run command args options w Hs) as S1. fold w1 in S1.
  assert (E : w1 = _) by (unfold w1; rewrite (run_registered _ _ _ _ Hs); reflexivity).
  cbn [after snd] in E.
  assert (T : tick fn w1 =
              let r := resolve fn (with_now S (with_pending (fun _ => []) w1)) in
              match result r with
              | Normal _ => after r
              | Throw e => with_unhandled (fun l => l ++ [e]) (after r)
              end).
  { unfold tick. rewrite (proj1 S1). cbn [pending_at run_task]. cbn zeta.
    destruct (resolve fn _) as [[[]|e] w2]; reflexivity. }
  set (w0 := with_now S (with_pending (fun _ => []) w1)) in T.
  destruct (resolve_exit_code fn w0) as [RT RN].
  assert (M0 : mock_exitCode (this_mocks (self w0)) = m) by reflexivity.
  assert (A0 : api (self w0) = api (self w1)) by reflexivity.
  assert (N0 : now w0 = S (now w)) by (unfold w0; rewrite E; reflexivity).
  assert (U0 : unhandled w0 = unhandled w) by (unfold w0; rewrite E; reflexivity).
  assert (I0 : invoked w0 = invoked w) by (unfold w0; rewrite E; reflexivity).
  rewrite M0, A0 in RT, RN. fold out in RT, RN.
  split.
  - intros U acts N w'.
    assert (P : pending (tick fn w1) = []).
    { rewrite T. cbn zeta.
      assert (P0 : pending (after (resolve fn w0)) = [])
        by (destruct U as [[e U]|(v & U & A)]; [apply (RT e U)|apply (RN v U A)]).
      destruct (result (resolve fn w0)); exact P0. }
    pose proof (stalled_steps fn acts _ _ N (spawned_stalls fn w1 _ S1 P)) as S'.
    fold w' in S'. destruct S' as (P' & _ & _ & _ & cw & _ & Hh).
    unfold emitted_by, stream_of, child_at, stream_at. rewrite Hh.
    repeat split. exact P'.
  - intros e U. destruct (RT e U) as (R & _ & Un & In). rewrite T. cbn zeta. rewrite R.
    cbn [unhandled invoked with_unhandled]. rewrite Un, In, U0, I0, N0. split; reflexivity.
Qed.

Lemma unsettled_exit_code_never_exits_witness :
  let w := after (perform (call_exit (VFun 1))
                    (new_Interceptor (VData (JStr "ls")) JUndefined JUndefined)) in
  let w1 := after (run (JStr "ls") JNull (JObj []) w) in
  let w' := steps example_functions [Tick; Turn; Tick] (tick example_functions w1) in
  emitted_by handle w' = [(0, Spawn)] /\ stream_of child_stdout handle w' = Some [] /\
  unhandled (tick example_functions w1) = [TypeError].
Proof.
  intros w w1 w'.
  pose proof (unsettled_exit_code_never_exits example_functions w (JStr "ls") JNull (JObj [])
                (reach_configure _ _ (call_exit (VFun 1)) (reach_new _ _ _ _)) eq_refl)
    as [A B].
  destruct (A (or_introl (ex_intro _ TypeError eq_refl)) [Tick; Turn; Tick] eq_refl)
    as (X & Y & _).
  destruct (B TypeError eq_refl) as (Z & _).
  split; [exact X|]. split; [exact Y|exact Z].
Defined.

(** ** The handle through its life *)

(** X13. On an interceptor used as its contract requires, the handle is
    always in one of three states.  Until the turn that ends the
    resolution its exit and signal codes are [null] and nothing has been
    written to its streams, none of which is ended.  Once [exit] is
    emitted its exit and signal codes are those [exit] and [close] were
    emitted with, and [stdout] and [stderr] have each received at most one
    chunk and then [end], once.  When a write has thrown instead, the
    codes are set and [exit] is not emitted: [stdout] has received
    nothing, or at most one chunk and [end], and [stderr] nothing.  In all
    three, [stdin] is left untouched, [stdio] lists the three streams and
    [spawnargs] is the args [run] was called with. *)
Theorem handle_is_consistent :
  forall fn w,
    reachable fn w ->
    this_called (self w) = true ->
    exists cw t,
      this_calledWith (self w) = Some cw /\ this_child (self w) = Some handle /\
      stream_of child_stdin handle w = Some [] /\
      ((child_at handle w = Some (spawned_child (cw_args cw) JNull JNull [(t, Spawn)]) /\
        stream_of child_stdout handle w = Some [] /\
        stream_of child_stderr handle w = Some []) \/
       (exists t' e s o r,
           child_at handle w =
             Some (spawned_child (cw_args cw) e s
                     [(t, Spawn); (t', Exit e s); (t', Close e s)]) /\
           stream_of child_stdout handle w = Some (written o) /\
           stream_of child_stderr handle w = Some (written r)) \/
       (exists e s,
           child_at handle w = Some (spawned_child (cw_args cw) e s [(t, Spawn)]) /\
           (stream_of child_stdout handle w = Some [] \/
            exists o, stream_of child_stdout handle w = Some (written o)) /\
           stream_of child_stderr handle w = Some [])).
Proof.
  intros fn w H Hc. destruct (reachable_stage fn w H) as [st (_ & _ & Hs)].
  destruct st as [|t|t e s o r|t|t t' e s o r|t e s out].
  - destruct Hs as (C & _). congruence.
  - destruct Hs as (_ & R & cw & W & Hh). exists cw, t.
    unfold stream_of, child_at, stream_at. rewrite Hh. repeat split; try assumption.
    left. repeat split.
  - destruct Hs as (_ & R & cw & W & Hh). exists cw, t.
    unfold stream_of, child_at, stream_at. rewrite Hh. repeat split; try assumption.
    left. repeat split.
  - destruct Hs as (_ & R & cw & W & Hh). exists cw, t.
    unfold stream_of, child_at, stream_at. rewrite Hh. repeat split; try assumption.
    left. repeat split.
  - destruct Hs as (_ & R & cw & W & Hh). exists cw, t.
    unfold stream_of, child_at, stream_at. rewrite Hh. repeat split; try assumption.
    right. left. exists t', e, s, o, r. repeat split.
  - destruct Hs as (_ & R & cw & W & Hh). exists cw, t.
    unfold stream_of, child_at, stream_at. rewrite Hh. repeat split; try assumption.
    right. right. exists e, s. split; [reflexivity|]. split; [|reflexivity].
    destruct out as [o|]; [right; exists o; reflexivity|left; reflexivity].
Qed.

Lemma handle_is_consistent_witness :
  let w := steps example_functions [Invoke (JStr "ls") (JArr []) (JObj []); Tick]
             (new_Interceptor (VData (JStr "ls")) JUndefined JUndefined) in
  stream_of child_stdin handle w = Some [].
Proof.
  intros w.
  destruct (handle_is_consistent example_functions w
              (reach_tick _ _ (reach_invoke _ _ (JStr "ls") (JArr []) (JObj [])
                                 (reach_new _ _ _ _) eq_refl)) eq_refl)
    as (cw & t & _ & _ & H & _).
  exact H.
Defined.

(** ** Handles that are not [this.child] *)

Lemma kept_refl w : kept w w.
Proof. unfold kept; tauto. Qed.

Lemma kept_trans a b c : kept a b -> kept b c -> kept a c.
Proof. unfold kept; intuition congruence. Qed.

Lemma superseded_kept h c w w' : kept w w' -> superseded h c w -> superseded h c w'.
Proof. intros (Hh & Hc & _) [L N]. unfold superseded. rewrite Hh, Hc. tauto. Qed.

Lemma assign_child_superseded h c f :
  hoare (superseded h c) (superseded h c) (assign_child f).
Proof.
  intros w Hw. unfold assign_child, mbind, M_bind, the_child.
  destruct (this_child (self w)) as [r|] eqn:Er; [|exact Hw].
  destruct (heap w !! r) as [[c'|s]|] eqn:Ec; cbn; try exact Hw.
  destruct Hw as [L N]. split; cbn [heap self with_heap]; [|exact N].
  rewrite list_lookup_insert_ne by congruence. exact L.
Qed.

Lemma on_stream_superseded h c field x :
  hoare (superseded h c) (superseded h c) (on_stream field x).
Proof.
  intros w Hw. unfold on_stream, mbind, M_bind, the_child, gets.
  destruct (this_child (self w)) as [r|] eqn:Er; [|exact Hw].
  destruct (heap w !! r) as [[ch|s]|] eqn:Ec; cbn; try exact Hw.
  destruct (field ch) as [s|]; cbn; [|exact Hw].
  destruct (heap w !! s) as [[ch'|calls]|] eqn:Es; cbn; try exact Hw.
  unfold lift. destruct (accept x) as [[]|e]; cbn; [|exact Hw].
  destruct Hw as [L N]. split; cbn [heap self with_heap]; [|exact N].
  rewrite list_lookup_insert_ne by congruence. exact L.
Qed.

Lemma emit_superseded h c e : hoare (superseded h c) (superseded h c) (emit e).
Proof.
  intros w Hw. unfold emit, mbind, M_bind, gets. apply assign_child_superseded, Hw.
Qed.

Lemma resume_superseded h c e s o r :
  hoare (superseded h c) (superseded h c) (resume e s o r).
Proof.
  unfold resume.
  repeat (apply hoare_bind with (superseded h c);
          [first [apply assign_child_superseded
                 |apply on_stream_superseded
                 |apply emit_superseded
                 |destruct (truthy _); [apply on_stream_superseded|intros w H; exact H]]
          |intros _
          |auto]).
  apply emit_superseded.
Qed.

Section Kept.
Variable fn : nat -> callback.

Lemma call_kept f args : keeps kept (call fn f args).
Proof.
  intros w. unfold call. destruct (fn f (api (self w)) args) as [calls outcome].
  rewrite perform_all_configured. unfold kept. cbn. tauto.
Qed.

Lemma perform_kept c : keeps kept (perform c).
Proof. intros w. rewrite perform_configured. unfold kept. cbn. tauto. Qed.

Lemma ret_kept {A : Type} (a : A) : keeps kept (mret a).
Proof. intros w. apply kept_refl. Qed.

Lemma getter_kept (field : Mocks -> value) :
  keeps kept (v ← gets (fun w => field (this_mocks (self w)));
              match v with VFun f => call fn f [] | _ => mret v end).
Proof.
  intros w. unfold mbind, M_bind, gets.
  destruct (field (this_mocks (self w))); try apply kept_refl. apply call_kept.
Qed.

Lemma resolve_kept : keeps kept (resolve fn).
Proof.
  unfold resolve.
  apply keeps_bind; [exact kept_refl|exact kept_trans|apply getter_kept|intros v1].
  apply keeps_bind; [exact kept_refl|exact kept_trans|apply getter_kept|intros v2].
  apply keeps_bind; [exact kept_refl|exact kept_trans|apply getter_kept|intros v3].
  apply keeps_bind; [exact kept_refl|exact kept_trans|apply getter_kept|intros v4].
  destruct (await v1), (await v2), (await v3), (await v4);
    intros w; unfold kept; cbn; tauto.
Qed.

Lemma match_kept command args options : keeps kept (match_ fn command args options).
Proof.
  unfold match_.
  apply keeps_bind; [exact kept_refl|exact kept_trans|intros w; apply kept_refl|intros called].
  destruct called; [apply ret_kept|].
  apply keeps_bind; [exact kept_refl|exact kept_trans| |intros ok].
  { unfold match_command.
    apply keeps_bind; [exact kept_refl|exact kept_trans|intros w; apply kept_refl|intros v].
    destruct v as [d|f|re|p]; try apply ret_kept.
    - apply keeps_bind; [exact kept_refl|exact kept_trans|apply call_kept|intros ?].
      apply ret_kept.
    - destruct (RegExp_test re _) as [found re'].
      apply keeps_bind; [exact kept_refl|exact kept_trans| |intros ?; apply ret_kept].
      intros w. unfold kept. cbn. tauto. }
  destruct ok; cbn [negb]; [|apply ret_kept].
  apply keeps_bind; [exact kept_refl|exact kept_trans| |intros ok].
  { unfold match_args.
    apply keeps_bind; [exact kept_refl|exact kept_trans|intros w; apply kept_refl|intros v].
    assert (G : forall x,
               keeps kept
                 (if truthy v
                  then mine ← lift (toString_value v); theirs ← lift (toString x);
                       mret (String.eqb mine theirs)
                  else mret true)).
    { intros x. destruct (truthy v); [|apply ret_kept].
      intros w. unfold mbind, M_bind, lift.
      destruct (toString_value v); [|apply kept_refl].
      destruct (toString x); apply kept_refl. }
    destruct v as [d|f|re|p]; try apply G.
    apply keeps_bind; [exact kept_refl|exact kept_trans|apply call_kept|intros ?].
    apply ret_kept. }
  destruct ok; cbn [negb]; [|apply ret_kept].
  apply keeps_bind; [exact kept_refl|exact kept_trans| |intros ok].
  { unfold match_options.
    apply keeps_bind; [exact kept_refl|exact kept_trans|intros w; apply kept_refl|intros v].
    destruct v as [d|f|re|p]; try apply ret_kept.
    - destruct (truthy_data d); [intros w; apply kept_refl|apply ret_kept].
    - apply keeps_bind; [exact kept_refl|exact kept_trans|apply call_kept|intros ?].
      apply ret_kept. }
  destruct ok; apply ret_kept.
Qed.

Lemma tick_superseded h c w : superseded h c w -> superseded h c (tick fn w).
Proof.
  intros Hw. unfold tick. destruct (pending w) as [|t rest]; [exact Hw|].
  set (w1 := with_now S _).
  assert (H1 : superseded h c w1) by exact Hw.
  assert (H2 : superseded h c (after (run_task fn t w1))).
  { destruct t as [|e s o r]; cbn [run_task].
    - apply (superseded_kept _ _ w1); [apply resolve_kept|exact H1].
    - apply resume_superseded, H1. }
  destruct (run_task fn t w1) as [[[]|e] w2]; exact H2.
Qed.

Lemma step_superseded h c a w : superseded h c w -> superseded h c (step fn a w).
Proof.
  intros Hw. destruct a as [x|command args options|command args options| |]; cbn [step].
  - apply (superseded_kept _ _ w); [apply perform_kept|exact Hw].
  - apply (superseded_kept _ _ w); [apply match_kept|exact Hw].
  - rewrite run_spec. destruct Hw as [L N]. pose proof (lookup_lt_Some _ _ _ L) as Hl.
    split; cbn [after snd heap self this_child].
    + apply lookup_app_l_Some, L.
    + intros [= E]. lia.
  - apply tick_superseded, Hw.
  - exact Hw.
Qed.

Lemma steps_superseded h c acts w :
  superseded h c w -> superseded h c (steps fn acts w).
Proof.
  revert w. induction acts as [|a acts IH]; intros w Hw; [exact Hw|].
  cbn [steps fold_left]. apply IH, step_superseded, Hw.
Qed.

Lemma tick_mock_child w :
  mock_child (this_mocks (self (tick fn w))) = mock_child (this_mocks (self w)).
Proof.
  unfold tick. destruct (pending w) as [|t rest]; [reflexivity|].
  set (w1 := with_now S _).
  assert (H : mock_child (this_mocks (self (after (run_task fn t w1)))) =
              mock_child (this_mocks (self w1))).
  { destruct t as [|e s o r]; cbn [run_task].
    - apply resolve_kept.
    - destruct (resume_heap_only e s o r w1) as (-> & _). reflexivity. }
  destruct (run_task fn t w1) as [[[]|e] w2]; exact H.
Qed.

Lemma steps_mock_child acts w :
  mock_child (this_mocks (self (steps fn acts w))) = mock_child (this_mocks (self w)).
Proof.
  revert w. induction acts as [|a acts IH]; intros w; [reflexivity|].
  cbn [steps fold_left]. fold (steps fn acts (step fn a w)). rewrite IH.
  destruct a as [x|command args options|command args options| |]; cbn [step].
  - apply perform_kept.
  - apply match_kept.
  - rewrite run_spec. reflexivity.
  - apply tick_mock_child.
  - reflexivity.
Qed.

End Kept.

Lemma child_at_Some h w c : child_at h w = Some c <-> heap w !! h = Some (OChild c).
Proof.
  unfold child_at. destruct (heap w !! h) as [[c'|s]|]; split; intros E;
    try discriminate; try congruence.
Qed.

(** X14. A handle that [this.child] does not refer to never changes again,
    whatever happens to the interceptor.  [run] makes [this.child] a new
    handle, so every handle there was when [run] is called stays as it
    was then: the handle of an earlier [run] that had not exited never
    exits. *)
Theorem superseded_handle_never_changes :
  forall fn,
    (forall h c w acts, superseded h c w -> superseded h c (steps fn acts w)) /\
    (forall h c w command args options acts,
        child_at h w = Some c ->
        child_at h (steps fn acts (after (run command args options w))) = Some c).
Proof.
  intros fn. split; [intros h c w acts; apply steps_superseded|].
  intros h c w command args options acts E. apply child_at_Some in E.
  apply child_at_Some, (steps_superseded fn h c acts).
  pose proof (lookup_lt_Some _ _ _ E) as Hl.
  rewrite run_spec. split; cbn [after snd heap self this_child].
  - apply lookup_app_l_Some, E.
  - intros [= N]. lia.
Qed.

Lemma superseded_handle_never_changes_witness :
  let w := after (run (JStr "ls") (JArr []) (JObj [])
                    (new_Interceptor (VData (JStr "ls")) JUndefined JUndefined)) in
  let w' := steps example_functions [Tick; Tick; Tick; Tick]
              (after (run (JStr "ls") (JArr []) (JObj []) w)) in
  emitted_by handle w' = [(0, Spawn)].
Proof.
  intros w w'. unfold emitted_by, w'.
  rewrite (proj2 (superseded_handle_never_changes example_functions) handle
             (spawned_child (JArr []) JNull JNull [(0, Spawn)]) w); reflexivity.
Defined.

(** X15. The [ChildProcess] the constructor stores in [this.mocks.child]
    is never used: whatever happens to the interceptor, it is not the
    handle [run] returns, it emits nothing and no field of it is written. *)
Theorem constructor_child_is_never_used :
  forall fn command args options acts,
    spare (steps fn acts (new_Interceptor command args options)).
Proof.
  intros fn command args options acts. unfold spare. rewrite steps_mock_child.
  cbn [new_Interceptor self this_mocks mock_child].
  destruct (steps_superseded fn 0 fresh_ChildProcess acts
              (new_Interceptor command args options)) as [L N].
  { split; [reflexivity|discriminate]. }
  split; [apply child_at_Some, L|exact N].
Qed.

(** ** The functions [match] calls *)

Section Predicates.
Variable fn : nat -> callback.

Lemma api_frame w w' :
  frame w w' -> this_command (self w') = this_command (self w) ->
  api (self w') = api (self w).
Proof.
  intros (_ & _ & _ & _ & K & W & _ & A & O) C.
  unfold api, API_command, API_args, API_options, API_calledWith, API_called.
  rewrite C, A, O, K, W. reflexivity.
Qed.

(** A block whose spec is a function is one call of that function. *)
Lemma block_call f args w :
  let r := x ← call fn f args; mret (truthy x) in
  invoked (after (r w)) = invoked w ++ [mkInvocation (now w) f (api (self w)) args] /\
  api (self (after (r w))) = api (self w) /\ now (after (r w)) = now w.
Proof.
  cbn zeta. unfold mbind, M_bind.
  destruct (call_spec fn f args w) as (_ & F & C & I).
  destruct (call fn f args w) as [[v|e] w1]; cbn [after snd] in *;
    (split; [exact I|split; [apply api_frame; assumption|apply F]]).
Qed.

End Predicates.

(** X16. When the three specs are functions and [match] returns true, it
    has called each of them once, in the order command, args, options, in
    the turn of the call and with the facade as [this]: the command's with
    the command, the args and the options, the other two with the args
    and with the options, where args and options left out are [[]] and
    [{}].  The facade then shows [called] as false and [calledWith] as
    [undefined]. *)
Theorem predicates_are_called_in_order :
  forall fn w command args options fc fa fo,
    this_command (self w) = VFun fc ->
    this_args (self w) = VFun fa ->
    this_options (self w) = VFun fo ->
    result (match_ fn command args options w) = Normal true ->
    let this := api (self w) in
    let args' := default_args args in
    let options' := default_options options in
    invoked (after (match_ fn command args options w)) =
      invoked w ++
      [mkInvocation (now w) fc this [command; args'; options'];
       mkInvocation (now w) fa this [args'];
       mkInvocation (now w) fo this [options']] /\
    api_called this = false /\ api_calledWith this = None.
Proof.
  intros fn w command args options fc fa fo C A O T this args' options'.
  pose proof (proj1 (match_true_iff fn command args options w) T) as (K & Rc & Ra & Ro).
  fold args' options' in Rc, Ra, Ro.
  split; [|unfold this, api, API_calledWith, API_called; rewrite K; split; reflexivity].
  rewrite match_unfold, K. fold args' options'.
  destruct (match_command_frame fn command args' options' w) as [(_ & _ & _ & _ & _ & _ & _ & A1 & O1) _].
  assert (Bc : match_command fn command args' options' w =
               (x ← call fn fc [command; args'; options']; mret (truthy x)) w)
    by (unfold match_command, mbind at 1, M_bind at 1, gets; rewrite C; reflexivity).
  destruct (block_call fn fc [command; args'; options'] w) as (I1 & P1 & N1).
  rewrite <- Bc in I1, P1, N1.
  destruct (match_command fn command args' options' w) as [[[]|e] w1];
    cbn [result after fst snd] in *; try discriminate.
  rewrite A in A1. rewrite O in O1.
  destruct (match_args_frame fn args' w1) as [(_ & _ & _ & _ & _ & _ & _ & _ & O2) _].
  assert (Ba : match_args fn args' w1 = (x ← call fn fa [args']; mret (truthy x)) w1)
    by (unfold match_args, mbind at 1, M_bind at 1, gets; rewrite A1; reflexivity).
  destruct (block_call fn fa [args'] w1) as (I2 & P2 & N2).
  rewrite <- Ba in I2, P2, N2.
  destruct (match_args fn args' w1) as [[[]|e] w2];
    cbn [result after fst snd] in *; try discriminate.
  rewrite O1 in O2.
  assert (Bo : match_options fn options' w2 =
               (x ← call fn fo [options']; mret (truthy x)) w2)
    by (unfold match_options, mbind at 1, M_bind at 1, gets; rewrite O2; reflexivity).
  destruct (block_call fn fo [options'] w2) as (I3 & P3 & N3).
  rewrite <- Bo in I3, P3, N3.
  destruct (match_options fn options' w2) as [[b|e] w3];
    cbn [result after fst snd] in *; try discriminate.
  rewrite I3, I2, I1, N2, N1, P2, P1, <- !app_assoc. reflexivity.
Qed.

Lemma predicates_are_called_in_order_witness :
  let w := new_Interceptor (VFun 0) (VFun 0) (VFun 0) in
  invoked (after (match_ example_functions (JStr "ls") JUndefined JUndefined w)) =
    [mkInvocation 0 0 (api (self w)) [JStr "ls"; JArr []; JObj []];
     mkInvocation 0 0 (api (self w)) [JArr []];
     mkInvocation 0 0 (api (self w)) [JObj []]].
Proof.
  intros w.
  apply (proj1 (predicates_are_called_in_order example_functions w (JStr "ls")
                  JUndefined JUndefined 0 0 0 eq_refl eq_refl eq_refl eq_refl)).
Defined.

(** ** The end of the resolution *)


